(** * Rule engine of the claims checker (Modules/rule_processor.py)

    A shallow embedding of the rule-processing module: the condition
    normaliser [parse_condition_for_record_rule], the three extractors
    ([extract_self_comparisons], [extract_value_comparisons],
    [extract_field_differences]), the two evaluators
    ([apply_record_level_rule], [apply_dataset_level_rule]) and the
    orchestrator [apply_rules].

    Conventions of the embedding.
    - A Python [str] is a list of characters; a character is a code point
      below 256 (type [ascii]).  The classes [\w], [\s], [\d] are the ones
      Python's [re] has on that range.
    - A pandas frame is a list of column names and a list of rows; a row
      carries its index label and its cells.  A cell is a number, a text,
      a timestamp, or one of the two missing markers NaN and NaT.
    - Floats are rationals extended with the infinities and NaN.
    - Library calls whose behaviour the module does not fix (the tuple
      hash, [DataFrame.eval], the conversion of a text or a number to a
      timestamp, [float] of a text) are fields of a [Runtime] record over
      which every definition is parametric.
    - [try ... except] is an [option]: [None] is a raised exception.

    The report generator [generate_report] of Modules/report_generator.py,
    which reads the table that [apply_rules] returns, is embedded as
    well; its sort and its display are fields of a record
    [ReportRuntime]. *)

From Stdlib Require Import Ascii String.
From Stdlib Require Import List ZArith QArith Qabs Qround Bool Arith Lia.
From Stdlib Require Import Permutation Sorted.
Import ListNotations.

Local Open Scope nat_scope.
Local Open Scope list_scope.

(** ** Characters and strings *)

Abbreviation str := (list ascii).

(** A literal of the source, as a list of characters. *)
Definition L (s : string) : str := list_ascii_of_string s.

Definition code (c : ascii) : nat := nat_of_ascii c.

Definition in_range (lo hi : nat) (c : ascii) : bool :=
  (lo <=? code c) && (code c <=? hi).

(** [\d] *)
Definition is_digit (c : ascii) : bool := in_range 48 57 c.

(** [\w]: letters, digits, underscore, and the alphanumeric code points
    of the upper half (170, 178-179, 181, 185-186, 188-190, 192-214,
    216-246, 248-255). *)
Definition is_word (c : ascii) : bool :=
  in_range 48 57 c || in_range 65 90 c || (code c =? 95) || in_range 97 122 c
  || (code c =? 170) || in_range 178 179 c || (code c =? 181)
  || in_range 185 186 c || in_range 188 190 c || in_range 192 214 c
  || in_range 216 246 c || in_range 248 255 c.

(** [\s]: 9-13, 28-32, 133, 160. *)
Definition is_space (c : ascii) : bool :=
  in_range 9 13 c || in_range 28 32 c || (code c =? 133) || (code c =? 160).

Definition ch_eq : ascii := "="%char.
Definition ch_lt : ascii := "<"%char.
Definition ch_gt : ascii := ">"%char.
Definition ch_bang : ascii := "!"%char.
Definition ch_minus : ascii := "-"%char.
Definition ch_dot : ascii := "."%char.
Definition ch_Q : ascii := "Q"%char.
Definition ch_us : ascii := "_"%char.
Definition dq : ascii := ascii_of_nat 34.

(** The class [[<>=!]]. *)
Definition is_opchar (c : ascii) : bool :=
  Ascii.eqb c ch_lt || Ascii.eqb c ch_gt || Ascii.eqb c ch_eq || Ascii.eqb c ch_bang.

Fixpoint str_eqb (a b : str) : bool :=
  match a, b with
  | [], [] => true
  | x :: a', y :: b' => Ascii.eqb x y && str_eqb a' b'
  | _, _ => false
  end.

(** [s.startswith(p)] *)
Fixpoint starts_with (p s : str) : bool :=
  match p, s with
  | [], _ => true
  | x :: p', y :: s' => Ascii.eqb x y && starts_with p' s'
  | _ :: _, [] => false
  end.

(** [p in s] for texts. *)
Fixpoint contains (p s : str) : bool :=
  starts_with p s ||
  match s with
  | [] => false
  | _ :: s' => contains p s'
  end.

Definition mem_str (x : str) (l : list str) : bool := existsb (str_eqb x) l.

(** [str.lower] on the code points below 256: 65-90, 192-214 and 216-222
    move up by 32. *)
Definition lower_char (c : ascii) : ascii :=
  if in_range 65 90 c || in_range 192 214 c || in_range 216 222 c
  then ascii_of_nat (code c + 32) else c.

Definition lower (s : str) : str := map lower_char s.

(** The longest prefix whose characters satisfy [p], and what follows. *)
Fixpoint span (p : ascii -> bool) (s : str) : str * str :=
  match s with
  | [] => ([], [])
  | c :: s' =>
      if p c then let '(a, b) := span p s' in (c :: a, b) else ([], s)
  end.

(** Decimal digits of a natural number, as [str(i)] prints them. *)
Fixpoint digits_rev (fuel n : nat) : str :=
  match fuel with
  | O => []
  | S f =>
      ascii_of_nat (48 + n mod 10) ::
      (if n <? 10 then [] else digits_rev f (n / 10))
  end.

Definition str_of_nat (n : nat) : str := rev (digits_rev (S n) n).

(** [str.replace(old, new)]: occurrences are taken left to right and do
    not overlap; [skip] counts the characters of an occurrence still to
    pass over.  With an empty [old], [new] is put around every character. *)
Fixpoint replace_from (old new : str) (skip : nat) (s : str) : str :=
  match s with
  | [] => []
  | c :: s' =>
      match skip with
      | S k => replace_from old new k s'
      | O =>
          if starts_with old s
          then new ++ replace_from old new (length old - 1) s'
          else c :: replace_from old new 0 s'
      end
  end.

Definition str_replace (old new s : str) : str :=
  match old with
  | [] => new ++ flat_map (fun c => c :: new) s
  | _ => replace_from old new 0 s
  end.

(** ** parse_condition_for_record_rule

    The inner function [replace_quoted_equals] of the source is never
    called and has no counterpart here. *)

(** [re.sub(r'(?<![<>=!])=(?!=)', '==', s)]: an [=] that no character of
    [[<>=!]] precedes and no [=] follows is doubled.  Both look-arounds
    read the subject string, so [prev] is the character before the
    current one in the input. *)
Definition next_is_eq (s : str) : bool :=
  match s with
  | c :: _ => Ascii.eqb c ch_eq
  | [] => false
  end.

Definition bare_eq (prev : option ascii) (c : ascii) (rest : str) : bool :=
  Ascii.eqb c ch_eq
  && negb (match prev with Some p => is_opchar p | None => false end)
  && negb (next_is_eq rest).

Fixpoint sub_equals (prev : option ascii) (s : str) : str :=
  match s with
  | [] => []
  | c :: rest =>
      if bare_eq prev c rest
      then ch_eq :: ch_eq :: sub_equals (Some c) rest
      else c :: sub_equals (Some c) rest
  end.

(** The text up to the next double quote, when there is one. *)
Fixpoint find_close (s : str) : option str :=
  match s with
  | [] => None
  | c :: s' =>
      if Ascii.eqb c dq then Some []
      else match find_close s' with
           | Some content => Some (c :: content)
           | None => None
           end
  end.

(** [f"__QUOTE_{i}__"] *)
Definition placeholder (i : nat) : str :=
  L "__QUOTE_" ++ str_of_nat i ++ L "__".

(** The second [re.sub] of the function, whose pattern is a double
    quote, any run of characters other than a double quote, and a double
    quote; each match is replaced by the next placeholder.  The second
    component is the dictionary [quoted_parts] the callback fills (its
    keys are distinct, so the dictionary in insertion order is a list).
    [i] is the counter of [replace_quotes]. *)
Fixpoint quote_scan (skip i : nat) (s : str) : str * list (str * str) :=
  match s with
  | [] => ([], [])
  | c :: rest =>
      match skip with
      | S k => quote_scan k i rest
      | O =>
          if Ascii.eqb c dq then
            match find_close rest with
            | Some content =>
                let '(out, parts) := quote_scan (S (length content)) (S i) rest in
                (placeholder i ++ out,
                 (placeholder i, dq :: content ++ [dq]) :: parts)
            | None =>
                let '(out, parts) := quote_scan 0 i rest in (c :: out, parts)
            end
          else
            let '(out, parts) := quote_scan 0 i rest in (c :: out, parts)
      end
  end.

(** [for placeholder, original in quoted_parts.items(): parsed =
    parsed.replace(placeholder, original)] *)
Definition restore_quotes (parts : list (str * str)) (parsed : str) : str :=
  fold_left (fun acc p => str_replace (fst p) (snd p) acc) parts parsed.

Definition parse_condition_for_record_rule (rule_condition : str) : str :=
  let parsed := sub_equals None rule_condition in
  let '(parsed, quoted_parts) := quote_scan 0 0 parsed in
  restore_quotes quoted_parts parsed.

(** ** The extractors

    [re.finditer]: the subject is scanned from the left; where the
    pattern matches, the match is reported and the scan resumes after it;
    elsewhere the scan moves on by one character.  [m s] is the match of
    the pattern at the start of [s], with its length.  None of the four
    patterns below matches the empty string. *)
Fixpoint finditer {A : Type} (m : str -> option (A * nat)) (skip : nat) (s : str)
  : list A :=
  match s with
  | [] => []
  | _ :: s' =>
      match skip with
      | S k => finditer m k s'
      | O =>
          match m s with
          | Some (a, len) => a :: finditer m (len - 1) s'
          | None => finditer m 0 s'
          end
      end
  end.

(** In each pattern the classes that follow one another are disjoint
    ([\w] against [\s], [=], [-] and [[<>=!]]; [[<>=!]] against [\s] and
    [\d]), so a greedy repetition that gives back characters can never
    make the rest of the pattern match: the match at a position, when
    there is one, is the one in which every repetition is the longest. *)

(** [(\w+)\s*=\s*\1] at the start of [s]: group 1 and the length. *)
Definition match_self (s : str) : option (str * nat) :=
  let '(w, r1) := span is_word s in
  match w with
  | [] => None
  | _ =>
      let '(sp1, r2) := span is_space r1 in
      match r2 with
      | c :: r3 =>
          if Ascii.eqb c ch_eq then
            let '(sp2, r4) := span is_space r3 in
            if starts_with w r4
            then Some (w, length w + length sp1 + 1 + length sp2 + length w)
            else None
          else None
      | [] => None
      end
  end.

Definition extract_self_comparisons (rule_condition : str) : list str :=
  finditer match_self 0 rule_condition.

(** [\d+(?:\.\d+)?] at the start of [s]: the matched text. *)
Definition match_number (s : str) : option str :=
  let '(d1, r1) := span is_digit s in
  match d1 with
  | [] => None
  | _ =>
      match r1 with
      | c :: r2 =>
          if Ascii.eqb c ch_dot then
            let '(d2, _) := span is_digit r2 in
            match d2 with
            | [] => Some d1
            | _ => Some (d1 ++ ch_dot :: d2)
            end
          else Some d1
      | [] => Some d1
      end
  end.

(** [\s*([<>=!]+)\s*] at the start of [s]: the operator, the length, and
    what follows. *)
Definition match_op (s : str) : option (str * nat * str) :=
  let '(sp1, r1) := span is_space s in
  let '(op, r2) := span is_opchar r1 in
  match op with
  | [] => None
  | _ =>
      let '(sp2, r3) := span is_space r2 in
      Some (op, length sp1 + length op + length sp2, r3)
  end.

(** [\s*([<>=!]+)\s*(\d+(?:\.\d+)?)] at the start of [s]. *)
Definition match_op_number (s : str) : option (str * str * nat) :=
  match match_op s with
  | Some (op, n, r) =>
      match match_number r with
      | Some num => Some (op, num, n + length num)
      | None => None
      end
  | None => None
  end.

(** The value of a run of decimal digits. *)
Definition digit_val (c : ascii) : Z := Z.of_nat (code c - 48).

Definition int_of_digits (ds : str) : Z :=
  fold_left (fun acc c => (10 * acc + digit_val c)%Z) ds 0%Z.

(** [float(text)] for a text matched by [\d+(?:\.\d+)?]: the integer
    read from the digits, over the power of ten of the fraction's
    length.  Rounding to a binary float is not modelled. *)
Definition float_of_decimal (text : str) : Q :=
  let '(d1, r) := span is_digit text in
  match r with
  | _ :: d2 =>
      Qmake (int_of_digits (d1 ++ d2)) (Pos.pow 10 (Pos.of_nat (length d2)))
  | [] => Qmake (int_of_digits d1) 1
  end.

(** The right-hand side of a value comparison: a float or a text. *)
Inductive literal : Type :=
  | LNum (q : Q)
  | LStr (s : str).

(** [(\w+)\s*([<>=!]+)\s*(\d+(?:\.\d+)?)] *)
Definition match_numeric_comparison (s : str) : option ((str * str * literal) * nat) :=
  let '(w, r1) := span is_word s in
  match w with
  | [] => None
  | _ =>
      match match_op_number r1 with
      | Some (op, num, n) =>
          Some ((w, op, LNum (float_of_decimal num)), length w + n)
      | None => None
      end
  end.

(** The pattern for text comparisons: [(\w+)\s*([<>=!]+)\s*], a double
    quote, group 3 made of characters other than a double quote, and a
    double quote. *)
Definition match_string_comparison (s : str) : option ((str * str * literal) * nat) :=
  let '(w, r1) := span is_word s in
  match w with
  | [] => None
  | _ =>
      match match_op r1 with
      | Some (op, n, c :: r2) =>
          if Ascii.eqb c dq then
            match find_close r2 with
            | Some content =>
                Some ((w, op, LStr content), length w + n + 1 + length content + 1)
            | None => None
            end
          else None
      | _ => None
      end
  end.

Definition extract_value_comparisons (rule_condition : str)
  : list (str * str * literal) :=
  let numeric_comparisons := finditer match_numeric_comparison 0 rule_condition in
  let string_comparisons := finditer match_string_comparison 0 rule_condition in
  numeric_comparisons ++ string_comparisons.

(** [(\w+)\s*-\s*(\w+)\s*([<>=!]+)\s*(\d+(?:\.\d+)?)] *)
Definition match_field_difference (s : str) : option ((str * str * str * Q) * nat) :=
  let '(w1, r1) := span is_word s in
  match w1 with
  | [] => None
  | _ =>
      let '(sp1, r2) := span is_space r1 in
      match r2 with
      | c :: r3 =>
          if Ascii.eqb c ch_minus then
            let '(sp2, r4) := span is_space r3 in
            let '(w2, r5) := span is_word r4 in
            match w2 with
            | [] => None
            | _ =>
                match match_op_number r5 with
                | Some (op, num, n) =>
                    Some ((w1, w2, op, float_of_decimal num),
                          length w1 + length sp1 + 1 + length sp2 + length w2 + n)
                | None => None
                end
            end
          else None
      | [] => None
      end
  end.

Definition extract_field_differences (rule_condition : str)
  : list (str * str * str * Q) :=
  finditer match_field_difference 0 rule_condition.

(** ** Cells, floats and frames *)

(** A cell of a frame.  [VDate] is a timestamp in nanoseconds since the
    epoch; [VNaN] and [VNaT] are the missing markers of numeric or text
    columns and of datetime columns. *)
Inductive value : Type :=
  | VNum (q : Q)
  | VStr (s : str)
  | VDate (ns : Z)
  | VNaN
  | VNaT.

(** What [pd.to_datetime] returns for a scalar. *)
Inductive datetime : Type :=
  | Timestamp (ns : Z)
  | NaT.

(** A Python float: a rational, an infinity, or NaN. *)
Inductive xfloat : Type :=
  | Fin (q : Q)
  | PInf
  | NInf
  | NaNf.

Record Row : Type := mkRow { label : Z; cells : list value }.

Record DataFrame : Type := mkFrame { columns : list str; rows : list Row }.

(** [pd.DataFrame()] *)
Definition empty_frame : DataFrame := mkFrame [] [].

(** [df.empty]: one of the two axes has length zero. *)
Definition is_empty (df : DataFrame) : bool :=
  match rows df, columns df with
  | [], _ => true
  | _, [] => true
  | _, _ => false
  end.

(** The library calls the module leaves to pandas and Python. *)
Class Runtime : Type := {
  (** [hash(tuple(row))].  It is a function of the cells for a row
      without missing cells only: Python hashes a NaN by the identity
      of the object.  The statements that need the hash of a row to
      be determined by its cells are stated for such rows. *)
  tuple_hash : list value -> Z;
  (** [DataFrame.eval] of a query text: the boolean mask over the rows,
      or an exception *)
  frame_eval : DataFrame -> str -> option (list bool);
  (** [pd.to_datetime] of a text, or an exception *)
  str_to_datetime : str -> option datetime;
  (** [pd.to_datetime] of a number, or an exception *)
  num_to_datetime : Q -> option datetime;
  (** [float] of a text, or an exception *)
  str_to_float : str -> option xfloat
}.

Fixpoint index_of (name : str) (cols : list str) : option nat :=
  match cols with
  | [] => None
  | c :: cols' =>
      if str_eqb name c then Some O
      else match index_of name cols' with
           | Some i => Some (S i)
           | None => None
           end
  end.

(** [row[name]].  Every lookup of the module is guarded by a membership
    test on the columns; a cell a row does not have reads as NaN, which
    is how pandas pads short records. *)
Definition cell (df_columns : list str) (r : Row) (name : str) : value :=
  match index_of name df_columns with
  | Some i => nth i (cells r) VNaN
  | None => VNaN
  end.

(** [tuple(row)]: one cell per column. *)
Definition fit (n : nat) (cs : list value) : list value :=
  map (fun i => nth i cs VNaN) (seq 0 n).

Definition row_tuple (df : DataFrame) (r : Row) : list value :=
  fit (length (columns df)) (cells r).

(** ** Comparisons *)

Inductive cmp_op : Type := OpEq | OpNe | OpGt | OpGe | OpLt | OpLe.

(** The outcome of an operator on two ordered operands. *)
Definition cmp_holds (o : cmp_op) (c : comparison) : bool :=
  match o, c with
  | OpEq, Eq => true
  | OpNe, Lt | OpNe, Gt => true
  | OpGt, Gt => true
  | OpGe, Eq | OpGe, Gt => true
  | OpLt, Lt => true
  | OpLe, Lt | OpLe, Eq => true
  | _, _ => false
  end.

(** On a missing operand every comparison is false, except [!=]. *)
Definition cmp_unordered (o : cmp_op) : bool :=
  match o with
  | OpNe => true
  | _ => false
  end.

(** Operands of different kinds: equal never, different always, and the
    order comparisons raise [TypeError]. *)
Definition cmp_mismatch (o : cmp_op) : option bool :=
  match o with
  | OpEq => Some false
  | OpNe => Some true
  | _ => None
  end.

(** Texts are ordered by code points. *)
Fixpoint str_compare (a b : str) : comparison :=
  match a, b with
  | [], [] => Eq
  | [], _ :: _ => Lt
  | _ :: _, [] => Gt
  | x :: a', y :: b' =>
      match Nat.compare (code x) (code y) with
      | Eq => str_compare a' b'
      | c => c
      end
  end.

(** A float against a finite threshold. *)
Definition x_cmp (o : cmp_op) (x : xfloat) (threshold : Q) : bool :=
  match x with
  | Fin a => cmp_holds o (a ?= threshold)%Q
  | PInf => cmp_holds o Gt
  | NInf => cmp_holds o Lt
  | NaNf => cmp_unordered o
  end.

Definition x_sub (a b : xfloat) : xfloat :=
  match a, b with
  | NaNf, _ | _, NaNf => NaNf
  | Fin p, Fin q => Fin (p - q)%Q
  | Fin _, PInf => NInf
  | Fin _, NInf => PInf
  | PInf, PInf => NaNf
  | PInf, _ => PInf
  | NInf, NInf => NaNf
  | NInf, _ => NInf
  end.

Definition x_abs (a : xfloat) : xfloat :=
  match a with
  | Fin q => Fin (Qabs q)
  | PInf | NInf => PInf
  | NaNf => NaNf
  end.

(** Sameness of cells for [duplicated], [drop_duplicates] and [groupby]:
    missing markers are the same as themselves. *)
Definition value_same (a b : value) : bool :=
  match a, b with
  | VNum p, VNum q => Qeq_bool p q
  | VStr s, VStr t => str_eqb s t
  | VDate m, VDate n => Z.eqb m n
  | VNaN, VNaN => true
  | VNaT, VNaT => true
  | _, _ => false
  end.

Fixpoint values_same (a b : list value) : bool :=
  match a, b with
  | [], [] => true
  | x :: a', y :: b' => value_same x y && values_same a' b'
  | _, _ => false
  end.

Definition is_missing (v : value) : bool :=
  match v with
  | VNaN | VNaT => true
  | _ => false
  end.

(** The order in which [groupby] lists its keys: numbers, then
    timestamps, then texts, each kind in its own order. *)
Definition kind_rank (v : value) : nat :=
  match v with
  | VNum _ => 0
  | VDate _ => 1
  | VStr _ => 2
  | VNaN => 3
  | VNaT => 4
  end.

Definition value_compare (a b : value) : comparison :=
  match a, b with
  | VNum p, VNum q => (p ?= q)%Q
  | VStr s, VStr t => str_compare s t
  | VDate m, VDate n => (m ?= n)%Z
  | _, _ => Nat.compare (kind_rank a) (kind_rank b)
  end.

Fixpoint key_compare (a b : list value) : comparison :=
  match a, b with
  | [], [] => Eq
  | [], _ :: _ => Lt
  | _ :: _, [] => Gt
  | x :: a', y :: b' =>
      match value_compare x y with
      | Eq => key_compare a' b'
      | c => c
      end
  end.

Definition key_leb (a b : list value) : bool :=
  match key_compare a b with
  | Gt => false
  | _ => true
  end.

Fixpoint insert_sorted {A : Type} (leb : A -> A -> bool) (x : A) (l : list A) : list A :=
  match l with
  | [] => [x]
  | y :: l' => if leb x y then x :: l else y :: insert_sorted leb x l'
  end.

(** A stable sort. *)
Definition sort_by {A : Type} (leb : A -> A -> bool) (l : list A) : list A :=
  fold_right (insert_sorted leb) [] l.

(** The elements of [l], each kept at its first occurrence. *)
Definition dedup {A : Type} (same : A -> A -> bool) (l : list A) : list A :=
  fold_left (fun acc x => if existsb (same x) acc then acc else acc ++ [x]) l [].

(** ** The evaluators and the orchestrator *)

Definition col_rule_id : str := L "rule_id".
Definition col_rule_desc : str := L "rule_desc".
Definition col_merge_key : str := L "__merge_key__".

(** A row of the rules table. *)
Record Rule : Type := mkRule {
  Rule_ID : Z;
  Rule_Desc : str;
  Level : str;
  Rule_Allegation : str
}.

(** The operators the two [if]/[elif] chains of the module know. *)
Definition op_of_text (op : str) : option cmp_op :=
  if str_eqb op (L "==") then Some OpEq
  else if str_eqb op (L "!=") then Some OpNe
  else if str_eqb op (L ">") then Some OpGt
  else if str_eqb op (L ">=") then Some OpGe
  else if str_eqb op (L "<") then Some OpLt
  else if str_eqb op (L "<=") then Some OpLe
  else None.

(** [df[mask]] where the mask is computed cell by cell; the computation
    of the mask raises as soon as one cell does. *)
Fixpoint mask_rows (p : Row -> option bool) (rs : list Row) : option (list Row) :=
  match rs with
  | [] => Some []
  | r :: rs' =>
      match p r, mask_rows p rs' with
      | Some b, Some out => Some (if b then r :: out else out)
      | _, _ => None
      end
  end.

(** [df[mask]] for a mask that is given. *)
Fixpoint select_mask (mask : list bool) (rs : list Row) : list Row :=
  match mask, rs with
  | b :: mask', r :: rs' => if b then r :: select_mask mask' rs' else select_mask mask' rs'
  | _, _ => []
  end.

(** [df[name] = v] for a scalar [v], on one row: the cell is
    overwritten where the column exists and appended where it does not. *)
Definition set_cell (df_columns : list str) (name : str) (v : value) (r : Row) : Row :=
  let n := length df_columns in
  if mem_str name df_columns then
    mkRow (label r)
      (map (fun cv => if str_eqb (fst cv) name then v else snd cv)
           (combine df_columns (fit n (cells r))))
  else mkRow (label r) (fit n (cells r) ++ [v]).

Definition set_column (name : str) (v : value) (df : DataFrame) : DataFrame :=
  mkFrame (if mem_str name (columns df) then columns df else columns df ++ [name])
          (map (set_cell (columns df) name v) (rows df)).

(** [df.drop(columns=[name])] *)
Definition drop_column (name : str) (df : DataFrame) : DataFrame :=
  let n := length (columns df) in
  mkFrame (filter (fun c => negb (str_eqb c name)) (columns df))
    (map (fun r =>
            mkRow (label r)
              (map snd (filter (fun cv => negb (str_eqb (fst cv) name))
                               (combine (columns df) (fit n (cells r))))))
         (rows df)).

(** The two assignments that tag a result. *)
Definition tag (rule_id : Z) (rule_desc : str) (df : DataFrame) : DataFrame :=
  set_column col_rule_desc (VStr rule_desc)
    (set_column col_rule_id (VNum (inject_Z rule_id)) df).

(** What the two assignments make of one row of a frame with the
    columns [df_columns]. *)
Definition tag_row (df_columns : list str) (rule_id : Z) (rule_desc : str) (r : Row) : Row :=
  set_cell (columns (set_column col_rule_id (VNum (inject_Z rule_id)) (mkFrame df_columns [])))
           col_rule_desc (VStr rule_desc)
           (set_cell df_columns col_rule_id (VNum (inject_Z rule_id)) r).

(** The positions of the columns called [name]. *)
Definition positions_of (name : str) (cols : list str) : list nat :=
  filter (fun i => str_eqb (nth i cols []) name) (seq 0 (length cols)).

(** [tuple(row)] for a row of [df[names]]. *)
Definition select_tuple (df : DataFrame) (names : list str) (r : Row) : list value :=
  map (fun i => nth i (cells r) VNaN)
      (flat_map (fun name => positions_of name (columns df)) names).

(** ['date' in f.lower() or 'from' in f.lower() or 'to' in f.lower()] *)
Definition is_date_field (f : str) : bool :=
  contains (L "date") (lower f) || contains (L "from") (lower f)
  || contains (L "to") (lower f).

Definition ns_per_day : Z := 86400000000000.

(** The largest timedelta, in nanoseconds: 2^63 - 1. *)
Definition timedelta_max : Z := 9223372036854775807.

(** [abs((date1 - date2).days)]: the days of a timedelta are rounded
    down; those of NaT are NaN.  The subtraction raises ([None]) when
    the difference of the two timestamps is out of the range of a
    timedelta. *)
Definition abs_days (date1 date2 : datetime) : option xfloat :=
  match date1, date2 with
  | Timestamp t1, Timestamp t2 =>
      if (Z.abs (t1 - t2) <=? timedelta_max)%Z
      then Some (Fin (inject_Z (Z.abs ((t1 - t2) / ns_per_day))))
      else None
  | _, _ => Some NaNf
  end.

(** The [if]/[elif] chain of the pairwise check: the constraint of
    operator [op] is broken by the distance [diff]. *)
Definition constraint_broken (op : str) (diff : xfloat) (threshold : Q) : bool :=
  (str_eqb op (L "<") && negb (x_cmp OpLt diff threshold))
  || (str_eqb op (L "<=") && negb (x_cmp OpLe diff threshold))
  || (str_eqb op (L ">") && negb (x_cmp OpGt diff threshold))
  || (str_eqb op (L ">=") && negb (x_cmp OpGe diff threshold))
  || (str_eqb op (L "==") && negb (x_cmp OpEq diff threshold))
  || (str_eqb op (L "!=") && negb (x_cmp OpNe diff threshold)).

Section Engine.

Context {RT : Runtime}.

(** [pd.to_datetime(v)] for a cell, or an exception. *)
Definition to_datetime (v : value) : option datetime :=
  match v with
  | VDate t => Some (Timestamp t)
  | VNaT | VNaN => Some NaT
  | VStr s => str_to_datetime s
  | VNum q => num_to_datetime q
  end.

(** [float(v)] for a cell, or an exception. *)
Definition py_float (v : value) : option xfloat :=
  match v with
  | VNum q => Some (Fin q)
  | VNaN => Some NaNf
  | VStr s => str_to_float s
  | VDate _ | VNaT => None
  end.

(** [column op value] on one cell, or an exception.  A text on the right
    of a timestamp is read as a timestamp. *)
Definition compare_cell (o : cmp_op) (v : value) (lit : literal) : option bool :=
  match v, lit with
  | VNaN, _ => Some (cmp_unordered o)
  | VNum a, LNum b => Some (cmp_holds o (a ?= b)%Q)
  | VStr a, LStr b => Some (cmp_holds o (str_compare a b))
  | VDate t, LStr b =>
      match str_to_datetime b with
      | Some (Timestamp t') => Some (cmp_holds o (t ?= t')%Z)
      | Some NaT => Some (cmp_unordered o)
      | None => cmp_mismatch o
      end
  | VNaT, LStr b =>
      match str_to_datetime b with
      | Some _ => Some (cmp_unordered o)
      | None => cmp_mismatch o
      end
  | _, _ => cmp_mismatch o
  end.

(** [df.query(query_str)], or an exception. *)
Definition query (df : DataFrame) (query_str : str) : option DataFrame :=
  match frame_eval df query_str with
  | Some mask =>
      if length mask =? length (rows df)
      then Some (mkFrame (columns df) (select_mask mask (rows df)))
      else None
  | None => None
  end.

Definition apply_record_level_rule
    (claims_df : DataFrame) (rule_id : Z) (rule_desc rule_condition : str)
  : DataFrame :=
  let query_str := parse_condition_for_record_rule rule_condition in
  match query claims_df query_str with
  | Some result_df =>
      if negb (is_empty result_df)
      then tag rule_id rule_desc result_df
      else empty_frame
  | None => empty_frame
  end.

(** One turn of the loop over [value_comparisons]. *)
Definition value_filter (filtered_df : DataFrame) (vc : str * str * literal)
  : option DataFrame :=
  let '(field, op, value) := vc in
  if mem_str field (columns filtered_df) then
    match op_of_text op with
    | Some o =>
        match mask_rows
                (fun r => compare_cell o (cell (columns filtered_df) r field) value)
                (rows filtered_df) with
        | Some rs => Some (mkFrame (columns filtered_df) rs)
        | None => None
        end
    | None => Some filtered_df
    end
  else Some filtered_df.

Fixpoint prefilter (vcs : list (str * str * literal)) (filtered_df : DataFrame)
  : option DataFrame :=
  match vcs with
  | [] => Some filtered_df
  | vc :: vcs' =>
      match value_filter filtered_df vc with
      | Some df' => prefilter vcs' df'
      | None => None
      end
  end.

Definition key_of (df_columns : list str) (fields : list str) (r : Row) : list value :=
  map (cell df_columns r) fields.

(** [df.duplicated(subset=fields, keep=False)] for one row. *)
Definition duplicate_mask (df : DataFrame) (fields : list str) (r : Row) : bool :=
  2 <=? length (filter (fun r' => values_same (key_of (columns df) fields r')
                                              (key_of (columns df) fields r))
                       (rows df)).

(** [df.groupby(fields)]: the groups in the order of their keys, each
    with its rows in the order of the frame; rows with a missing key
    belong to no group. *)
Definition groupby (df : DataFrame) (fields : list str) : list (list Row) :=
  let keys := filter (fun k => negb (existsb is_missing k))
                     (map (key_of (columns df) fields) (rows df)) in
  map (fun k => filter (fun r => values_same (key_of (columns df) fields r) k) (rows df))
      (sort_by key_leb (dedup values_same keys)).

(** The distance of one field-difference constraint on a pair of rows;
    an exception in either branch gives infinity. *)
Definition field_distance (df_columns : list str) (field1 field2 : str) (row1 row2 : Row)
  : xfloat :=
  if is_date_field field1 then
    match to_datetime (cell df_columns row1 field1),
          to_datetime (cell df_columns row2 field2) with
    | Some date1, Some date2 =>
        match abs_days date1 date2 with
        | Some diff => diff
        | None => PInf
        end
    | _, _ => PInf
    end
  else
    match py_float (cell df_columns row1 field1),
          py_float (cell df_columns row2 field2) with
    | Some a, Some b => x_abs (x_sub a b)
    | _, _ => PInf
    end.

(** The loop over [field_differences] for one pair: [differences_met]. *)
Fixpoint differences_met (df_columns : list str) (fds : list (str * str * str * Q))
    (row1 row2 : Row) : bool :=
  match fds with
  | [] => true
  | (field1, field2, op, threshold) :: fds' =>
      if mem_str field1 df_columns && mem_str field2 df_columns then
        if constraint_broken op (field_distance df_columns field1 field2 row1 row2) threshold
        then false
        else differences_met df_columns fds' row1 row2
      else differences_met df_columns fds' row1 row2
  end.

(** The two nested loops over the rows of one group. *)
Definition pairs_of_group (df_columns : list str) (fds : list (str * str * str * Q))
    (group : list Row) : list Row :=
  flat_map (fun row1 =>
    flat_map (fun row2 =>
      if (label row2 <=? label row1)%Z then []
      else if differences_met df_columns fds row1 row2 then [row1; row2]
      else [])
    group)
  group.

(** [pd.DataFrame(results).drop_duplicates()] *)
Definition drop_duplicates (n : nat) (rs : list Row) : list Row :=
  dedup (fun a b => values_same (fit n (cells a)) (fit n (cells b))) rs.

(** The body of the [try] of [apply_dataset_level_rule]; [None] is an
    exception. *)
Definition dataset_rule_body
    (claims_df : DataFrame) (rule_id : Z) (rule_desc rule_condition : str)
  : option DataFrame :=
  let self_comparisons := extract_self_comparisons rule_condition in
  let value_comparisons := extract_value_comparisons rule_condition in
  let field_differences := extract_field_differences rule_condition in
  match prefilter value_comparisons claims_df with
  | None => None
  | Some filtered_df =>
      if is_empty filtered_df then Some empty_frame
      else
        match self_comparisons with
        | _ :: _ =>
            if forallb (fun field => mem_str field (columns filtered_df)) self_comparisons
            then
              let potential_matches :=
                mkFrame (columns filtered_df)
                  (filter (duplicate_mask filtered_df self_comparisons) (rows filtered_df)) in
              if is_empty potential_matches then Some empty_frame
              else
                match field_differences with
                | _ :: _ =>
                    let results :=
                      flat_map (pairs_of_group (columns potential_matches) field_differences)
                               (groupby potential_matches self_comparisons) in
                    match results with
                    | _ :: _ =>
                        Some (tag rule_id rule_desc
                                (mkFrame (columns potential_matches)
                                   (drop_duplicates (length (columns potential_matches)) results)))
                    | [] => Some empty_frame
                    end
                | [] => Some (tag rule_id rule_desc potential_matches)
                end
            else Some empty_frame
        | [] => Some empty_frame
        end
  end.

Definition apply_dataset_level_rule
    (claims_df : DataFrame) (rule_id : Z) (rule_desc rule_condition : str)
  : DataFrame :=
  match dataset_rule_body claims_df rule_id rule_desc rule_condition with
  | Some result => result
  | None => empty_frame
  end.

(** The dispatch on [Level]; [None] for a level that is not known. *)
Definition dispatch (rule : Rule) (remaining_claims : DataFrame) : option DataFrame :=
  if str_eqb (Level rule) (L "Record") then
    Some (apply_record_level_rule remaining_claims
            (Rule_ID rule) (Rule_Desc rule) (Rule_Allegation rule))
  else if str_eqb (Level rule) (L "DataSet") then
    Some (apply_dataset_level_rule remaining_claims
            (Rule_ID rule) (Rule_Desc rule) (Rule_Allegation rule))
  else None.

(** The columns of a result other than the two tags. *)
Definition key_columns (result : DataFrame) : list str :=
  filter (fun col => negb (mem_str col [col_rule_id; col_rule_desc])) (columns result).

(** [tuple(row)] for each row of [result[key_columns]]: the claims a
    result holds, without their tags. *)
Definition claim_tuples (result : DataFrame) : list (list value) :=
  map (select_tuple result (key_columns result)) (rows result).

(** [tuple(row)] for each row of the pool. *)
Definition pool_tuples (df : DataFrame) : list (list value) :=
  map (row_tuple df) (rows df).

(** The merge keys of the rows of a result. *)
Definition identified_keys (result : DataFrame) : list Z :=
  map tuple_hash (claim_tuples result).

(** The claims that stay in the pool after a rule has matched: the rows
    whose merge key is not among the identified ones.  The merge key is
    written to the column [__merge_key__] of the pool, which is dropped
    at the end, with whatever column of that name the pool had. *)
Definition remove_identified (remaining_claims result : DataFrame) : DataFrame :=
  let identified := identified_keys result in
  drop_column col_merge_key
    (mkFrame (columns remaining_claims)
       (filter (fun r =>
                  negb (existsb (Z.eqb (tuple_hash (row_tuple remaining_claims r)))
                                identified))
               (rows remaining_claims))).

(** The loop of [apply_rules] over the sorted rules: the list
    [all_results]. *)
Fixpoint process_rules (rules : list Rule) (remaining_claims : DataFrame)
  : list DataFrame :=
  match rules with
  | [] => []
  | rule :: rules' =>
      if is_empty remaining_claims then []
      else
        match dispatch rule remaining_claims with
        | None => process_rules rules' remaining_claims
        | Some result =>
            if negb (is_empty result)
            then result :: process_rules rules' (remove_identified remaining_claims result)
            else process_rules rules' remaining_claims
        end
  end.

(** [rules_df.sort_values(by='Rule_ID')].  pandas does not promise the
    order of rules with the same id; the model keeps their order, and
    the statements that depend on the sorted table are stated for
    pairwise distinct ids, for which every sort gives the same table. *)
Definition sort_rules (rules : list Rule) : list Rule :=
  sort_by (fun a b => (Rule_ID a <=? Rule_ID b)%Z) rules.

(** [pd.concat(frames, ignore_index=True)]: the columns in the order in
    which they first appear, the rows of all frames with fresh labels. *)
Definition concat (frames : list DataFrame) : DataFrame :=
  let cols := dedup str_eqb (flat_map columns frames) in
  let all_rows :=
    flat_map (fun df => map (fun r => map (cell (columns df) r) cols) (rows df)) frames in
  mkFrame cols
    (map (fun ic => mkRow (Z.of_nat (fst ic)) (snd ic))
         (combine (seq 0 (length all_rows)) all_rows)).

Definition all_results (rules_df : list Rule) (claims_df : DataFrame) : list DataFrame :=
  process_rules (sort_rules rules_df) claims_df.

Definition apply_rules (rules_df : list Rule) (claims_df : DataFrame) : DataFrame :=
  let results := all_results rules_df claims_df in
  match results with
  | _ :: _ => concat results
  | [] => mkFrame (columns claims_df ++ [col_rule_id; col_rule_desc]) []
  end.

End Engine.

(** ** Concrete runtimes and tables used in examples *)

(** A runtime whose library calls all raise, with a constant hash. *)
Definition bare_runtime : Runtime := {|
  tuple_hash := fun _ => 0%Z;
  frame_eval := fun _ _ => None;
  str_to_datetime := fun _ => None;
  num_to_datetime := fun _ => None;
  str_to_float := fun _ => None
|}.

Definition value_code (v : value) : Z :=
  match v with
  | VNum q => (Qnum (Qred q) * 7 + Z.pos (Qden (Qred q)))%Z
  | VStr s => fold_left (fun h c => (h * 257 + Z.of_nat (code c))%Z) s 1%Z
  | VDate t => (t * 5 + 3)%Z
  | VNaN => (-1)%Z
  | VNaT => (-2)%Z
  end.

(** A positional hash of a tuple of cells. *)
Definition poly_hash (t : list value) : Z :=
  fold_left (fun h v => (h * 1000003 + value_code v)%Z) t (Z.of_nat (length t)).

(** An expression engine for queries that are one comparison of a
    column with a number: an unknown column or operator and any other
    text raise, and so does a cell the comparison cannot order. *)
Definition single_comparison_eval (df : DataFrame) (query_str : str) : option (list bool) :=
  match match_numeric_comparison query_str with
  | Some ((field, op, lit), n) =>
      if (n =? length query_str) && mem_str field (columns df) then
        match op_of_text op with
        | Some o =>
            (fix mask (rs : list Row) : option (list bool) :=
               match rs with
               | [] => Some []
               | r :: rs' =>
                   match @compare_cell bare_runtime o (cell (columns df) r field) lit,
                         mask rs' with
                   | Some b, Some m => Some (b :: m)
                   | _, _ => None
                   end
               end) (rows df)
        | None => None
        end
      else None
  | None => None
  end.

Definition demo_runtime : Runtime := {|
  tuple_hash := poly_hash;
  frame_eval := single_comparison_eval;
  str_to_datetime := fun _ => None;
  num_to_datetime := fun q => Some (Timestamp (Qfloor q));
  str_to_float := fun s =>
    match match_number s with
    | Some num => if length num =? length s then Some (Fin (float_of_decimal s)) else None
    | None => None
    end
|}.

Definition day (n : Z) : Z := (n * ns_per_day)%Z.

(** Scenario 1 of the specification: one Record rule and two claims. *)
Definition scenario1_rules : list Rule :=
  [mkRule 1 (L "high amount") (L "Record") (L "paid_amount > 1000")].

Definition scenario1_claims : DataFrame :=
  mkFrame [L "id"; L "paid_amount"]
    [mkRow 0 [VNum 1; VNum 1500];
     mkRow 1 [VNum 2; VNum 500]].

(** Scenario 2 of the specification: one DataSet rule and three claims
    of one member, served on days 1, 2 and 12. *)
Definition scenario2_condition : str :=
  L "member_id = member_id AND claim_service_from - claim_service_from < 3".

Definition scenario2_rules : list Rule :=
  [mkRule 1 (L "close repeats") (L "DataSet") scenario2_condition].

Definition scenario2_columns : list str :=
  [L "claim_id"; L "member_id"; L "claim_service_from"].

Definition scenario2_claims : DataFrame :=
  mkFrame scenario2_columns
    [mkRow 0 [VNum 1; VStr (L "M1"); VDate (day 1)];
     mkRow 1 [VNum 2; VStr (L "M1"); VDate (day 2)];
     mkRow 2 [VNum 3; VStr (L "M1"); VDate (day 12)]].

(** The same claims with the dates as numbers of days. *)
Definition scenario2_numeric_claims : DataFrame :=
  mkFrame scenario2_columns
    [mkRow 0 [VNum 1; VStr (L "M1"); VNum 1];
     mkRow 1 [VNum 2; VStr (L "M1"); VNum 2];
     mkRow 2 [VNum 3; VStr (L "M1"); VNum 12]].

(** Column names that are pairwise distinct and are none of the names
    the engine writes itself. *)
Fixpoint distinct_names (l : list str) : bool :=
  match l with
  | [] => true
  | x :: l' => negb (mem_str x l') && distinct_names l'
  end.

Definition plain_columns (cols : list str) : bool :=
  distinct_names cols
  && negb (mem_str col_rule_id cols)
  && negb (mem_str col_rule_desc cols)
  && negb (mem_str col_merge_key cols).

(** Two claims of one member in a table that already has a column
    called [rule_id], and two DataSet rules that look for repeated
    members. *)
Definition tagged_claims : DataFrame :=
  mkFrame [L "member_id"; L "rule_id"]
    [mkRow 0 [VNum 7; VNum 100];
     mkRow 1 [VNum 7; VNum 200]].

Definition repeat_rules : list Rule :=
  [mkRule 1 (L "repeated member") (L "DataSet") (L "member_id = member_id");
   mkRule 2 (L "repeated member again") (L "DataSet") (L "member_id = member_id")].

(** The same two claims without the column [rule_id]. *)
Definition plain_claims : DataFrame :=
  mkFrame [L "member_id"; L "paid_amount"]
    [mkRow 0 [VNum 7; VNum 100];
     mkRow 1 [VNum 7; VNum 200]].

(** The reading of the specification for Record rules: the predicate
    is evaluated on each row on its own, and a row on which the
    evaluation fails does not match. *)
Definition matches_alone `{RT : Runtime} (df : DataFrame) (query_str : str) (r : Row) : bool :=
  match frame_eval (mkFrame (columns df) [r]) query_str with
  | Some [true] => true
  | _ => false
  end.

Definition record_rule_row_by_row `{RT : Runtime}
    (claims_df : DataFrame) (rule_id : Z) (rule_desc rule_condition : str)
  : DataFrame :=
  let query_str := parse_condition_for_record_rule rule_condition in
  let matched := mkFrame (columns claims_df)
                   (filter (matches_alone claims_df query_str) (rows claims_df)) in
  if negb (is_empty matched) then tag rule_id rule_desc matched else empty_frame.

(** Two claims, the second with a text where the amount should be. *)
Definition mixed_claims : DataFrame :=
  mkFrame [L "claim_id"; L "paid_amount"]
    [mkRow 0 [VNum 1; VNum 1500];
     mkRow 1 [VNum 2; VStr (L "n/a")]].

Definition amount_condition : str := L "paid_amount > 1000".

(** Texts used in the statements about the normaliser. *)
Definition quoted (s : str) : str := dq :: s ++ [dq].

Definition status_condition : str := L "status = " ++ quoted (L "A=B").

Definition literal_placeholder_condition : str :=
  L "__QUOTE_0__ " ++ quoted (L "x") ++ L " __QUOTE_1__".

(** ** Predicates of the statements and proofs *)

(** Every character of [s] is in the class [p]. *)
Definition all_in (p : ascii -> bool) (s : str) : Prop :=
  Forall (fun c => p c = true) s.

(** [s] is empty or starts with a character outside the class [p]. *)
Definition stops (p : ascii -> bool) (s : str) : Prop :=
  match s with
  | [] => True
  | c :: _ => p c = false
  end.

(** No minus sign, no double quote, no capital Q in a text. *)
Definition no_minus (s : str) : Prop := Forall (fun c => Ascii.eqb c ch_minus = false) s.

Definition no_quote (s : str) : Prop := Forall (fun c => Ascii.eqb c dq = false) s.

Definition q_free (s : str) : Prop := Forall (fun c => Ascii.eqb c ch_Q = false) s.

(** The look-behind of the first substitution fails after [prev]. *)
Definition blocked (prev : option ascii) : bool :=
  match prev with
  | Some p => is_opchar p
  | None => false
  end.

(** The number a numeral stands for, read from its last digit. *)
Definition value_rev (ds : str) : nat :=
  fold_right (fun c acc => (code c - 48) + 10 * acc) 0 ds.

(** A placeholder after its first three characters. *)
Definition placeholder_tail (i : nat) : str := L "UOTE_" ++ str_of_nat i ++ L "__".

(** The text by which a placeholder is recognised. *)
Definition quote_key : str := L "QUOTE_".

(** The text [QUOTE_] does not occur in [s]. *)
Definition k_free (s : str) : Prop := contains quote_key s = false.

(** [out] is [u] with its first quoted spans replaced by the
    placeholders [i], [i + 1], ... *)
Inductive holes : nat -> str -> str -> Prop :=
  | holes_none : forall i u, holes i u u
  | holes_hole : forall i t content u' out',
      holes (S i) u' out' ->
      holes i (t ++ dq :: content ++ dq :: u') (t ++ placeholder i ++ out').

(** What a rule returns for a pool: nothing, or some rows of the pool
    with the two tags. *)
Definition tagged_part_of (pool : DataFrame) (rule : Rule) (result : DataFrame) : Prop :=
  result = empty_frame
  \/ exists rs,
       (forall r, In r rs -> In r (rows pool))
       /\ result = tag (Rule_ID rule) (Rule_Desc rule) (mkFrame (columns pool) rs).

(** No claim of [earlier] is a claim of [later]. *)
Definition disjoint_claims (earlier later : DataFrame) : Prop :=
  forall t, In t (claim_tuples earlier) -> ~ In t (claim_tuples later).

(** ** Predicates of the further statements *)

(** An [=] of [s] that the first substitution would double, [prev]
    being the character before [s]. *)
Fixpoint has_bare_eq (prev : option ascii) (s : str) : bool :=
  match s with
  | [] => false
  | c :: rest => bare_eq prev c rest || has_bare_eq (Some c) rest
  end.

(** A text without its equals signs. *)
Definition without_eq (s : str) : str :=
  filter (fun c => negb (Ascii.eqb c ch_eq)) s.

(** A name as [\w+] reads it, an operator as [[<>=!]+] reads it, a
    numeral as [\d+] reads it, and blanks as [\s*] reads them. *)
Definition is_name (f : str) : Prop := all_in is_word f /\ f <> [].

Definition is_operator (op : str) : Prop := all_in is_opchar op /\ op <> [].

Definition is_numeral (d : str) : Prop := all_in is_digit d /\ d <> [].

Definition is_blank (ws : str) : Prop := all_in is_space ws.

(** A value comparison the prefilter loop acts on: its field is a
    column and its operator is one of the six of the chain. *)
Definition applicable (df_columns : list str) (vc : str * str * literal) : bool :=
  let '(field, op, _) := vc in
  mem_str field df_columns
  && match op_of_text op with Some _ => true | None => false end.

(** A row passes one turn of the prefilter loop. *)
Definition satisfies `{RT : Runtime} (df_columns : list str) (r : Row)
    (vc : str * str * literal) : bool :=
  let '(field, op, value) := vc in
  if mem_str field df_columns then
    match op_of_text op with
    | Some o =>
        match compare_cell o (cell df_columns r field) value with
        | Some true => true
        | _ => false
        end
    | None => true
    end
  else true.

(** The rows of [df] whose key on [fields] is the key of [r]. *)
Definition same_key_rows (df : DataFrame) (fields : list str) (r : Row) : list Row :=
  filter (fun r' => values_same (key_of (columns df) fields r')
                                (key_of (columns df) fields r))
         (rows df).

(** The distance in days of two timestamps as the pairwise check
    computes it for [row1] at [t1] and [row2] at [t2]: whole days,
    rounded down when [row1] is the later one and up when it is the
    earlier one. *)
Definition day_distance (t1 t2 : Z) : Z :=
  if (t2 <=? t1)%Z then ((t1 - t2) / ns_per_day)%Z
  else if ((t2 - t1) mod ns_per_day =? 0)%Z then ((t2 - t1) / ns_per_day)%Z
       else ((t2 - t1) / ns_per_day + 1)%Z.

(** Two rows have the same cells in the first [n] columns. *)
Definition same_claim (n : nat) (a b : Row) : bool :=
  values_same (fit n (cells a)) (fit n (cells b)).

(** The two values of [Level] that [apply_rules] dispatches on. *)
Definition known_level (rule : Rule) : bool :=
  str_eqb (Level rule) (L "Record") || str_eqb (Level rule) (L "DataSet").

(** The order of [sort_values(by='Rule_ID')]. *)
Definition id_le (a b : Rule) : Prop := (Rule_ID a <= Rule_ID b)%Z.

(** Every row of [out] carries the id and the description of [rule] in
    the columns [rule_id] and [rule_desc]. *)
Definition tagged_with (rule : Rule) (out : DataFrame) : Prop :=
  forall r, In r (rows out) ->
    cell (columns out) r col_rule_id = VNum (inject_Z (Rule_ID rule))
    /\ cell (columns out) r col_rule_desc = VStr (Rule_Desc rule).

(** A frame with the columns [cols] whose rows have one cell for each
    column. *)
Definition well_shaped (cols : list str) (out : DataFrame) : Prop :=
  columns out = cols /\ forall r, In r (rows out) -> length (cells r) = length cols.

(** No cell of the frame is missing. *)
Definition no_missing_cells (df : DataFrame) : bool :=
  forallb (fun r => negb (existsb is_missing (row_tuple df r))) (rows df).

(** A field difference the pairwise check acts on: both fields are
    columns and the operator is one of the six of the chain. *)
Definition constraining (df_columns : list str) (fd : str * str * str * Q) : bool :=
  let '(field1, field2, op, _) := fd in
  mem_str field1 df_columns && mem_str field2 df_columns
  && match op_of_text op with Some _ => true | None => false end.

(** ** The report (Modules/report_generator.py) *)

(** What [generate_report] leaves to pandas and streamlit. *)
Class ReportRuntime : Type := {
  (** [df.sort_values(by=names)], or an exception *)
  sort_values : list str -> DataFrame -> option DataFrame;
  (** the display of the report (the streamlit calls and what they
      read from the report): whether it completes *)
  display_report : DataFrame -> bool
}.

Definition optional_columns : list str :=
  [L "procedure_cd"; L "diag_cd"; L "paid_amount"; L "claim_service_from";
   L "claim_service_to"; L "member_gender"; L "member_age"; L "member_state"].

(** The list [report_columns] after the loop over [optional_columns]. *)
Definition report_columns (results_df : DataFrame) : list str :=
  [L "claim_id"; L "rule_id"; L "rule_desc"; L "member_id"; L "provider_npi"]
  ++ filter (fun col => mem_str col (columns results_df)) optional_columns.

(** [df[names]] for a list of names: [KeyError] when one of them is not
    a column; a name that several columns carry selects them all. *)
Definition select_columns (names : list str) (df : DataFrame) : option DataFrame :=
  if forallb (fun name => mem_str name (columns df)) names then
    Some (mkFrame
            (map (fun i => nth i (columns df) [])
                 (flat_map (fun name => positions_of name (columns df)) names))
            (map (fun r => mkRow (label r) (select_tuple df names r)) (rows df)))
  else None.

(** [df.drop_duplicates(subset=names)]: of the rows with the same cells
    in the columns [names], the first is kept. *)
Definition drop_duplicates_subset (names : list str) (df : DataFrame) : DataFrame :=
  mkFrame (columns df)
    (dedup (fun a b => values_same (select_tuple df names a) (select_tuple df names b))
           (rows df)).

Definition generate_report `{RR : ReportRuntime} (results_df : DataFrame)
  : option DataFrame :=
  if is_empty results_df then Some empty_frame
  else
    match select_columns (report_columns results_df) results_df with
    | None => None
    | Some report_df =>
        let report_df :=
          drop_duplicates_subset [L "claim_id"; L "rule_id"] report_df in
        match sort_values [L "rule_id"; L "claim_id"] report_df with
        | None => None
        | Some report_df => if display_report report_df then Some report_df else None
        end
    end.

(** A sort gives back the rows it was given, in some order, under the
    same columns. *)
Definition sort_keeps_rows (RR : ReportRuntime) : Prop :=
  forall names df df',
    sort_values names df = Some df' ->
    columns df' = columns df /\ Permutation (rows df) (rows df').

(** The key of a row of the report: its cells [claim_id] and [rule_id]. *)
Definition report_key (report_df : DataFrame) (r : Row) : list value :=
  select_tuple report_df [L "claim_id"; L "rule_id"] r.

(** ** Further tables used in examples *)

(** A report runtime that sorts by the cells of the named columns and
    whose display always completes. *)
Definition demo_report_runtime : ReportRuntime := {|
  sort_values := fun names df =>
    Some (mkFrame (columns df)
            (sort_by (fun a b => key_leb (select_tuple df names a) (select_tuple df names b))
                     (rows df)));
  display_report := fun _ => true
|}.

(** Two matches of one claim under one rule, and a match of another
    claim. *)
Definition report_results : DataFrame :=
  mkFrame [L "claim_id"; L "member_id"; L "provider_npi"; L "paid_amount";
           col_rule_id; col_rule_desc]
    [mkRow 0 [VNum 7; VStr (L "M1"); VNum 11; VNum 100; VNum 2; VStr (L "repeat")];
     mkRow 1 [VNum 7; VStr (L "M1"); VNum 12; VNum 200; VNum 2; VStr (L "repeat")];
     mkRow 2 [VNum 5; VStr (L "M2"); VNum 11; VNum 300; VNum 1; VStr (L "high")]].

(** A DataSet condition with a field difference on a numeric column. *)
Definition pair_condition : str :=
  L "member_id = member_id AND paid_amount - paid_amount < 500".

(** Three claims of one member; the amount of the third is above the
    threshold of [pair_condition], and less than the threshold away
    from the amount of the second. *)
Definition leak_claims : DataFrame :=
  mkFrame [L "member_id"; L "paid_amount"]
    [mkRow 0 [VNum 7; VNum 100];
     mkRow 1 [VNum 7; VNum 200];
     mkRow 2 [VNum 7; VNum 600]].

(** A rule whose level is written without capitals, and a DataSet
    rule. *)
Definition mixed_level_rules : list Rule :=
  [mkRule 1 (L "repeated member") (L "dataset") (L "member_id = member_id");
   mkRule 2 (L "repeated member again") (L "DataSet") (L "member_id = member_id")].

(** The two rules of [repeat_rules] in the other order. *)
Definition repeat_rules_swapped : list Rule :=
  [mkRule 2 (L "repeated member again") (L "DataSet") (L "member_id = member_id");
   mkRule 1 (L "repeated member") (L "DataSet") (L "member_id = member_id")].

(** What [demo_report_runtime] makes of [report_results]. *)
Definition report_of_results : DataFrame :=
  mkFrame [L "claim_id"; L "rule_id"; L "rule_desc"; L "member_id"; L "provider_npi";
           L "paid_amount"]
    [mkRow 2 [VNum 5; VNum 1; VStr (L "high"); VStr (L "M2"); VNum 11; VNum 300];
     mkRow 0 [VNum 7; VNum 2; VStr (L "repeat"); VStr (L "M1"); VNum 11; VNum 100]].

(** * Properties *)

(** Case analysis over the 256 characters. *)
Ltac by_chars c :=
  destruct c as [[] [] [] [] [] [] [] []]; vm_compute; intros;
  try reflexivity; try discriminate.

(** ** Basic facts on texts *)

Lemma str_eqb_refl : forall a, str_eqb a a = true.
Proof.
  induction a as [|x a IH]; simpl; [reflexivity|].
  now rewrite Ascii.eqb_refl, IH.
Qed.

Lemma str_eqb_eq : forall a b, str_eqb a b = true <-> a = b.
Proof.
  induction a as [|x a IH]; destruct b as [|y b]; simpl; split; intro H;
    try reflexivity; try discriminate.
  - apply andb_true_iff in H as [H1 H2].
    apply Ascii.eqb_eq in H1. apply IH in H2. now subst.
  - inversion H; subst. now rewrite Ascii.eqb_refl, str_eqb_refl.
Qed.

Lemma str_eqb_neq : forall a b, str_eqb a b = false <-> a <> b.
Proof.
  intros a b. split; intro H.
  - intro E. apply str_eqb_eq in E. congruence.
  - destruct (str_eqb a b) eqn:E; [|reflexivity].
    apply str_eqb_eq in E. contradiction.
Qed.

Lemma mem_str_In : forall x l, mem_str x l = true <-> In x l.
Proof.
  intros x l. unfold mem_str. rewrite existsb_exists. split.
  - intros [y [Hy E]]. apply str_eqb_eq in E. now subst.
  - intro H. exists x. split; [assumption|apply str_eqb_refl].
Qed.

Lemma mem_str_not_In : forall x l, mem_str x l = false <-> ~ In x l.
Proof.
  intros x l. rewrite <- mem_str_In. destruct (mem_str x l); split; intro H;
    try reflexivity; try discriminate; try congruence.
Qed.

(** ** The patterns and the engine on some inputs *)

(** The self-comparison pattern may start inside a word, and its
    back-reference may match the beginning of a longer word. *)
Example self_comparison_inside_words :
  extract_self_comparisons (L "abc = bc and a = ab,x=x  y  =   y1")
  = [L "bc"; L "a"; L "x"; L "y"].
Proof. vm_compute. reflexivity. Qed.

(** Operators are any run of the four characters; a number ends at a
    dot that no digit follows. *)
Example value_comparisons_of_a_mixed_condition :
  extract_value_comparisons (L "x > 1a - b <= 3.25 and t=7. u==.5 v<1.x w=>2.50")
  = [(L "x", L ">", LNum (1 # 1)); (L "b", L "<=", LNum (325 # 100));
     (L "t", L "=", LNum (7 # 1)); (L "v", L "<", LNum (1 # 1));
     (L "w", L "=>", LNum (250 # 100))].
Proof. vm_compute. reflexivity. Qed.

Example field_differences_of_a_mixed_condition :
  extract_field_differences (L "x > 1a - b <= 3.25 and a-b<1 a - b - c > 2")
  = [(L "1a", L "b", L "<=", 325 # 100); (L "a", L "b", L "<", 1 # 1);
     (L "b", L "c", L ">", 2 # 1)].
Proof. vm_compute. reflexivity. Qed.

(** Only a bare [=] is doubled. *)
Example normaliser_keeps_longer_operators :
  parse_condition_for_record_rule (L "a <= 3 and b=4 and c == 5 or d != 6 or e >= 1")
  = L "a <= 3 and b==4 and c == 5 or d != 6 or e >= 1".
Proof. vm_compute. reflexivity. Qed.

(** Scenario 1 with the engine for single comparisons: the claim above
    the amount is returned with the two tags. *)
Example scenario1_returns_the_high_claim :
  apply_rules (RT := demo_runtime) scenario1_rules scenario1_claims
  = mkFrame [L "id"; L "paid_amount"; col_rule_id; col_rule_desc]
      [mkRow 0 [VNum 1; VNum 1500; VNum 1; VStr (L "high amount")]].
Proof. vm_compute. reflexivity. Qed.

(** ** The normaliser on the example of the specification *)

(** C3.  On the condition made of [status = ] followed by the quoted
    text [A=B], the normaliser doubles the [=] inside the quotes too: the
    first substitution runs over the whole text before the quoted spans
    are set aside, so the result is [status == ] followed by the quoted
    text [A==B]. *)
Theorem parse_condition_rewrites_inside_quotes :
  parse_condition_for_record_rule status_condition
  = L "status == " ++ quoted (L "A==B").
Proof. vm_compute. reflexivity. Qed.

(** ** Scenario 2 *)

(** The value prefilter of Scenario 2 compares the timestamps of
    [claim_service_from] with the number 3, which raises. *)
Lemma scenario2_prefilter_raises `{RT : Runtime} :
  extract_value_comparisons scenario2_condition
  = [(L "claim_service_from", L "<", LNum 3)]
  /\ prefilter (extract_value_comparisons scenario2_condition) scenario2_claims = None.
Proof. split; vm_compute; reflexivity. Qed.

(** C2.  On Scenario 2 (one member, claims served on days 1, 2 and 12,
    the dates held as timestamps) [apply_rules] returns no row at all:
    the result is the empty table with the claims columns and the two
    tags, not the close pair. *)
Theorem scenario2_returns_no_row `{RT : Runtime} :
  apply_rules scenario2_rules scenario2_claims
  = mkFrame (scenario2_columns ++ [col_rule_id; col_rule_desc]) [].
Proof. vm_compute. reflexivity. Qed.

(** ** Frames and the prefilter *)

Section FrameFacts.

Context {RT : Runtime}.

Lemma mask_rows_incl : forall p rs out,
  mask_rows p rs = Some out -> forall r, In r out -> In r rs /\ p r = Some true.
Proof.
  induction rs as [|r0 rs IH]; simpl; intros out H r Hr.
  - inversion H; subst. destruct Hr.
  - destruct (p r0) as [b|] eqn:Hp; [|discriminate].
    destruct (mask_rows p rs) as [out'|]; [|discriminate].
    inversion H; subst; clear H.
    destruct b.
    + destruct Hr as [->|Hr]; [now split; [left|]|].
      destruct (IH _ eq_refl _ Hr). split; [now right|assumption].
    + destruct (IH _ eq_refl _ Hr). split; [now right|assumption].
Qed.

Lemma value_filter_columns : forall df vc df',
  value_filter df vc = Some df' -> columns df' = columns df.
Proof.
  intros df [[field op] v] df' H. unfold value_filter in H.
  destruct (mem_str field (columns df)); [|now inversion H].
  destruct (op_of_text op); [|now inversion H].
  destruct (mask_rows _ _); [|discriminate].
  now inversion H.
Qed.

Lemma prefilter_columns : forall vcs df df',
  prefilter vcs df = Some df' -> columns df' = columns df.
Proof.
  induction vcs as [|vc vcs IH]; simpl; intros df df' H.
  - now inversion H.
  - destruct (value_filter df vc) as [df1|] eqn:E; [|discriminate].
    rewrite (IH _ _ H). eapply value_filter_columns; eauto.
Qed.

Lemma value_filter_rows : forall df vc df' r,
  value_filter df vc = Some df' -> In r (rows df') -> In r (rows df).
Proof.
  intros df [[field op] v] df' r H Hr. unfold value_filter in H.
  destruct (mem_str field (columns df)); [|now inversion H; subst].
  destruct (op_of_text op); [|now inversion H; subst].
  destruct (mask_rows _ _) as [rs|] eqn:E; [|discriminate].
  inversion H; subst; simpl in Hr.
  eapply mask_rows_incl in E; eauto. tauto.
Qed.

Lemma prefilter_rows : forall vcs df df' r,
  prefilter vcs df = Some df' -> In r (rows df') -> In r (rows df).
Proof.
  induction vcs as [|vc vcs IH]; simpl; intros df df' r H Hr.
  - now inversion H; subst.
  - destruct (value_filter df vc) as [df1|] eqn:E; [|discriminate].
    eapply value_filter_rows; eauto.
Qed.

(** A row that passes the prefilter satisfies each comparison whose
    field is a column and whose operator is known. *)
Lemma prefilter_sound : forall vcs df df' r field op o v,
  prefilter vcs df = Some df' ->
  In (field, op, v) vcs ->
  mem_str field (columns df) = true ->
  op_of_text op = Some o ->
  In r (rows df') ->
  compare_cell o (cell (columns df) r field) v = Some true.
Proof.
  induction vcs as [|vc vcs IH]; simpl; intros df df' r field op o v H Hin Hf Ho Hr.
  - destruct Hin.
  - destruct (value_filter df vc) as [df1|] eqn:E; [|discriminate].
    pose proof (value_filter_columns _ _ _ E) as Hc.
    destruct Hin as [->|Hin].
    + pose proof (prefilter_rows _ _ _ _ H Hr) as Hr1.
      unfold value_filter in E. rewrite Hf, Ho in E.
      destruct (mask_rows _ _) as [rs|] eqn:Em; [|discriminate].
      inversion E; subst; simpl in *.
      eapply mask_rows_incl in Em; eauto. tauto.
    + rewrite <- Hc. eapply IH; eauto. now rewrite Hc.
Qed.

Lemma mask_rows_all : forall p rs,
  (forall r, In r rs -> p r = Some true) -> mask_rows p rs = Some rs.
Proof.
  intros p. induction rs as [|r rs IH]; intro H; [reflexivity|].
  simpl. rewrite (H r) by now left. rewrite IH; [reflexivity|].
  intros r' Hr'. apply H. now right.
Qed.

(** On a frame all of whose rows pass every comparison the prefilter
    changes nothing. *)
Lemma prefilter_fixed : forall vcs df,
  (forall field op v o r,
     In (field, op, v) vcs -> mem_str field (columns df) = true ->
     op_of_text op = Some o -> In r (rows df) ->
     compare_cell o (cell (columns df) r field) v = Some true) ->
  prefilter vcs df = Some df.
Proof.
  induction vcs as [|[[field op] v] vcs IH]; intros df H; [reflexivity|].
  cbn [prefilter].
  assert (E : value_filter df (field, op, v) = Some df).
  { unfold value_filter. destruct (mem_str field (columns df)) eqn:Em; [|reflexivity].
    destruct (op_of_text op) as [o|] eqn:Eo; [|reflexivity].
    rewrite mask_rows_all; [now destruct df|].
    intros r Hr. eapply H; eauto. now left. }
  rewrite E. apply IH. intros f o' v' o r Hin. apply H. now right.
Qed.

(** What the prefilter returns, it leaves as it is. *)
Lemma prefilter_idempotent : forall vcs df df',
  prefilter vcs df = Some df' -> prefilter vcs df' = Some df'.
Proof.
  intros vcs df df' H. apply prefilter_fixed.
  intros field op v o r Hin Hm Ho Hr.
  rewrite (prefilter_columns _ _ _ H) in *.
  eapply prefilter_sound; eauto.
Qed.

End FrameFacts.

(** ** A missing grouping column *)

(** C10.  When a field named by a self-comparison of the condition is
    not a column of the pool, [apply_dataset_level_rule] returns the
    empty frame, whatever the pool and the rest of the condition; a
    value comparison on a field that is not a column, in contrast,
    leaves the frame it filters as it is. *)
Theorem missing_grouping_column_disables_rule `{RT : Runtime} :
  forall (pool : DataFrame) (rule_id : Z) (rule_desc rule_condition field : str),
    In field (extract_self_comparisons rule_condition) ->
    ~ In field (columns pool) ->
    apply_dataset_level_rule pool rule_id rule_desc rule_condition = empty_frame
    /\ (forall op v, value_filter pool (field, op, v) = Some pool).
Proof.
  intros pool rule_id rule_desc cond field Hin Hcol. split.
  - unfold apply_dataset_level_rule, dataset_rule_body.
    destruct (prefilter _ pool) as [filtered|] eqn:E; [|reflexivity].
    destruct (is_empty filtered); [reflexivity|].
    destruct (extract_self_comparisons cond) as [|f0 fs] eqn:Es; [reflexivity|].
    replace (forallb _ (f0 :: fs)) with false; [reflexivity|].
    symmetry. apply not_true_is_false. intro Hall.
    rewrite forallb_forall in Hall. specialize (Hall _ Hin).
    rewrite (prefilter_columns _ _ _ E) in Hall.
    apply mem_str_In in Hall. contradiction.
  - intros op v. unfold value_filter.
    apply mem_str_not_In in Hcol. now rewrite Hcol.
Qed.

(** ** The empty result *)

Lemma insert_sorted_In : forall (A : Type) (leb : A -> A -> bool) x y l,
  In y (insert_sorted leb x l) <-> y = x \/ In y l.
Proof.
  intros A leb x y. induction l as [|z l IH]; simpl.
  - intuition.
  - destruct (leb x z); simpl; [intuition|]. rewrite IH. intuition.
Qed.

Lemma sort_by_In : forall (A : Type) (leb : A -> A -> bool) y l,
  In y (sort_by leb l) <-> In y l.
Proof.
  intros A leb y. induction l as [|x l IH]; simpl; [tauto|].
  rewrite insert_sorted_In, IH. intuition.
Qed.

Lemma process_rules_no_match `{RT : Runtime} : forall rules claims,
  (forall rule result, In rule rules -> dispatch rule claims = Some result ->
                       is_empty result = true) ->
  process_rules rules claims = [].
Proof.
  induction rules as [|rule rules IH]; simpl; intros claims H; [reflexivity|].
  destruct (is_empty claims); [reflexivity|].
  destruct (dispatch rule claims) as [result|] eqn:E.
  - rewrite (H rule result (or_introl eq_refl) E). simpl.
    apply IH. intros r res Hr. apply H. now right.
  - apply IH. intros r res Hr. apply H. now right.
Qed.

Lemma process_rules_empty_pool `{RT : Runtime} : forall rules claims,
  is_empty claims = true -> process_rules rules claims = [].
Proof.
  intros [|rule rules] claims H; simpl; [reflexivity|]. now rewrite H.
Qed.

(** C7.  When no rule of the table matches any claim (each rule with a
    known level yields an empty result on the claims), [apply_rules]
    returns the table without rows whose columns are the claims columns
    followed by [rule_id] and [rule_desc]; the same holds when the
    claims table is empty and when the rules table is empty. *)
Theorem empty_result_keeps_schema `{RT : Runtime} :
  forall (rules_df : list Rule) (claims_df : DataFrame),
    (forall rule result, In rule rules_df -> dispatch rule claims_df = Some result ->
                         is_empty result = true)
    \/ is_empty claims_df = true
    \/ rules_df = [] ->
    apply_rules rules_df claims_df
    = mkFrame (columns claims_df ++ [col_rule_id; col_rule_desc]) [].
Proof.
  intros rules claims H. unfold apply_rules, all_results.
  replace (process_rules (sort_rules rules) claims) with (@nil DataFrame);
    [reflexivity|].
  symmetry. destruct H as [H|[H|H]].
  - apply process_rules_no_match. intros rule result Hin.
    apply H. unfold sort_rules in Hin. now apply sort_by_In in Hin.
  - now apply process_rules_empty_pool.
  - subst. reflexivity.
Qed.

(** ** Coercion failures in the pairwise check *)


(** ** Scanning facts *)

Lemma word_not_space : forall c, is_word c = true -> is_space c = false.
Proof. intro c. by_chars c. Qed.

Lemma word_not_opchar : forall c, is_word c = true -> is_opchar c = false.
Proof. intro c. by_chars c. Qed.

Lemma word_not_eq : forall c, is_word c = true -> Ascii.eqb c ch_eq = false.
Proof. intro c. by_chars c. Qed.

Lemma word_not_minus : forall c, is_word c = true -> Ascii.eqb c ch_minus = false.
Proof. intro c. by_chars c. Qed.

Lemma space_not_word : forall c, is_space c = true -> is_word c = false.
Proof. intro c. by_chars c. Qed.

Lemma space_not_opchar : forall c, is_space c = true -> is_opchar c = false.
Proof. intro c. by_chars c. Qed.

Lemma space_not_minus : forall c, is_space c = true -> Ascii.eqb c ch_minus = false.
Proof. intro c. by_chars c. Qed.

Lemma opchar_not_word : forall c, is_opchar c = true -> is_word c = false.
Proof. intro c. by_chars c. Qed.

Lemma opchar_not_space : forall c, is_opchar c = true -> is_space c = false.
Proof. intro c. by_chars c. Qed.

Lemma opchar_not_minus : forall c, is_opchar c = true -> Ascii.eqb c ch_minus = false.
Proof. intro c. by_chars c. Qed.

Lemma digit_is_word : forall c, is_digit c = true -> is_word c = true.
Proof. intro c. by_chars c. Qed.

Lemma digit_not_minus : forall c, is_digit c = true -> Ascii.eqb c ch_minus = false.
Proof. intro c. by_chars c. Qed.

Lemma span_app : forall p a b, all_in p a -> stops p b -> span p (a ++ b) = (a, b).
Proof.
  intros p a b Ha Hb. induction Ha as [|c a Hc Ha IH]; simpl.
  - destruct b as [|c b]; simpl in *; [reflexivity|]. now rewrite Hb.
  - now rewrite Hc, IH.
Qed.

Lemma span_spec : forall p s a b,
  span p s = (a, b) -> s = a ++ b /\ all_in p a /\ stops p b.
Proof.
  intros p. induction s as [|c s IH]; simpl; intros a b H.
  - inversion H; subst. repeat split. constructor.
  - destruct (p c) eqn:Hc.
    + destruct (span p s) as [a' b'] eqn:E. inversion H; subst.
      destruct (IH _ _ eq_refl) as [-> [Ha Hb]].
      repeat split; [now constructor|assumption].
    + inversion H; subst. repeat split; [constructor|exact Hc].
Qed.

Lemma span_length : forall p s a b, span p s = (a, b) -> length s = length a + length b.
Proof.
  intros p s a b H. apply span_spec in H as [-> _]. apply length_app.
Qed.

Lemma starts_with_app : forall p s, starts_with p (p ++ s) = true.
Proof.
  induction p as [|c p IH]; simpl; intro s; [reflexivity|].
  now rewrite Ascii.eqb_refl, IH.
Qed.

Lemma starts_with_spec : forall p s, starts_with p s = true -> exists r, s = p ++ r.
Proof.
  induction p as [|c p IH]; simpl; intros s H.
  - now exists s.
  - destruct s as [|d s]; [discriminate|].
    apply andb_true_iff in H as [H1 H2]. apply Ascii.eqb_eq in H1. subst.
    destruct (IH _ H2) as [r ->]. now exists r.
Qed.

Lemma finditer_skip : forall (A : Type) (m : str -> option (A * nat)) a k b,
  finditer m (length a + k) (a ++ b) = finditer m k b.
Proof.
  intros A m. induction a as [|c a IH]; simpl; intros k b; [reflexivity|apply IH].
Qed.

Lemma finditer_skip_all : forall (A : Type) (m : str -> option (A * nat)) s k,
  length s <= k -> finditer m k s = [].
Proof.
  intros A m. induction s as [|c s IH]; simpl; intros k H; [reflexivity|].
  destruct k as [|k]; [lia|]. apply IH. lia.
Qed.

Lemma finditer_step_none : forall (A : Type) (m : str -> option (A * nat)) c s,
  m (c :: s) = None -> finditer m 0 (c :: s) = finditer m 0 s.
Proof. intros A m c s H. simpl. now rewrite H. Qed.

Lemma finditer_step_some : forall (A : Type) (m : str -> option (A * nat)) c s a len,
  m (c :: s) = Some (a, len) -> finditer m 0 (c :: s) = a :: finditer m (len - 1) s.
Proof. intros A m c s a len H. simpl. now rewrite H. Qed.

Lemma finditer_step_skip : forall (A : Type) (m : str -> option (A * nat)) c s k,
  finditer m (S k) (c :: s) = finditer m k s.
Proof. reflexivity. Qed.

(** A match that covers the subject is the only one. *)
Lemma finditer_whole : forall (A : Type) (m : str -> option (A * nat)) s a n,
  m s = Some (a, n) -> length s <= n -> s <> [] -> finditer m 0 s = [a].
Proof.
  intros A m [|c s] a n Hm Hn Hne; [contradiction|].
  simpl. rewrite Hm. f_equal. apply finditer_skip_all. simpl in Hn. lia.
Qed.

(** A stretch of the subject on which the pattern matches nowhere is
    passed over. *)
Lemma finditer_pass : forall (A : Type) (m : str -> option (A * nat)) a b,
  (forall a1 a2, a = a1 ++ a2 -> a2 <> [] -> m (a2 ++ b) = None) ->
  finditer m 0 (a ++ b) = finditer m 0 b.
Proof.
  intros A m. induction a as [|c a IH]; intros b H; [reflexivity|].
  simpl. replace (m (c :: a ++ b)) with (@None (A * nat)).
  - apply IH. intros a1 a2 E Hne. apply (H (c :: a1) a2); [now rewrite E|assumption].
  - symmetry. apply (H [] (c :: a)); [reflexivity|discriminate].
Qed.

Lemma match_self_nonword : forall c s, is_word c = false -> match_self (c :: s) = None.
Proof. intros c s H. unfold match_self. simpl. now rewrite H. Qed.

Lemma all_in_suffix : forall p (a a1 a2 : str), all_in p a -> a = a1 ++ a2 -> all_in p a2.
Proof.
  intros p a a1 a2 H E. subst. unfold all_in in *. apply Forall_app in H. tauto.
Qed.

Lemma finditer_self_pass_nonword : forall a b,
  Forall (fun c => is_word c = false) a ->
  finditer match_self 0 (a ++ b) = finditer match_self 0 b.
Proof.
  intros a b H. apply finditer_pass. intros a1 a2 E Hne.
  subst. apply Forall_app in H as [_ H].
  destruct a2 as [|c a2]; [contradiction|].
  inversion H; subst. now apply match_self_nonword.
Qed.

(** ** Self-comparisons in single and double equals form *)

Lemma stops_word_space_eq : forall ws rest,
  all_in is_space ws -> stops is_word (ws ++ ch_eq :: rest).
Proof.
  intros [|c ws] rest H; simpl; [reflexivity|].
  inversion H; subst. now apply space_not_word.
Qed.

Lemma stops_space_word : forall f rest, all_in is_word f -> f <> [] \/ rest = [] ->
  stops is_space (f ++ rest).
Proof.
  intros [|c f] rest H Hne; simpl.
  - destruct Hne as [Hne| ->]; [contradiction|exact I].
  - inversion H; subst. now apply word_not_space.
Qed.

(** The pattern at a position inside the left field of [f == f]. *)
Lemma match_self_double_eq : forall f2 ws1 rest,
  all_in is_word f2 -> f2 <> [] -> all_in is_space ws1 ->
  match_self (f2 ++ ws1 ++ ch_eq :: ch_eq :: rest) = None.
Proof.
  intros f2 ws1 rest Hf Hne Hw. unfold match_self.
  rewrite (span_app is_word f2); [|assumption|now apply stops_word_space_eq].
  destruct f2 as [|c f2]; [contradiction|].
  rewrite (span_app is_space ws1); [|assumption|reflexivity].
  simpl. inversion Hf; subst. now rewrite word_not_eq.
Qed.

(** The pattern at a position inside a word that ends the subject. *)
Lemma match_self_last_word : forall f2, all_in is_word f2 -> match_self (f2 ++ []) = None.
Proof.
  intros f2 Hf. unfold match_self.
  rewrite (span_app is_word f2); [|assumption|exact I].
  now destruct f2.
Qed.

Lemma extract_self_double_eq : forall field ws1 ws2,
  all_in is_word field -> all_in is_space ws1 -> all_in is_space ws2 ->
  extract_self_comparisons (field ++ ws1 ++ L "==" ++ ws2 ++ field) = [].
Proof.
  intros field ws1 ws2 Hf H1 H2. unfold extract_self_comparisons.
  rewrite finditer_pass.
  - replace (ws1 ++ L "==" ++ ws2 ++ field)
      with ((ws1 ++ L "==" ++ ws2) ++ field) by (now rewrite <- !app_assoc).
    rewrite finditer_self_pass_nonword.
    + rewrite <- (app_nil_r field). rewrite finditer_pass; [reflexivity|].
      intros a1 a2 E _. apply match_self_last_word. eapply all_in_suffix; eauto.
    + apply Forall_app. split.
      * eapply Forall_impl; [|exact H1]. intros c Hc. now apply space_not_word.
      * apply Forall_app. split; [now repeat constructor|].
        eapply Forall_impl; [|exact H2]. intros c Hc. now apply space_not_word.
  - intros a1 a2 E Hne. apply match_self_double_eq; [|assumption|assumption].
    eapply all_in_suffix; eauto.
Qed.

Lemma extract_self_single_eq : forall field ws1 ws2,
  all_in is_word field -> field <> [] -> all_in is_space ws1 -> all_in is_space ws2 ->
  extract_self_comparisons (field ++ ws1 ++ L "=" ++ ws2 ++ field) = [field].
Proof.
  intros field ws1 ws2 Hf Hne H1 H2. unfold extract_self_comparisons.
  assert (Hm : match_self (field ++ ws1 ++ L "=" ++ ws2 ++ field)
               = Some (field, length field + length ws1 + 1 + length ws2 + length field)).
  { unfold match_self.
    rewrite (span_app is_word field); [|assumption|now apply stops_word_space_eq].
    destruct field as [|c f] eqn:Ef; [contradiction|]. rewrite <- Ef in *.
    rewrite (span_app is_space ws1); [|assumption|reflexivity].
    change (L "=" ++ ws2 ++ field) with (ch_eq :: ws2 ++ field).
    cbv beta iota. rewrite Ascii.eqb_refl.
    rewrite <- (app_nil_r (ws2 ++ field)), <- app_assoc.
    rewrite (span_app is_space ws2); [|assumption|apply stops_space_word; auto].
    now rewrite starts_with_app. }
  eapply finditer_whole; [exact Hm| |].
  - rewrite !length_app. simpl. lia.
  - destruct field; [contradiction|discriminate].
Qed.

Lemma no_self_comparison_no_match `{RT : Runtime} :
  forall pool rule_id rule_desc rule_condition,
    extract_self_comparisons rule_condition = [] ->
    apply_dataset_level_rule pool rule_id rule_desc rule_condition = empty_frame.
Proof.
  intros pool rule_id rule_desc cond H.
  unfold apply_dataset_level_rule, dataset_rule_body. rewrite H.
  destruct (prefilter _ pool) as [filtered|]; [|reflexivity].
  now destruct (is_empty filtered).
Qed.

(** C9.  For a field name [f] and any blanks around the operator: the
    condition [f == f] has no self-comparison, although [f = f] has the
    self-comparison [f]; [apply_dataset_level_rule] reads the condition
    as it is written, so on [f == f] it returns the empty frame for
    every pool, as it does on every condition without self-comparison. *)
Theorem double_equals_is_not_a_self_comparison `{RT : Runtime} :
  forall (field ws1 ws2 : str) (pool : DataFrame) (rule_id : Z) (rule_desc : str),
    all_in is_word field -> field <> [] ->
    all_in is_space ws1 -> all_in is_space ws2 ->
    extract_self_comparisons (field ++ ws1 ++ L "==" ++ ws2 ++ field) = []
    /\ extract_self_comparisons (field ++ ws1 ++ L "=" ++ ws2 ++ field) = [field]
    /\ apply_dataset_level_rule pool rule_id rule_desc
         (field ++ ws1 ++ L "==" ++ ws2 ++ field) = empty_frame
    /\ (forall rule_condition,
          extract_self_comparisons rule_condition = [] ->
          apply_dataset_level_rule pool rule_id rule_desc rule_condition = empty_frame).
Proof.
  intros field ws1 ws2 pool rule_id rule_desc Hf Hne H1 H2.
  pose proof (extract_self_double_eq field ws1 ws2 Hf H1 H2) as Hd.
  split; [exact Hd|]. split; [now apply extract_self_single_eq|].
  split; [now apply no_self_comparison_no_match|].
  intros cond Hc. now apply no_self_comparison_no_match.
Qed.

(** ** Field differences among the value comparisons *)

Lemma no_minus_app : forall a b, no_minus a -> no_minus b -> no_minus (a ++ b).
Proof. intros a b Ha Hb. apply Forall_app. now split. Qed.

Lemma all_in_no_minus : forall p s,
  (forall c, p c = true -> Ascii.eqb c ch_minus = false) -> all_in p s -> no_minus s.
Proof. intros p s Hp H. eapply Forall_impl; [|exact H]. exact Hp. Qed.

Lemma match_number_spec : forall s num,
  match_number s = Some num -> exists rest, s = num ++ rest /\ no_minus num.
Proof.
  intros s num H. unfold match_number in H.
  destruct (span is_digit s) as [d1 r1] eqn:E1.
  apply span_spec in E1 as [-> [Hd1 _]].
  assert (N1 : no_minus d1) by (eapply all_in_no_minus; [exact digit_not_minus|exact Hd1]).
  destruct d1 as [|c0 d1]; [discriminate|].
  destruct r1 as [|c r2].
  - inversion H; subst. now exists [].
  - destruct (Ascii.eqb c ch_dot) eqn:Ec.
    + destruct (span is_digit r2) as [d2 r3] eqn:E2.
      apply span_spec in E2 as [-> [Hd2 _]].
      apply Ascii.eqb_eq in Ec. subst c.
      destruct d2 as [|c2 d2].
      * inversion H; subst. now exists (ch_dot :: r3).
      * inversion H; subst. exists r3. split.
        -- simpl. now rewrite <- app_assoc.
        -- apply (no_minus_app (c0 :: d1) (ch_dot :: c2 :: d2)); [assumption|].
           constructor; [reflexivity|].
           eapply all_in_no_minus; [exact digit_not_minus|exact Hd2].
    + inversion H; subst. now exists (c :: r2).
Qed.

Lemma match_op_spec : forall s op n r,
  match_op s = Some (op, n, r) ->
  exists m, s = m ++ r /\ length m = n /\ no_minus m.
Proof.
  intros s op n r H. unfold match_op in H.
  destruct (span is_space s) as [sp1 r1] eqn:E1.
  destruct (span is_opchar r1) as [o r2] eqn:E2.
  destruct o as [|c o]; [discriminate|].
  destruct (span is_space r2) as [sp2 r3] eqn:E3.
  inversion H; subst; clear H.
  apply span_spec in E1 as [-> [H1 _]].
  apply span_spec in E2 as [-> [H2 _]].
  apply span_spec in E3 as [-> [H3 _]].
  exists (sp1 ++ (c :: o) ++ sp2). split; [now rewrite <- !app_assoc|]. split.
  - rewrite !length_app. simpl. lia.
  - apply no_minus_app; [eapply all_in_no_minus; [exact space_not_minus|exact H1]|].
    apply no_minus_app; [eapply all_in_no_minus; [exact opchar_not_minus|exact H2]|].
    eapply all_in_no_minus; [exact space_not_minus|exact H3].
Qed.

Lemma match_op_number_spec : forall s op num n,
  match_op_number s = Some (op, num, n) ->
  exists m rest, s = m ++ rest /\ length m = n /\ no_minus m.
Proof.
  intros s op num n H. unfold match_op_number in H.
  destruct (match_op s) as [[[op' n'] r]|] eqn:E; [|discriminate].
  destruct (match_number r) as [num'|] eqn:En; [|discriminate].
  inversion H; subst; clear H.
  apply match_op_spec in E as [m [-> [Hl Hm]]].
  apply match_number_spec in En as [rest [-> Hn]].
  exists (m ++ num), rest. split; [now rewrite <- app_assoc|]. split.
  - rewrite length_app. lia.
  - now apply no_minus_app.
Qed.

(** A match of the numeric comparison pattern contains no minus sign. *)
Lemma match_numeric_comparison_spec : forall s a n,
  match_numeric_comparison s = Some (a, n) ->
  exists m rest, s = m ++ rest /\ length m = n /\ no_minus m.
Proof.
  intros s a n H. unfold match_numeric_comparison in H.
  destruct (span is_word s) as [w r1] eqn:E1.
  destruct w as [|c w]; [discriminate|].
  destruct (match_op_number r1) as [[[op num] n']|] eqn:E2; [|discriminate].
  inversion H; subst; clear H.
  apply span_spec in E1 as [-> [Hw _]].
  apply match_op_number_spec in E2 as [m [rest [-> [Hl Hm]]]].
  exists ((c :: w) ++ m), rest. split; [now rewrite <- app_assoc|]. split.
  - rewrite length_app. simpl. lia.
  - apply no_minus_app; [|assumption].
    eapply all_in_no_minus; [exact word_not_minus|exact Hw].
Qed.

Lemma match_numeric_comparison_nonword : forall c s,
  is_word c = false -> match_numeric_comparison (c :: s) = None.
Proof. intros c s H. unfold match_numeric_comparison. simpl. now rewrite H. Qed.

(** The numeric comparison pattern at the start of a word that an
    operator and a number follow. *)
Lemma match_numeric_comparison_word : forall w r op num n,
  all_in is_word w -> w <> [] -> stops is_word r ->
  match_op_number r = Some (op, num, n) ->
  match_numeric_comparison (w ++ r)
  = Some ((w, op, LNum (float_of_decimal num)), length w + n).
Proof.
  intros w r op num n Hw Hne Hr Hm. unfold match_numeric_comparison.
  rewrite (span_app is_word w r Hw Hr).
  destruct w; [contradiction|]. now rewrite Hm.
Qed.

(** What a match of the field-difference pattern looks like. *)
Lemma match_field_difference_spec : forall s f1 f2 op k n,
  match_field_difference s = Some ((f1, f2, op, k), n) ->
  exists sp1 sp2 r5 num n',
    s = f1 ++ sp1 ++ ch_minus :: sp2 ++ f2 ++ r5
    /\ all_in is_space sp2 /\ all_in is_word f2 /\ f2 <> [] /\ stops is_word r5
    /\ match_op_number r5 = Some (op, num, n') /\ k = float_of_decimal num.
Proof.
  intros s f1 f2 op k n H. unfold match_field_difference in H.
  destruct (span is_word s) as [w1 r1] eqn:E1.
  destruct w1 as [|c1 w1]; [discriminate|].
  destruct (span is_space r1) as [sp1 r2] eqn:E2.
  destruct r2 as [|c r3]; [discriminate|].
  destruct (Ascii.eqb c ch_minus) eqn:Ec; [|discriminate].
  destruct (span is_space r3) as [sp2 r4] eqn:E3.
  destruct (span is_word r4) as [w2 r5] eqn:E4.
  destruct w2 as [|c2 w2]; [discriminate|].
  destruct (match_op_number r5) as [[[op' num] n']|] eqn:E5; [|discriminate].
  inversion H; subst; clear H.
  apply span_spec in E1 as [-> _].
  apply span_spec in E2 as [-> _].
  apply span_spec in E3 as [-> [H3 _]].
  apply span_spec in E4 as [-> [H4 S4]].
  apply Ascii.eqb_eq in Ec. subst c.
  exists sp1, sp2, r5, num, n'. repeat split; try assumption; try discriminate.
Qed.

Lemma finditer_In_match : forall (A : Type) (m : str -> option (A * nat)) x s skip,
  In x (finditer m skip s) -> exists pre s' n, s = pre ++ s' /\ m s' = Some (x, n).
Proof.
  intros A m x. induction s as [|c s IH]; simpl; intros skip H; [destruct H|].
  destruct skip as [|k].
  - destruct (m (c :: s)) as [[a len]|] eqn:E.
    + destruct H as [->|H].
      * now exists [], (c :: s), len.
      * destruct (IH _ H) as [pre [s' [n [-> Hm]]]]. now exists (c :: pre), s', n.
    + destruct (IH _ H) as [pre [s' [n [-> Hm]]]]. now exists (c :: pre), s', n.
  - destruct (IH _ H) as [pre [s' [n [-> Hm]]]]. now exists (c :: pre), s', n.
Qed.

(** A minus-free prefix of a text ends before the first minus sign that
    is known to be in the text. *)
Lemma no_minus_prefix_length : forall m rest pre tail,
  m ++ rest = pre ++ ch_minus :: tail -> no_minus m -> length m <= length pre.
Proof.
  induction m as [|c m IH]; simpl; intros rest pre tail E H; [lia|].
  destruct pre as [|d pre]; simpl in E.
  - inversion E; subst. inversion H; subst. discriminate.
  - inversion E; subst. inversion H; subst. simpl.
    apply le_n_S. eapply IH; eauto.
Qed.

(** The numeric scan, wherever it stands before a minus sign, reports
    the comparison that follows the field after the sign. *)
Lemma numeric_scan_after_minus : forall sp2 f2 r5 op num n',
  all_in is_space sp2 -> all_in is_word f2 -> f2 <> [] -> stops is_word r5 ->
  match_op_number r5 = Some (op, num, n') ->
  forall pre skip, skip <= length pre ->
    In (f2, op, LNum (float_of_decimal num))
       (finditer match_numeric_comparison skip (pre ++ ch_minus :: sp2 ++ f2 ++ r5)).
Proof.
  intros sp2 f2 r5 op num n' Hsp Hf Hne Hr Hm.
  induction pre as [|c pre IH]; intros skip Hs.
  - assert (skip = 0) by (simpl in Hs; lia). subst skip.
    change ([] ++ ch_minus :: sp2 ++ f2 ++ r5) with (ch_minus :: sp2 ++ f2 ++ r5).
    rewrite finditer_step_none by (now apply match_numeric_comparison_nonword).
    rewrite finditer_pass.
    + pose proof (match_numeric_comparison_word f2 r5 op num n' Hf Hne Hr Hm) as Hw.
      destruct f2 as [|c2 f2]; [contradiction|].
      change ((c2 :: f2) ++ r5) with (c2 :: f2 ++ r5) in *.
      rewrite (finditer_step_some _ _ _ _ _ _ Hw). now left.
    + intros a1 a2 E Ha2. subst sp2. apply Forall_app in Hsp as [_ Hsp].
      destruct a2 as [|c a2]; [contradiction|]. inversion Hsp; subst.
      apply match_numeric_comparison_nonword. now apply space_not_word.
  - change ((c :: pre) ++ ch_minus :: sp2 ++ f2 ++ r5)
      with (c :: pre ++ ch_minus :: sp2 ++ f2 ++ r5).
    destruct skip as [|k].
    + destruct (match_numeric_comparison (c :: pre ++ ch_minus :: sp2 ++ f2 ++ r5))
        as [[a len]|] eqn:E.
      * rewrite (finditer_step_some _ _ _ _ _ _ E). right. apply IH.
        apply match_numeric_comparison_spec in E as [m [rest [E [Hl Hn]]]].
        pose proof (no_minus_prefix_length m rest (c :: pre) (sp2 ++ f2 ++ r5) (eq_sym E) Hn).
        simpl in H. lia.
      * rewrite (finditer_step_none _ _ _ _ E). apply IH. lia.
    + rewrite finditer_step_skip. apply IH. simpl in Hs. lia.
Qed.

Lemma field_difference_is_value_comparison : forall rule_condition f1 f2 op k,
  In (f1, f2, op, k) (extract_field_differences rule_condition) ->
  In (f2, op, LNum k) (extract_value_comparisons rule_condition).
Proof.
  intros cond f1 f2 op k H. unfold extract_field_differences in H.
  apply finditer_In_match in H as [pre [s' [n [-> Hm]]]].
  apply match_field_difference_spec in Hm
    as [sp1 [sp2 [r5 [num [n' [-> [Hsp [Hf [Hne [Hr [Hm ->]]]]]]]]]]].
  unfold extract_value_comparisons. apply in_or_app. left.
  replace (pre ++ f1 ++ sp1 ++ ch_minus :: sp2 ++ f2 ++ r5)
    with ((pre ++ f1 ++ sp1) ++ ch_minus :: sp2 ++ f2 ++ r5)
    by (now rewrite <- !app_assoc).
  eapply numeric_scan_after_minus; eauto. lia.
Qed.

(** ** The rows of a DataSet result *)

Lemma dedup_acc_In : forall (A : Type) (same : A -> A -> bool) (l acc : list A) x,
  In x (fold_left (fun acc x => if existsb (same x) acc then acc else acc ++ [x]) l acc) ->
  In x acc \/ In x l.
Proof.
  intros A same. induction l as [|y l IH]; simpl; intros acc x H; [now left|].
  apply IH in H. destruct H as [H|H]; [|now right; right].
  destruct (existsb (same y) acc); [now left|].
  apply in_app_or in H. destruct H as [H|[->|[]]]; [now left|now right; left].
Qed.

Lemma dedup_In : forall (A : Type) (same : A -> A -> bool) (l : list A) x,
  In x (dedup same l) -> In x l.
Proof.
  intros A same l x H. apply dedup_acc_In in H. now destruct H as [[]|H].
Qed.

Lemma tag_rows : forall rule_id rule_desc df,
  rows (tag rule_id rule_desc df) = map (tag_row (columns df) rule_id rule_desc) (rows df).
Proof.
  intros rule_id rule_desc df. unfold tag, tag_row, set_column. simpl.
  now rewrite map_map.
Qed.

Lemma tag_columns : forall rule_id rule_desc df,
  columns (tag rule_id rule_desc df)
  = columns (tag rule_id rule_desc (mkFrame (columns df) [])).
Proof. reflexivity. Qed.

Section DataSetRows.

Context {RT : Runtime}.

Lemma pairs_of_group_In : forall cols fds group r,
  In r (pairs_of_group cols fds group) -> In r group.
Proof.
  intros cols fds group r H. unfold pairs_of_group in H.
  apply in_flat_map in H as [row1 [H1 H]].
  apply in_flat_map in H as [row2 [H2 H]].
  destruct (label row2 <=? label row1)%Z; [destruct H|].
  destruct (differences_met cols fds row1 row2); [|destruct H].
  destruct H as [<-|[<-|[]]]; assumption.
Qed.

Lemma groupby_In : forall df fields group r,
  In group (groupby df fields) -> In r group -> In r (rows df).
Proof.
  intros df fields group r H Hr. unfold groupby in H.
  apply in_map_iff in H as [k [<- _]].
  apply filter_In in Hr. tauto.
Qed.

(** A non-empty result of the try block is the tagged frame of some
    rows that passed the prefilter. *)
Lemma dataset_rule_body_rows : forall pool rule_id rule_desc cond result,
  dataset_rule_body pool rule_id rule_desc cond = Some result ->
  result = empty_frame
  \/ exists filtered rs,
       prefilter (extract_value_comparisons cond) pool = Some filtered
       /\ (forall r, In r rs -> In r (rows filtered))
       /\ result = tag rule_id rule_desc (mkFrame (columns pool) rs).
Proof.
  intros pool rule_id rule_desc cond result H. unfold dataset_rule_body in H.
  destruct (prefilter _ pool) as [filtered|] eqn:E; [|discriminate].
  pose proof (prefilter_columns _ _ _ E) as Hc.
  destruct (is_empty filtered); [left; now inversion H|].
  destruct (extract_self_comparisons cond) as [|f0 fs]; [left; now inversion H|].
  destruct (forallb _ (f0 :: fs)); [|left; now inversion H].
  destruct (is_empty _); [left; now inversion H|].
  simpl columns in H. rewrite Hc in H.
  destruct (extract_field_differences cond) as [|fd fds].
  - right. inversion H; subst. eexists filtered, _. split; [reflexivity|].
    split; [|reflexivity]. intros r Hr. apply filter_In in Hr. tauto.
  - destruct (flat_map _ _) as [|r1 rs] eqn:Er; [left; now inversion H|].
    right. inversion H; subst. eexists filtered, _. split; [reflexivity|].
    split; [|reflexivity]. intros r Hr.
    unfold drop_duplicates in Hr. apply dedup_In in Hr. rewrite <- Er in Hr.
    apply in_flat_map in Hr as [group [Hg Hr]].
    apply pairs_of_group_In in Hr.
    pose proof (groupby_In _ _ _ _ Hg Hr) as Hp. simpl in Hp.
    apply filter_In in Hp. tauto.
Qed.

Lemma dataset_rule_rows : forall pool rule_id rule_desc cond r,
  In r (rows (apply_dataset_level_rule pool rule_id rule_desc cond)) ->
  exists filtered r0,
    prefilter (extract_value_comparisons cond) pool = Some filtered
    /\ In r0 (rows filtered)
    /\ r = tag_row (columns pool) rule_id rule_desc r0.
Proof.
  intros pool rule_id rule_desc cond r H. unfold apply_dataset_level_rule in H.
  destruct (dataset_rule_body pool rule_id rule_desc cond) as [result|] eqn:E;
    [|destruct H].
  apply dataset_rule_body_rows in E as [->|[filtered [rs [Hp [Hrs ->]]]]]; [destruct H|].
  rewrite tag_rows in H. simpl in H.
  apply in_map_iff in H as [r0 [<- Hr0]].
  exists filtered, r0. auto.
Qed.

(** The rule sees the pool through the prefilter only: on the pool and
    on the prefiltered pool it returns the same. *)
Lemma dataset_rule_on_filtered : forall pool filtered rule_id rule_desc cond,
  prefilter (extract_value_comparisons cond) pool = Some filtered ->
  apply_dataset_level_rule pool rule_id rule_desc cond
  = apply_dataset_level_rule filtered rule_id rule_desc cond.
Proof.
  intros pool filtered rule_id rule_desc cond H.
  unfold apply_dataset_level_rule, dataset_rule_body.
  now rewrite H, (prefilter_idempotent _ _ _ H).
Qed.

Lemma dataset_rule_prefilter_raises : forall pool rule_id rule_desc cond,
  prefilter (extract_value_comparisons cond) pool = None ->
  apply_dataset_level_rule pool rule_id rule_desc cond = empty_frame.
Proof.
  intros pool rule_id rule_desc cond H.
  unfold apply_dataset_level_rule, dataset_rule_body. now rewrite H.
Qed.

End DataSetRows.

(** C8.  Every field difference [f1 - f2 op k] that
    [extract_field_differences] finds in a condition is also found by
    [extract_value_comparisons], as the comparison of [f2] with the
    number [k] under [op].  In consequence, when [f2] is a column of the
    pool and [op] is one of the six known operators,
    [apply_dataset_level_rule] filters the pool by that comparison
    before any grouping or pairwise check: if the prefilter raises, the
    rule returns nothing; otherwise the prefiltered pool holds only rows
    of the pool whose cell [f2] satisfies [op k], and the rule returns
    on the pool what it returns on the prefiltered pool, so that the
    rows that fail the comparison take no part in the groups and the
    pairs.  In particular every row returned is the tagged form of a
    row of the pool whose cell [f2] satisfies [op k]. *)
Theorem field_difference_leaks_into_prefilter `{RT : Runtime} :
  forall (rule_condition f1 f2 op : str) (k : Q),
    In (f1, f2, op, k) (extract_field_differences rule_condition) ->
    In (f2, op, LNum k) (extract_value_comparisons rule_condition)
    /\ (forall (pool : DataFrame) (rule_id : Z) (rule_desc : str) (o : cmp_op),
          mem_str f2 (columns pool) = true ->
          op_of_text op = Some o ->
          (prefilter (extract_value_comparisons rule_condition) pool = None ->
           apply_dataset_level_rule pool rule_id rule_desc rule_condition = empty_frame)
          /\ (forall filtered,
                prefilter (extract_value_comparisons rule_condition) pool = Some filtered ->
                columns filtered = columns pool
                /\ (forall r, In r (rows filtered) ->
                      In r (rows pool)
                      /\ compare_cell o (cell (columns pool) r f2) (LNum k) = Some true)
                /\ apply_dataset_level_rule pool rule_id rule_desc rule_condition
                   = apply_dataset_level_rule filtered rule_id rule_desc rule_condition)
          /\ (forall r,
                In r (rows (apply_dataset_level_rule pool rule_id rule_desc
                              rule_condition)) ->
                exists r0,
                  In r0 (rows pool)
                  /\ r = tag_row (columns pool) rule_id rule_desc r0
                  /\ compare_cell o (cell (columns pool) r0 f2) (LNum k) = Some true)).
Proof.
  intros cond f1 f2 op k H.
  pose proof (field_difference_is_value_comparison _ _ _ _ _ H) as Hv.
  split; [exact Hv|].
  intros pool rule_id rule_desc o Hcol Hop. split; [|split].
  - apply dataset_rule_prefilter_raises.
  - intros filtered Hp. split; [eapply prefilter_columns; eauto|]. split.
    + intros r Hr. split; [eapply prefilter_rows; eauto|].
      eapply prefilter_sound; eauto.
    + now apply dataset_rule_on_filtered.
  - intros r Hr.
    apply dataset_rule_rows in Hr as [filtered [r0 [Hp [Hr0 ->]]]].
    exists r0. split; [eapply prefilter_rows; eauto|]. split; [reflexivity|].
    eapply prefilter_sound; eauto.
Qed.

(** ** Tuples, tags and keys *)

Lemma fit_length : forall n cs, length (fit n cs) = n.
Proof. intros n cs. unfold fit. now rewrite length_map, length_seq. Qed.

Lemma fit_nth : forall n cs i, i < n -> nth i (fit n cs) VNaN = nth i cs VNaN.
Proof.
  intros n cs i H. unfold fit.
  set (f := fun j => nth j cs VNaN).
  transitivity (nth i (map f (seq 0 n)) (f 0)).
  - apply nth_indep. now rewrite length_map, length_seq.
  - rewrite map_nth. now rewrite seq_nth.
Qed.

Lemma fit_app : forall cs extra, fit (length cs) (cs ++ extra) = cs.
Proof.
  intros cs extra. apply (nth_ext _ _ VNaN VNaN); [apply fit_length|].
  intros i Hi. rewrite fit_length in Hi. rewrite fit_nth by assumption.
  now apply app_nth1.
Qed.

Lemma fit_exact : forall cs, fit (length cs) cs = cs.
Proof. intro cs. rewrite <- (app_nil_r cs) at 2. apply fit_app. Qed.

Lemma fit_fit_app : forall n cs extra, fit n (fit n cs ++ extra) = fit n cs.
Proof.
  intros n cs extra. pose proof (fit_app (fit n cs) extra) as H.
  now rewrite fit_length in H.
Qed.

Lemma fit_fit : forall n cs, fit n (fit n cs) = fit n cs.
Proof.
  intros n cs. rewrite <- (app_nil_r (fit n cs)) at 1. apply fit_fit_app.
Qed.

Lemma distinct_names_NoDup : forall l, distinct_names l = true -> NoDup l.
Proof.
  induction l as [|x l IH]; simpl; intro H; [constructor|].
  apply andb_true_iff in H as [H1 H2]. constructor; [|now apply IH].
  apply negb_true_iff in H1. now apply mem_str_not_In.
Qed.

Lemma plain_columns_spec : forall cols,
  plain_columns cols = true ->
  NoDup cols /\ mem_str col_rule_id cols = false
  /\ mem_str col_rule_desc cols = false /\ mem_str col_merge_key cols = false.
Proof.
  intros cols H. unfold plain_columns in H.
  repeat (apply andb_true_iff in H as [H ?]).
  repeat match goal with
         | H : negb _ = true |- _ => apply negb_true_iff in H
         end.
  repeat split; try assumption. now apply distinct_names_NoDup.
Qed.

Lemma plain_columns_tagged_NoDup : forall cols,
  plain_columns cols = true -> NoDup (cols ++ [col_rule_id; col_rule_desc]).
Proof.
  intros cols H. apply plain_columns_spec in H as [Hn [H1 [H2 _]]].
  apply mem_str_not_In in H1, H2.
  apply NoDup_app; [assumption| |].
  - constructor; [|constructor; [intros []|constructor]].
    intros [E|[]]. discriminate.
  - intros a Ha [<-|[<-|[]]]; contradiction.
Qed.

Lemma mem_str_app : forall x a b, mem_str x (a ++ b) = mem_str x a || mem_str x b.
Proof. intros x a b. unfold mem_str. apply existsb_app. Qed.

Lemma set_cell_append : forall cols name v r,
  mem_str name cols = false ->
  set_cell cols name v r = mkRow (label r) (fit (length cols) (cells r) ++ [v]).
Proof. intros cols name v r H. unfold set_cell. now rewrite H. Qed.

Lemma tag_row_plain : forall cols rule_id rule_desc r,
  plain_columns cols = true ->
  tag_row cols rule_id rule_desc r
  = mkRow (label r)
      (fit (length cols) (cells r) ++ [VNum (inject_Z rule_id); VStr rule_desc]).
Proof.
  intros cols rule_id rule_desc r H.
  apply plain_columns_spec in H as [_ [H1 [H2 _]]].
  unfold tag_row, set_column. simpl columns. rewrite H1.
  rewrite (set_cell_append cols) by assumption.
  rewrite set_cell_append by (rewrite mem_str_app, H2; reflexivity).
  simpl label. simpl cells. f_equal.
  replace (length (cols ++ [col_rule_id]))
    with (length (fit (length cols) (cells r) ++ [VNum (inject_Z rule_id)]))
    by (now rewrite !length_app, fit_length).
  rewrite fit_exact. now rewrite <- app_assoc.
Qed.

Lemma tag_columns_plain : forall cols rule_id rule_desc rs,
  plain_columns cols = true ->
  columns (tag rule_id rule_desc (mkFrame cols rs)) = cols ++ [col_rule_id; col_rule_desc].
Proof.
  intros cols rule_id rule_desc rs H.
  apply plain_columns_spec in H as [_ [H1 [H2 _]]].
  unfold tag, set_column. simpl. rewrite H1. simpl.
  rewrite mem_str_app, H2. simpl. now rewrite <- app_assoc.
Qed.

Lemma filter_all : forall (A : Type) (f : A -> bool) l,
  (forall x, In x l -> f x = true) -> filter f l = l.
Proof.
  intros A f l H. apply forallb_filter_id. now apply forallb_forall.
Qed.

Lemma filter_none : forall (A : Type) (f : A -> bool) l,
  (forall x, In x l -> f x = false) -> filter f l = [].
Proof.
  intros A f. induction l as [|x l IH]; simpl; intro H; [reflexivity|].
  rewrite (H x (or_introl eq_refl)). apply IH. intros y Hy. apply H. now right.
Qed.

Lemma key_columns_tagged : forall cols rs,
  plain_columns cols = true ->
  key_columns (mkFrame (cols ++ [col_rule_id; col_rule_desc]) rs) = cols.
Proof.
  intros cols rs H. apply plain_columns_spec in H as [_ [H1 [H2 _]]].
  apply mem_str_not_In in H1, H2.
  unfold key_columns. simpl columns. rewrite filter_app.
  assert (E : filter (fun col => negb (mem_str col [col_rule_id; col_rule_desc]))
                     [col_rule_id; col_rule_desc] = []) by reflexivity.
  rewrite E, app_nil_r. apply filter_all. intros x Hx.
  apply negb_true_iff. apply mem_str_not_In. intros [<-|[<-|[]]]; contradiction.
Qed.

Lemma filter_seq_single : forall (f : nat -> bool) len start i,
  start <= i < start + len ->
  (forall j, start <= j < start + len -> (f j = true <-> j = i)) ->
  filter f (seq start len) = [i].
Proof.
  intros f. induction len as [|len IH]; intros start i Hi Hf; [lia|].
  simpl. destruct (Nat.eq_dec start i) as [->|Hne].
  - assert (E : f i = true) by (apply Hf; [lia|reflexivity]). rewrite E. f_equal.
    apply filter_none. intros j Hj. apply in_seq in Hj.
    apply not_true_is_false. intro Hj'. apply Hf in Hj'; lia.
  - assert (E : f start = false).
    { apply not_true_is_false. intro H. apply Hf in H; lia. }
    rewrite E. apply IH; [lia|]. intros j Hj. apply Hf. lia.
Qed.

Lemma positions_of_nth : forall cols i,
  NoDup cols -> i < length cols -> positions_of (nth i cols []) cols = [i].
Proof.
  intros cols i Hn Hi. unfold positions_of. apply filter_seq_single; [lia|].
  intros j Hj. rewrite str_eqb_eq. split; [|now intros ->].
  intro E. apply (proj1 (NoDup_nth cols []) Hn); [lia|assumption|assumption].
Qed.

Lemma positions_of_at : forall pre x rest,
  NoDup (pre ++ x :: rest) -> positions_of x (pre ++ x :: rest) = [length pre].
Proof.
  intros pre x rest Hn.
  pose proof (positions_of_nth (pre ++ x :: rest) (length pre) Hn) as H.
  rewrite app_nth2, Nat.sub_diag in H by lia. simpl nth in H.
  apply H. rewrite length_app. simpl. lia.
Qed.

Lemma flat_map_positions : forall l pre post,
  NoDup (pre ++ l ++ post) ->
  flat_map (fun name => positions_of name (pre ++ l ++ post)) l
  = seq (length pre) (length l).
Proof.
  induction l as [|x l IH]; intros pre post Hn; [reflexivity|].
  simpl flat_map. simpl length. simpl seq.
  change ((x :: l) ++ post) with (x :: l ++ post) in *.
  rewrite positions_of_at by assumption. simpl. f_equal.
  replace (pre ++ x :: l ++ post) with ((pre ++ [x]) ++ l ++ post) in *
    by (now rewrite <- app_assoc).
  rewrite IH by assumption. rewrite length_app. simpl.
  now rewrite Nat.add_1_r.
Qed.

(** The claim a tagged row stands for is the tuple of the row it was
    made from. *)
Lemma select_tuple_tagged : forall cols rs rule_id rule_desc r0,
  plain_columns cols = true ->
  select_tuple (tag rule_id rule_desc (mkFrame cols rs))
               (key_columns (tag rule_id rule_desc (mkFrame cols rs)))
               (tag_row cols rule_id rule_desc r0)
  = fit (length cols) (cells r0).
Proof.
  intros cols rs rule_id rule_desc r0 H.
  assert (Ek : key_columns (tag rule_id rule_desc (mkFrame cols rs)) = cols).
  { unfold key_columns. rewrite tag_columns_plain by assumption.
    now apply (key_columns_tagged cols rs). }
  unfold select_tuple. rewrite Ek, tag_columns_plain by assumption.
  pose proof (flat_map_positions cols [] [col_rule_id; col_rule_desc]
                (plain_columns_tagged_NoDup cols H)) as Hp.
  simpl app in Hp. rewrite Hp. simpl length.
  rewrite tag_row_plain by assumption. simpl cells.
  apply (fit_fit_app (length cols) (cells r0)).
Qed.

Lemma claim_tuples_tag : forall cols rs rule_id rule_desc,
  plain_columns cols = true ->
  claim_tuples (tag rule_id rule_desc (mkFrame cols rs))
  = pool_tuples (mkFrame cols rs).
Proof.
  intros cols rs rule_id rule_desc H. unfold claim_tuples, pool_tuples.
  rewrite tag_rows. simpl columns. simpl rows. rewrite map_map.
  apply map_ext. intro r0. unfold row_tuple. simpl columns.
  now apply select_tuple_tagged.
Qed.

(** ** Exclusive attribution *)

Lemma select_mask_In : forall mask rs r, In r (select_mask mask rs) -> In r rs.
Proof.
  induction mask as [|b mask IH]; intros [|r0 rs] r H; simpl in H;
    try contradiction.
  destruct b.
  - destruct H as [->|H]; [now left|right; now apply IH].
  - right. now apply IH.
Qed.

Lemma map_snd_combine : forall (A B : Type) (a : list A) (b : list B),
  length a = length b -> map snd (combine a b) = b.
Proof.
  intros A B. induction a as [|x a IH]; intros [|y b] H; simpl in *;
    try reflexivity; try discriminate.
  f_equal. apply IH. lia.
Qed.

Lemma drop_column_absent : forall name df,
  mem_str name (columns df) = false ->
  drop_column name df
  = mkFrame (columns df)
      (map (fun r => mkRow (label r) (fit (length (columns df)) (cells r))) (rows df)).
Proof.
  intros name df H. apply mem_str_not_In in H. unfold drop_column. f_equal.
  - apply filter_all. intros x Hx. apply negb_true_iff, str_eqb_neq. congruence.
  - apply map_ext. intro r. f_equal. rewrite filter_all.
    + apply map_snd_combine. now rewrite fit_length.
    + intros [c v] Hcv. apply in_combine_l in Hcv. simpl.
      apply negb_true_iff, str_eqb_neq. congruence.
Qed.

Section Exclusivity.

Context {RT : Runtime}.

Lemma dispatch_result : forall rule pool result,
  dispatch rule pool = Some result -> tagged_part_of pool rule result.
Proof.
  intros rule pool result H. unfold dispatch in H.
  destruct (str_eqb (Level rule) (L "Record")).
  - inversion H; subst; clear H. unfold apply_record_level_rule, query.
    destruct (frame_eval pool _) as [mask|]; [|now left].
    destruct (length mask =? length (rows pool)); [|now left].
    destruct (negb _); [|now left].
    right. eexists. split; [|reflexivity]. intros r Hr. simpl in Hr.
    eapply select_mask_In; eauto.
  - destruct (str_eqb (Level rule) (L "DataSet")); [|discriminate].
    inversion H; subst; clear H. unfold apply_dataset_level_rule.
    destruct (dataset_rule_body _ _ _ _) as [result|] eqn:E; [|now left].
    apply dataset_rule_body_rows in E as [->|[filtered [rs [Hp [Hrs ->]]]]]; [now left|].
    right. exists rs. split; [|reflexivity].
    intros r Hr. eapply prefilter_rows; eauto.
Qed.

Lemma is_empty_empty_frame : is_empty empty_frame = true.
Proof. reflexivity. Qed.

(** The claims of a non-empty result are claims of the pool. *)
Lemma result_claims_in_pool : forall rule pool result t,
  plain_columns (columns pool) = true ->
  dispatch rule pool = Some result ->
  In t (claim_tuples result) -> In t (pool_tuples pool).
Proof.
  intros rule pool result t Hp Hd Ht.
  apply dispatch_result in Hd as [->|[rs [Hrs ->]]]; [destruct Ht|].
  rewrite claim_tuples_tag in Ht by assumption.
  unfold pool_tuples in *. simpl in Ht.
  apply in_map_iff in Ht as [r [<- Hr]].
  apply in_map_iff. exists r. split; [reflexivity|now apply Hrs].
Qed.

(** After the removal the pool has its columns, and each of its claims
    was in the pool before and has a merge key that was not identified. *)
Lemma remove_identified_spec : forall pool result,
  plain_columns (columns pool) = true ->
  columns (remove_identified pool result) = columns pool
  /\ forall t, In t (pool_tuples (remove_identified pool result)) ->
       In t (pool_tuples pool)
       /\ existsb (Z.eqb (tuple_hash t)) (identified_keys result) = false.
Proof.
  intros pool result Hp.
  pose proof (plain_columns_spec _ Hp) as [_ [_ [_ Hm]]].
  unfold remove_identified. rewrite drop_column_absent by exact Hm.
  simpl columns. split; [reflexivity|].
  intros t Ht. unfold pool_tuples in Ht. simpl in Ht.
  rewrite map_map in Ht. apply in_map_iff in Ht as [r [<- Hr]].
  apply filter_In in Hr as [Hr Hk]. apply negb_true_iff in Hk.
  unfold row_tuple. simpl. rewrite fit_fit. split.
  - unfold pool_tuples. apply in_map_iff. now exists r.
  - exact Hk.
Qed.

Lemma process_rules_exclusive : forall rules pool,
  plain_columns (columns pool) = true ->
  (forall out t, In out (process_rules rules pool) ->
                 In t (claim_tuples out) -> In t (pool_tuples pool))
  /\ ForallOrdPairs disjoint_claims (process_rules rules pool).
Proof.
  induction rules as [|rule rules IH]; intros pool Hp; simpl.
  - split; [intros out t []|constructor].
  - destruct (is_empty pool); [split; [intros out t []|constructor]|].
    destruct (dispatch rule pool) as [result|] eqn:Hd; [|now apply IH].
    destruct (negb (is_empty result)); [|now apply IH].
    destruct (remove_identified_spec pool result Hp) as [Hc Hrem].
    assert (Hp' : plain_columns (columns (remove_identified pool result)) = true)
      by (now rewrite Hc).
    destruct (IH _ Hp') as [IH1 IH2]. split.
    + intros out t [<-|Hout] Ht.
      * eapply result_claims_in_pool; eauto.
      * apply Hrem. eapply IH1; eauto.
    + constructor; [|exact IH2].
      apply Forall_forall. intros out Hout t Ht Ht'.
      pose proof (IH1 _ _ Hout Ht') as Hin.
      apply Hrem in Hin as [_ Hk].
      assert (Hk' : existsb (Z.eqb (tuple_hash t)) (identified_keys result) = true).
      { apply existsb_exists. exists (tuple_hash t). split; [|apply Z.eqb_refl].
        unfold identified_keys. now apply in_map. }
      congruence.
Qed.

End Exclusivity.

(** X25.  Where exclusive attribution holds.  For a claims table
    whose column names are pairwise distinct and are none of [rule_id],
    [rule_desc] and [__merge_key__], and which has no missing cell (so
    that the merge key of a row is a function of its cells), and for
    every rules table: the results of the rules, in the order in which
    the rules are processed, hold pairwise different claims, and every
    claim they hold is a claim of the table; and when a rule has matched
    on such a pool, no claim of its result is left in the pool the later
    rules are evaluated on. *)
Theorem exclusive_attribution_without_missing_cells `{RT : Runtime} :
  forall (rules_df : list Rule) (claims_df : DataFrame),
    plain_columns (columns claims_df) = true ->
    no_missing_cells claims_df = true ->
    ForallOrdPairs disjoint_claims (all_results rules_df claims_df)
    /\ (forall out t, In out (all_results rules_df claims_df) ->
                      In t (claim_tuples out) -> In t (pool_tuples claims_df))
    /\ (forall rule pool result t,
          plain_columns (columns pool) = true ->
          no_missing_cells pool = true ->
          dispatch rule pool = Some result ->
          In t (claim_tuples result) ->
          ~ In t (pool_tuples (remove_identified pool result))).
Proof.
  intros rules claims Hp _. unfold all_results.
  destruct (process_rules_exclusive (sort_rules rules) claims Hp) as [H1 H2].
  split; [exact H2|]. split; [exact H1|].
  intros rule pool result t Hpool _ Hd Ht Hin.
  apply (remove_identified_spec pool result Hpool) in Hin as [_ Hk].
  assert (Hk' : existsb (Z.eqb (tuple_hash t)) (identified_keys result) = true).
  { apply existsb_exists. exists (tuple_hash t). split; [|apply Z.eqb_refl].
    unfold identified_keys. now apply in_map. }
  congruence.
Qed.

(** On [tagged_claims], whose second column is called [rule_id], a
    result that holds the two claims without that column identifies
    none of them, when the merge key tells the cell [member_id] alone
    from the two cells of a row. *)
Lemma tagged_claims_stay `{RT : Runtime} :
  tuple_hash [VNum 7; VNum 100] <> tuple_hash [VNum 7] ->
  tuple_hash [VNum 7; VNum 200] <> tuple_hash [VNum 7] ->
  forall result,
    claim_tuples result = [[VNum 7]; [VNum 7]] ->
    remove_identified tagged_claims result = tagged_claims.
Proof.
  intros H1 H2 result Hc. apply Z.eqb_neq in H1, H2.
  unfold remove_identified, identified_keys. rewrite Hc.
  change (rows tagged_claims)
    with [mkRow 0 [VNum 7; VNum 100]; mkRow 1 [VNum 7; VNum 200]].
  cbn [map filter existsb].
  change (row_tuple tagged_claims (mkRow 0 [VNum 7; VNum 100]))
    with [VNum 7; VNum 100].
  change (row_tuple tagged_claims (mkRow 1 [VNum 7; VNum 200]))
    with [VNum 7; VNum 200].
  rewrite H1, H2. cbn [orb negb]. vm_compute. reflexivity.
Qed.

(** On that table the two rules of [repeat_rules] both return both
    claims. *)
Lemma repeat_rules_on_tagged_claims `{RT : Runtime} :
  tuple_hash [VNum 7; VNum 100] <> tuple_hash [VNum 7] ->
  tuple_hash [VNum 7; VNum 200] <> tuple_hash [VNum 7] ->
  exists out1 out2,
    all_results repeat_rules tagged_claims = [out1; out2]
    /\ claim_tuples out1 = [[VNum 7]; [VNum 7]]
    /\ claim_tuples out2 = [[VNum 7]; [VNum 7]]
    /\ map label (rows out1) = [0%Z; 1%Z]
    /\ map label (rows out2) = [0%Z; 1%Z].
Proof.
  intros H1 H2.
  set (out1 := apply_dataset_level_rule tagged_claims 1 (L "repeated member")
                 (L "member_id = member_id")).
  set (out2 := apply_dataset_level_rule tagged_claims 2 (L "repeated member again")
                 (L "member_id = member_id")).
  assert (C1 : claim_tuples out1 = [[VNum 7]; [VNum 7]]) by (vm_compute; reflexivity).
  assert (C2 : claim_tuples out2 = [[VNum 7]; [VNum 7]]) by (vm_compute; reflexivity).
  assert (D1 : dispatch (mkRule 1 (L "repeated member") (L "DataSet")
                           (L "member_id = member_id")) tagged_claims = Some out1)
    by (vm_compute; reflexivity).
  assert (D2 : dispatch (mkRule 2 (L "repeated member again") (L "DataSet")
                           (L "member_id = member_id")) tagged_claims = Some out2)
    by (vm_compute; reflexivity).
  assert (E1 : is_empty out1 = false) by (vm_compute; reflexivity).
  assert (E2 : is_empty out2 = false) by (vm_compute; reflexivity).
  exists out1, out2. split; [|repeat split; try assumption; vm_compute; reflexivity].
  unfold all_results.
  change (sort_rules repeat_rules) with repeat_rules.
  unfold repeat_rules. cbn [process_rules].
  change (is_empty tagged_claims) with false. cbv beta iota.
  rewrite D1, E1. cbn [negb]. cbv beta iota.
  rewrite (tagged_claims_stay H1 H2 out1 C1).
  change (is_empty tagged_claims) with false. cbv beta iota.
  rewrite D2, E2. reflexivity.
Qed.

(** C1.  Exclusive attribution fails on a claims table that has a
    column called [rule_id]: two claims of one member, and two DataSet
    rules that look for repeated members.  The tag of the first rule
    overwrites the column [rule_id], the merge key of a matched row is
    then computed without that column, no row of the pool has that key
    (the hash telling the one cell from the two cells of a row), nothing
    is removed, and the second rule returns the claims that the first
    rule returned: the two results are not disjoint, each of the two
    claims is in the output of both rules. *)
Theorem exclusive_attribution_fails_with_rule_id_column `{RT : Runtime} :
  tuple_hash [VNum 7; VNum 100] <> tuple_hash [VNum 7] ->
  tuple_hash [VNum 7; VNum 200] <> tuple_hash [VNum 7] ->
  (exists out1 out2,
     all_results repeat_rules tagged_claims = [out1; out2]
     /\ claim_tuples out1 = [[VNum 7]; [VNum 7]]
     /\ claim_tuples out2 = [[VNum 7]; [VNum 7]]
     /\ map label (rows out1) = [0%Z; 1%Z]
     /\ map label (rows out2) = [0%Z; 1%Z])
  /\ ~ ForallOrdPairs disjoint_claims (all_results repeat_rules tagged_claims).
Proof.
  intros K1 K2.
  pose proof (repeat_rules_on_tagged_claims K1 K2) as Hex.
  split; [exact Hex|].
  destruct Hex as [out1 [out2 [E [H1 [H2 _]]]]].
  rewrite E. intro H.
  inversion H as [|a l Hf _]; subst.
  inversion Hf as [|b l' Hd _]; subst.
  apply (Hd [VNum 7]); [rewrite H1|rewrite H2]; now left.
Qed.

(** ** Idempotence of the normaliser *)

(** *** The first substitution *)

Lemma next_is_eq_sub_equals : forall rest prev,
  next_is_eq rest = true -> next_is_eq (sub_equals prev rest) = true.
Proof.
  intros [|c rest] prev H; simpl in *; [discriminate|].
  destruct (bare_eq prev c rest); simpl; [reflexivity|assumption].
Qed.

Lemma sub_equals_cons : forall prev c rest,
  sub_equals prev (c :: rest)
  = if bare_eq prev c rest
    then ch_eq :: ch_eq :: sub_equals (Some c) rest
    else c :: sub_equals (Some c) rest.
Proof. reflexivity. Qed.

Lemma bare_eq_before_eq : forall prev c rest, bare_eq prev c (ch_eq :: rest) = false.
Proof. intros prev c rest. unfold bare_eq. simpl. now rewrite andb_false_r. Qed.

Lemma bare_eq_after_eq : forall c rest, bare_eq (Some ch_eq) c rest = false.
Proof.
  intros c rest. unfold bare_eq.
  replace (is_opchar ch_eq) with true by reflexivity.
  simpl. now rewrite andb_false_r.
Qed.

Lemma bare_eq_blocked : forall prev c rest,
  blocked prev = true -> bare_eq prev c rest = false.
Proof.
  intros prev c rest H. unfold bare_eq. fold (blocked prev). rewrite H.
  simpl. now rewrite andb_false_r.
Qed.

Lemma bare_eq_false : forall prev c rest,
  bare_eq prev c rest = false ->
  Ascii.eqb c ch_eq = false \/ blocked prev = true \/ next_is_eq rest = true.
Proof.
  intros prev c rest H. unfold bare_eq in H. fold (blocked prev) in H.
  destruct (Ascii.eqb c ch_eq); [|now left].
  destruct (blocked prev); [now right; left|].
  destruct (next_is_eq rest); [now right; right|discriminate].
Qed.

Lemma sub_equals_again : forall s prev prev',
  (blocked prev = true -> blocked prev' = true) ->
  sub_equals prev' (sub_equals prev s) = sub_equals prev s.
Proof.
  induction s as [|c rest IH]; intros prev prev' Hb; [reflexivity|].
  rewrite (sub_equals_cons prev c rest). destruct (bare_eq prev c rest) eqn:E.
  - rewrite sub_equals_cons, bare_eq_before_eq.
    rewrite sub_equals_cons, bare_eq_after_eq.
    f_equal. f_equal. apply IH. intros _. reflexivity.
  - rewrite sub_equals_cons.
    replace (bare_eq prev' c (sub_equals (Some c) rest)) with false.
    + f_equal. apply IH. auto.
    + symmetry. apply bare_eq_false in E as [E|[E|E]].
      * unfold bare_eq. now rewrite E.
      * apply bare_eq_blocked. auto.
      * apply (next_is_eq_sub_equals rest (Some c)) in E.
        destruct (sub_equals (Some c) rest) as [|d x]; [discriminate|].
        simpl in E. apply Ascii.eqb_eq in E. subst d. apply bare_eq_before_eq.
Qed.

Lemma sub_equals_idempotent : forall s,
  sub_equals None (sub_equals None s) = sub_equals None s.
Proof. intro s. apply sub_equals_again. auto. Qed.

(** *** Decimal numerals *)

Lemma code_digit : forall m, m < 10 -> code (ascii_of_nat (48 + m)) = 48 + m.
Proof. intros m H. unfold code. apply nat_ascii_embedding. lia. Qed.

Lemma digits_rev_S : forall fuel n,
  digits_rev (S fuel) n
  = ascii_of_nat (48 + n mod 10) :: (if n <? 10 then [] else digits_rev fuel (n / 10)).
Proof. reflexivity. Qed.

Lemma value_rev_cons : forall c ds,
  value_rev (c :: ds) = (code c - 48) + 10 * value_rev ds.
Proof. reflexivity. Qed.

Lemma digits_rev_value : forall fuel n, n < fuel -> value_rev (digits_rev fuel n) = n.
Proof.
  induction fuel as [|fuel IH]; intros n H; [lia|].
  rewrite digits_rev_S, value_rev_cons.
  assert (Hm : n mod 10 < 10) by (apply Nat.mod_upper_bound; lia).
  rewrite code_digit by assumption.
  destruct (n <? 10) eqn:E.
  - apply Nat.ltb_lt in E. change (value_rev []) with 0.
    rewrite Nat.mod_small by assumption. lia.
  - apply Nat.ltb_ge in E. rewrite IH.
    + pose proof (Nat.div_mod_eq n 10). lia.
    + assert (n / 10 < n) by (apply Nat.div_lt; lia). lia.
Qed.

Lemma str_of_nat_inj : forall a b, str_of_nat a = str_of_nat b -> a = b.
Proof.
  intros a b H. unfold str_of_nat in H.
  apply (f_equal (@rev ascii)) in H. rewrite !rev_involutive in H.
  apply (f_equal value_rev) in H.
  now rewrite !digits_rev_value in H by lia.
Qed.

Lemma digit_char_is_digit : forall m, m < 10 -> is_digit (ascii_of_nat (48 + m)) = true.
Proof.
  intros m H.
  do 10 (destruct m as [|m]; [reflexivity|]). lia.
Qed.

Lemma digits_rev_digits : forall fuel n, all_in is_digit (digits_rev fuel n).
Proof.
  induction fuel as [|fuel IH]; intro n; [constructor|].
  rewrite digits_rev_S. constructor.
  - apply digit_char_is_digit. apply Nat.mod_upper_bound. lia.
  - destruct (n <? 10); [constructor|apply IH].
Qed.

Lemma str_of_nat_digits : forall n, all_in is_digit (str_of_nat n).
Proof.
  intro n. unfold str_of_nat, all_in. apply Forall_rev. apply digits_rev_digits.
Qed.

Lemma digit_not_us : forall c, is_digit c = true -> Ascii.eqb c ch_us = false.
Proof. intro c. by_chars c. Qed.

Lemma digit_not_Q : forall c, is_digit c = true -> Ascii.eqb c ch_Q = false.
Proof. intro c. by_chars c. Qed.

(** Two numerals, each followed by an underscore: the first starts the
    second only if they are the same numeral. *)
Lemma numeral_prefix : forall dk dj x y,
  all_in is_digit dk -> all_in is_digit dj -> dk <> dj ->
  starts_with (dk ++ ch_us :: x) (dj ++ ch_us :: y) = false.
Proof.
  induction dk as [|c dk IH]; intros [|d dj] x y Hk Hj Hne.
  - contradiction.
  - cbn [starts_with app]. inversion Hj; subst.
    rewrite Ascii.eqb_sym. now rewrite digit_not_us.
  - cbn [starts_with app]. inversion Hk; subst. now rewrite digit_not_us.
  - cbn [starts_with app]. inversion Hk; subst. inversion Hj; subst.
    destruct (Ascii.eqb c d) eqn:E; [|reflexivity]. cbn [andb].
    apply Ascii.eqb_eq in E. subst d. apply IH; try assumption. congruence.
Qed.

(** *** Texts without the key of the placeholders *)

Lemma starts_with_iff : forall p s, starts_with p s = true <-> exists r, s = p ++ r.
Proof.
  intros p s. split; [apply starts_with_spec|].
  intros [r ->]. apply starts_with_app.
Qed.

Lemma contains_spec : forall p s,
  contains p s = true <-> exists x y, s = x ++ p ++ y.
Proof.
  intros p. induction s as [|c s IH].
  - simpl. rewrite orb_false_r. rewrite starts_with_iff. split.
    + intros [r E]. now exists [], r.
    + intros [x [y E]]. destruct x as [|c x]; [|discriminate]. now exists y.
  - cbn [contains]. rewrite orb_true_iff, starts_with_iff, IH. split.
    + intros [[r E]|[x [y E]]].
      * now exists [], r.
      * exists (c :: x), y. now rewrite E.
    + intros [x [y E]]. destruct x as [|d x].
      * left. now exists y.
      * right. inversion E; subst. now exists x, y.
Qed.

Lemma k_free_spec : forall s, k_free s <-> forall x y, s <> x ++ quote_key ++ y.
Proof.
  intro s. unfold k_free. split.
  - intros H x y E. assert (contains quote_key s = true) by (apply contains_spec; eauto).
    congruence.
  - intro H. apply not_true_is_false. intro C. apply contains_spec in C as [x [y E]].
    now apply (H x y).
Qed.

Lemma k_free_prefix : forall a b, k_free (a ++ b) -> k_free a.
Proof.
  intros a b H. apply k_free_spec. intros x y E. subst.
  apply (proj1 (k_free_spec _) H x (y ++ b)). now rewrite <- !app_assoc.
Qed.

Lemma k_free_suffix : forall a b, k_free (a ++ b) -> k_free b.
Proof.
  intros a b H. apply k_free_spec. intros x y E. subst.
  apply (proj1 (k_free_spec _) H (a ++ x) y). now rewrite <- !app_assoc.
Qed.

Lemma k_free_tail : forall c a, k_free (c :: a) -> k_free a.
Proof. intros c a H. now apply (k_free_suffix [c]). Qed.

Lemma k_free_q_free_app : forall a b, q_free a -> k_free b -> k_free (a ++ b).
Proof.
  induction a as [|c a IH]; intros b Ha Hb; [exact Hb|].
  inversion Ha as [|? ? Hc Ha']; subst.
  apply k_free_spec. intros x y E. destruct x as [|d x].
  - simpl in E. inversion E; subst. discriminate.
  - inversion E; subst.
    apply (proj1 (k_free_spec _) (IH b Ha' Hb) x y). assumption.
Qed.

(** *** Placeholders *)

Lemma placeholder_unfold : forall i,
  placeholder i = ch_us :: ch_us :: ch_Q :: placeholder_tail i.
Proof. reflexivity. Qed.

Lemma placeholder_key : forall i,
  placeholder i = ch_us :: ch_us :: quote_key ++ str_of_nat i ++ L "__".
Proof. reflexivity. Qed.

Lemma q_free_app : forall a b, q_free a -> q_free b -> q_free (a ++ b).
Proof. intros a b Ha Hb. apply Forall_app. now split. Qed.

Lemma placeholder_tail_q_free : forall i, q_free (placeholder_tail i).
Proof.
  intro i. unfold placeholder_tail. apply q_free_app; [now repeat constructor|].
  apply q_free_app; [|now repeat constructor].
  eapply Forall_impl; [|apply str_of_nat_digits]. exact digit_not_Q.
Qed.

Lemma placeholder_distinct : forall k j s,
  k <> j -> starts_with (placeholder k) (placeholder j ++ s) = false.
Proof.
  intros k j s H. unfold placeholder.
  change (L "__QUOTE_") with ([ch_us; ch_us; ch_Q] ++ L "UOTE_").
  rewrite <- !app_assoc. simpl.
  change (L "__") with [ch_us; ch_us]. simpl.
  apply numeral_prefix; try apply str_of_nat_digits.
  intro E. apply str_of_nat_inj in E. contradiction.
Qed.

Lemma digits_rev_nonempty : forall fuel n, digits_rev (S fuel) n <> [].
Proof. intros fuel n. rewrite digits_rev_S. discriminate. Qed.

Lemma str_of_nat_head : forall n,
  exists c d, str_of_nat n = c :: d /\ is_digit c = true.
Proof.
  intro n. pose proof (str_of_nat_digits n) as H.
  destruct (str_of_nat n) as [|c d] eqn:E.
  - unfold str_of_nat in E. apply (f_equal (@rev ascii)) in E.
    rewrite rev_involutive in E. simpl rev in E.
    now apply digits_rev_nonempty in E.
  - exists c, d. split; [reflexivity|]. now inversion H.
Qed.

(** The key, followed by a digit, does not lie across the end of a text
    without the key and the two underscores that follow the text. *)
Lemma key_across : forall a rest c y,
  k_free a -> a <> [] ->
  a ++ ch_us :: ch_us :: rest = quote_key ++ c :: y ->
  is_digit c = true -> False.
Proof.
  intros a rest c y Hk Hne E Hc.
  destruct a as [|b0 [|b1 [|b2 [|b3 [|b4 [|b5 a]]]]]];
    try contradiction; cbn in E; inversion E; subst; try discriminate.
Qed.

(** A placeholder does not start inside a text without the key, be the
    text followed by a placeholder or by nothing. *)
Lemma no_start_before_placeholder : forall k j a s,
  k_free a -> a <> [] ->
  starts_with (placeholder k) (a ++ placeholder j ++ s) = false.
Proof.
  intros k j a s Hk Hne.
  destruct (starts_with _ _) eqn:E; [exfalso|reflexivity].
  apply starts_with_spec in E as [r E].
  destruct (str_of_nat_head k) as [c [d [Ed Hc]]].
  rewrite (placeholder_key k), Ed in E. rewrite (placeholder_key j) in E.
  destruct a as [|c1 [|c2 a]]; [contradiction| |].
  - cbn in E. inversion E.
  - destruct a as [|c3 a].
    + cbn in E. inversion E.
    + assert (Ha : k_free (c3 :: a)) by (apply (k_free_suffix [c1; c2]); exact Hk).
      cbn [app] in E. inversion E as [[E1 E2 E3 E4]]. subst c3.
      eapply (key_across (ch_Q :: a)); [exact Ha|discriminate| |exact Hc].
      cbn. f_equal. exact E4.
Qed.

Lemma no_start_in_text : forall k a, k_free a -> starts_with (placeholder k) a = false.
Proof.
  intros k a Hk. destruct (starts_with _ _) eqn:E; [exfalso|reflexivity].
  apply starts_with_spec in E as [r E]. rewrite placeholder_key in E.
  apply (proj1 (k_free_spec _) Hk [ch_us; ch_us] (str_of_nat k ++ L "__" ++ r)).
  rewrite E. cbn [app]. now rewrite <- !app_assoc.
Qed.

(** *** Replacing placeholders *)

Lemma replace_from_step_no : forall old new c s,
  starts_with old (c :: s) = false ->
  replace_from old new 0 (c :: s) = c :: replace_from old new 0 s.
Proof. intros old new c s H. simpl replace_from. now rewrite H. Qed.

Lemma replace_from_step_yes : forall old new c s,
  starts_with old (c :: s) = true ->
  replace_from old new 0 (c :: s) = new ++ replace_from old new (length old - 1) s.
Proof. intros old new c s H. simpl replace_from. now rewrite H. Qed.

Lemma replace_from_skip : forall old new a k b,
  replace_from old new (length a + k) (a ++ b) = replace_from old new k b.
Proof.
  intros old new. induction a as [|c a IH]; intros k b; [reflexivity|apply IH].
Qed.

(** A text without the key in front of a placeholder is copied. *)
Lemma replace_text : forall k new j s a,
  k_free a ->
  replace_from (placeholder k) new 0 (a ++ placeholder j ++ s)
  = a ++ replace_from (placeholder k) new 0 (placeholder j ++ s).
Proof.
  intros k new j s. induction a as [|c a IH]; intro Ha; [reflexivity|].
  change ((c :: a) ++ placeholder j ++ s) with (c :: a ++ placeholder j ++ s).
  rewrite replace_from_step_no.
  - cbn [app]. f_equal. apply IH. eapply k_free_tail; eauto.
  - apply (no_start_before_placeholder k j (c :: a) s); [assumption|discriminate].
Qed.

Lemma replace_k_free : forall k new a,
  k_free a -> replace_from (placeholder k) new 0 a = a.
Proof.
  intros k new. induction a as [|c a IH]; intro Ha; [reflexivity|].
  rewrite replace_from_step_no by (now apply no_start_in_text).
  f_equal. apply IH. eapply k_free_tail; eauto.
Qed.

(** A placeholder does not occur in a text whose placeholders all have
    greater numbers. *)
Lemma replace_absent : forall new k i u out,
  holes i u out -> k < i -> k_free u ->
  forall pre, q_free pre ->
    replace_from (placeholder k) new 0 (pre ++ out) = pre ++ out.
Proof.
  intros new k i u out H.
  induction H as [i u|i t content u' out' H IH]; intros Hk Hu pre Hpre.
  - apply replace_k_free. now apply k_free_q_free_app.
  - assert (Ht : k_free t) by (eapply k_free_prefix; eauto).
    assert (Hu' : k_free u').
    { apply k_free_suffix in Hu. apply (k_free_suffix (dq :: content ++ [dq])).
      cbn [app]. rewrite <- app_assoc. exact Hu. }
    rewrite app_assoc.
    rewrite replace_text by (now apply k_free_q_free_app). f_equal.
    pose proof (placeholder_distinct k i out' ltac:(lia)) as Hd.
    rewrite (placeholder_unfold i) in Hd |- *.
    change ((ch_us :: ch_us :: ch_Q :: placeholder_tail i) ++ out')
      with (ch_us :: ch_us :: ch_Q :: placeholder_tail i ++ out') in *.
    rewrite (replace_from_step_no _ _ _ _ Hd). f_equal.
    rewrite replace_from_step_no by (rewrite placeholder_unfold; reflexivity).
    f_equal.
    rewrite replace_from_step_no by (rewrite placeholder_unfold; reflexivity).
    f_equal.
    apply IH; [lia|exact Hu'|apply placeholder_tail_q_free].
Qed.

Lemma str_replace_placeholder : forall k new s,
  str_replace (placeholder k) new s = replace_from (placeholder k) new 0 s.
Proof.
  intros k new s. unfold str_replace.
  destruct (placeholder k) eqn:E; [|reflexivity].
  rewrite placeholder_unfold in E. discriminate.
Qed.

(** The placeholder that stands in a text is replaced, and nothing else
    is. *)
Lemma replace_at_placeholder : forall new k a u out,
  k_free a -> holes (S k) u out -> k_free u ->
  str_replace (placeholder k) new (a ++ placeholder k ++ out) = a ++ new ++ out.
Proof.
  intros new k a u out Ha Hs Hu. rewrite str_replace_placeholder.
  rewrite replace_text by assumption. f_equal.
  pose proof (starts_with_app (placeholder k) out) as Hst.
  pose proof (replace_absent new k (S k) u out Hs (Nat.lt_succ_diag_r k) Hu []
                (Forall_nil _)) as Hab.
  simpl app in Hab.
  remember (placeholder k) as P eqn:EP.
  destruct P as [|c P']; [rewrite placeholder_unfold in EP; discriminate|].
  change ((c :: P') ++ out) with (c :: P' ++ out) in *.
  rewrite (replace_from_step_yes _ _ _ _ Hst). f_equal.
  replace (length (c :: P') - 1) with (length P' + 0) by (simpl; lia).
  rewrite replace_from_skip. exact Hab.
Qed.

(** *** The quoted spans *)

Lemma quote_scan_skip : forall a k i b,
  quote_scan (length a + k) i (a ++ b) = quote_scan k i b.
Proof. induction a as [|c a IH]; intros k i b; [reflexivity|apply IH]. Qed.

Lemma find_close_spec : forall s content,
  find_close s = Some content -> exists s', s = content ++ dq :: s'.
Proof.
  induction s as [|c s IH]; simpl; intros content H; [discriminate|].
  destruct (Ascii.eqb c dq) eqn:E.
  - inversion H; subst. apply Ascii.eqb_eq in E. subst. now exists s.
  - destruct (find_close s) as [content'|]; [|discriminate].
    inversion H; subst. destruct (IH _ eq_refl) as [s' ->]. now exists s'.
Qed.

Lemma find_close_none : forall s, find_close s = None -> no_quote s.
Proof.
  induction s as [|c s IH]; simpl; intro H; [constructor|].
  destruct (Ascii.eqb c dq) eqn:E; [discriminate|].
  destruct (find_close s) eqn:F; [discriminate|].
  constructor; [exact E|now apply IH].
Qed.

Lemma quote_scan_step_char : forall c s i,
  Ascii.eqb c dq = false ->
  quote_scan 0 i (c :: s) = (c :: fst (quote_scan 0 i s), snd (quote_scan 0 i s)).
Proof.
  intros c s i H. cbn [quote_scan]. rewrite H. now destruct (quote_scan 0 i s).
Qed.

Lemma quote_scan_step_open : forall s i,
  find_close s = None ->
  quote_scan 0 i (dq :: s) = (dq :: fst (quote_scan 0 i s), snd (quote_scan 0 i s)).
Proof.
  intros s i H. cbn [quote_scan]. rewrite Ascii.eqb_refl, H.
  now destruct (quote_scan 0 i s).
Qed.

Lemma quote_scan_step_quote : forall content s' i,
  find_close (content ++ dq :: s') = Some content ->
  quote_scan 0 i (dq :: content ++ dq :: s')
  = (placeholder i ++ fst (quote_scan 0 (S i) s'),
     (placeholder i, dq :: content ++ [dq]) :: snd (quote_scan 0 (S i) s')).
Proof.
  intros content s' i H. cbn [quote_scan]. rewrite Ascii.eqb_refl, H.
  replace (quote_scan (S (length content)) (S i) (content ++ dq :: s'))
    with (quote_scan 0 (S i) s').
  - now destruct (quote_scan 0 (S i) s').
  - symmetry.
    replace (content ++ dq :: s') with ((content ++ [dq]) ++ s')
      by (now rewrite <- app_assoc).
    replace (S (length content)) with (length (content ++ [dq]) + 0)
      by (rewrite length_app; simpl; lia).
    apply quote_scan_skip.
Qed.

Lemma quote_scan_no_quote : forall s i, no_quote s -> quote_scan 0 i s = (s, []).
Proof.
  induction s as [|c s IH]; intros i H; [reflexivity|].
  inversion H; subst. rewrite quote_scan_step_char by assumption.
  now rewrite IH.
Qed.

Lemma holes_prepend : forall c i u out, holes i u out -> holes i (c :: u) (c :: out).
Proof.
  intros c i u out H. destruct H as [i u|i t content u' out' H].
  - apply holes_none.
  - apply (holes_hole i (c :: t)). exact H.
Qed.

(** Setting the quoted spans aside and putting them back changes nothing
    in a text without the key. *)
Lemma quotes_restored : forall n u,
  length u <= n ->
  forall i pre, k_free (pre ++ u) ->
    restore_quotes (snd (quote_scan 0 i u)) (pre ++ fst (quote_scan 0 i u)) = pre ++ u
    /\ holes i u (fst (quote_scan 0 i u)).
Proof.
  induction n as [|n IH]; intros u Hn i pre Hu.
  - destruct u; [|simpl in Hn; lia]. split; [reflexivity|apply holes_none].
  - destruct u as [|c s]; [split; [reflexivity|apply holes_none]|].
    simpl in Hn.
    destruct (Ascii.eqb c dq) eqn:E.
    + apply Ascii.eqb_eq in E. subst c.
      destruct (find_close s) as [content|] eqn:F.
      * destruct (find_close_spec _ _ F) as [s' ->].
        rewrite quote_scan_step_quote by assumption. cbn [fst snd].
        rewrite length_app in Hn. simpl in Hn.
        assert (Hu2 : k_free ((pre ++ dq :: content ++ [dq]) ++ s')).
        { rewrite <- app_assoc. cbn [app]. now rewrite <- app_assoc. }
        destruct (IH s' ltac:(lia) (S i) (pre ++ dq :: content ++ [dq]) Hu2)
          as [IH1 IH2].
        split.
        -- unfold restore_quotes in *. cbn [fold_left fst snd].
           rewrite (replace_at_placeholder _ _ _ s').
           ++ rewrite app_assoc. rewrite IH1.
              rewrite <- !app_assoc. cbn [app]. now rewrite <- app_assoc.
           ++ eapply k_free_prefix; eauto.
           ++ exact IH2.
           ++ eapply k_free_suffix; eauto.
        -- apply (holes_hole i [] content s'). exact IH2.
      * rewrite quote_scan_step_open by assumption.
        rewrite quote_scan_no_quote by (now apply find_close_none).
        split; [reflexivity|apply holes_none].
    + rewrite quote_scan_step_char by assumption. cbn [fst snd].
      assert (Hu2 : k_free ((pre ++ [c]) ++ s)) by (now rewrite <- app_assoc).
      destruct (IH s ltac:(lia) i (pre ++ [c]) Hu2) as [IH1 IH2].
      split.
      * rewrite <- !app_assoc in IH1. exact IH1.
      * now apply holes_prepend.
Qed.

(** *** The first substitution and the key *)

(** A text without [=] that starts the result of the first substitution
    starts its argument. *)
Lemma starts_with_sub_equals : forall w s prev,
  Forall (fun c => Ascii.eqb c ch_eq = false) w ->
  starts_with w (sub_equals prev s) = true -> starts_with w s = true.
Proof.
  induction w as [|x w IH]; intros s prev Hw H; [reflexivity|].
  inversion Hw as [|? ? Hx Hw']; subst.
  destruct s as [|c rest]; [discriminate|].
  rewrite sub_equals_cons in H. destruct (bare_eq prev c rest).
  - cbn [starts_with] in H. rewrite Hx in H. discriminate.
  - cbn [starts_with] in H |- *. apply andb_true_iff in H as [H1 H2].
    rewrite H1. cbn [andb]. eapply IH; eauto.
Qed.

Lemma contains_sub_equals : forall w s prev,
  Forall (fun c => Ascii.eqb c ch_eq = false) w -> w <> [] ->
  contains w (sub_equals prev s) = true -> contains w s = true.
Proof.
  intros w. induction s as [|c rest IH]; intros prev Hw Hne H.
  - destruct w; [contradiction|discriminate].
  - rewrite sub_equals_cons in H. cbn [contains].
    destruct (bare_eq prev c rest) eqn:B.
    + destruct w as [|x w]; [contradiction|].
      inversion Hw as [|? ? Hx Hw']; subst.
      cbn [contains starts_with] in H. rewrite Hx in H. cbn [andb orb] in H.
      rewrite (IH (Some c) Hw Hne H). apply orb_true_r.
    + cbn [contains] in H. apply orb_true_iff in H as [H|H].
      * assert (H' : starts_with w (sub_equals prev (c :: rest)) = true)
          by (now rewrite sub_equals_cons, B).
        rewrite (starts_with_sub_equals _ _ _ Hw H'). reflexivity.
      * rewrite (IH (Some c) Hw Hne H). apply orb_true_r.
Qed.

Lemma sub_equals_k_free : forall s prev, k_free s -> k_free (sub_equals prev s).
Proof.
  intros s prev H. unfold k_free in *. apply not_true_is_false. intro C.
  apply contains_sub_equals in C; [congruence| |discriminate].
  now repeat constructor.
Qed.

(** On a text without the key the normaliser is the first substitution. *)
Lemma parse_condition_k_free : forall s,
  k_free s -> parse_condition_for_record_rule s = sub_equals None s.
Proof.
  intros s H. unfold parse_condition_for_record_rule.
  pose proof (quotes_restored (length (sub_equals None s)) (sub_equals None s)
                (Nat.le_refl _) 0 [] (sub_equals_k_free s None H)) as [E _].
  simpl app in E. now destruct (quote_scan 0 0 (sub_equals None s)).
Qed.

(** X26.  Where the normaliser is idempotent.  On every condition in
    which the text [QUOTE_] does not occur, so that no part of it can be
    read as one of the placeholders [__QUOTE_i__], normalising the
    normalised condition gives the normalised condition. *)
Theorem normalisation_idempotent_without_placeholder_text :
  forall s : str,
    k_free s ->
    parse_condition_for_record_rule (parse_condition_for_record_rule s)
    = parse_condition_for_record_rule s.
Proof.
  intros s H.
  rewrite (parse_condition_k_free s H).
  rewrite parse_condition_k_free by (now apply sub_equals_k_free).
  apply sub_equals_idempotent.
Qed.

(** C6.  The normaliser is not idempotent on a condition that holds the
    text of its own placeholders.  On [literal_placeholder_condition]
    (the text of placeholder 0, a quoted x, the text of placeholder 1)
    the quoted span is set aside as placeholder 0 and put back by
    [str.replace], which also replaces the text of placeholder 0 that
    the condition held; normalising the result sets two quoted spans
    aside, as placeholders 0 and 1, and putting them back replaces the
    text of placeholder 1 as well.  The second normalisation changes
    the result of the first. *)
Theorem normalisation_not_idempotent_on_placeholder_text :
  parse_condition_for_record_rule literal_placeholder_condition
  = quoted (L "x") ++ L " " ++ quoted (L "x") ++ L " __QUOTE_1__"
  /\ parse_condition_for_record_rule
       (parse_condition_for_record_rule literal_placeholder_condition)
     = quoted (L "x") ++ L " " ++ quoted (L "x") ++ L " " ++ quoted (L "x")
  /\ parse_condition_for_record_rule
       (parse_condition_for_record_rule literal_placeholder_condition)
     <> parse_condition_for_record_rule literal_placeholder_condition.
Proof.
  split; [vm_compute; reflexivity|].
  split; [vm_compute; reflexivity|].
  vm_compute. discriminate.
Qed.

(** ** Record rules and failing rows *)

(** C4, as it holds.  [apply_record_level_rule] evaluates the query on
    the whole pool under one guard.  When the evaluation raises, for
    whatever reason and in whatever row, the result is the empty frame
    and nothing is raised; when it gives a mask, the result is the
    frame of the rows the mask selects, tagged, or the empty frame when
    it selects none.  In every case a row of the result is the tagged
    form of a row of the pool. *)
Theorem record_rule_is_guarded_as_a_whole `{RT : Runtime} :
  forall (pool : DataFrame) (rule_id : Z) (rule_desc rule_condition : str),
    (frame_eval pool (parse_condition_for_record_rule rule_condition) = None ->
     apply_record_level_rule pool rule_id rule_desc rule_condition = empty_frame)
    /\ (forall mask,
          frame_eval pool (parse_condition_for_record_rule rule_condition) = Some mask ->
          length mask = length (rows pool) ->
          apply_record_level_rule pool rule_id rule_desc rule_condition
          = if is_empty (mkFrame (columns pool) (select_mask mask (rows pool)))
            then empty_frame
            else tag rule_id rule_desc
                   (mkFrame (columns pool) (select_mask mask (rows pool))))
    /\ (forall r,
          In r (rows (apply_record_level_rule pool rule_id rule_desc rule_condition)) ->
          exists r0, In r0 (rows pool) /\ r = tag_row (columns pool) rule_id rule_desc r0).
Proof.
  intros pool rule_id rule_desc cond.
  unfold apply_record_level_rule, query. split; [|split].
  - intro H. now rewrite H.
  - intros mask H Hl. rewrite H.
    apply Nat.eqb_eq in Hl. rewrite Hl.
    now destruct (is_empty _).
  - intros r Hr.
    destruct (frame_eval pool _) as [mask|]; [|destruct Hr].
    destruct (length mask =? length (rows pool)); [|destruct Hr].
    destruct (negb _); [|destruct Hr].
    rewrite tag_rows in Hr. simpl in Hr.
    apply in_map_iff in Hr as [r0 [<- Hr0]].
    exists r0. split; [eapply select_mask_In; eauto|reflexivity].
Qed.

(** C4, as stated, fails: with an engine that cannot order a text and a
    number, the text in the second claim makes the evaluation of
    [paid_amount > 1000] raise, and the rule returns nothing, although
    the first claim, evaluated on its own, satisfies the condition and
    is what the row-by-row reading returns. *)
Lemma record_rule_is_not_row_by_row :
  apply_record_level_rule (RT := demo_runtime) mixed_claims 1 (L "high amount") amount_condition
  = empty_frame
  /\ record_rule_row_by_row (RT := demo_runtime) mixed_claims 1 (L "high amount") amount_condition
     = mkFrame [L "claim_id"; L "paid_amount"; col_rule_id; col_rule_desc]
         [mkRow 0 [VNum 1; VNum 1500; VNum 1; VStr (L "high amount")]]
  /\ apply_record_level_rule (RT := demo_runtime) mixed_claims 1 (L "high amount") amount_condition
     <> record_rule_row_by_row (RT := demo_runtime) mixed_claims 1 (L "high amount") amount_condition.
Proof.
  split; [vm_compute; reflexivity|]. split; [vm_compute; reflexivity|].
  vm_compute. discriminate.
Qed.

(** ** The normaliser: what it changes and what it leaves *)

Lemma bare_eq_is_eq : forall prev c rest,
  bare_eq prev c rest = true -> Ascii.eqb c ch_eq = true.
Proof.
  intros prev c rest H. unfold bare_eq in H.
  apply andb_true_iff in H as [H _]. now apply andb_true_iff in H as [H _].
Qed.

Lemma without_eq_sub_equals : forall s prev,
  without_eq (sub_equals prev s) = without_eq s.
Proof.
  induction s as [|c rest IH]; intro prev; [reflexivity|].
  rewrite sub_equals_cons. destruct (bare_eq prev c rest) eqn:E.
  - apply bare_eq_is_eq in E. unfold without_eq in *.
    cbn [filter]. rewrite Ascii.eqb_refl, E. cbn [negb]. apply IH.
  - unfold without_eq in *. cbn [filter]. now rewrite IH.
Qed.

Lemma has_bare_eq_cons : forall prev c rest,
  has_bare_eq prev (c :: rest) = bare_eq prev c rest || has_bare_eq (Some c) rest.
Proof. reflexivity. Qed.

Lemma bare_eq_not_eq : forall prev c rest,
  Ascii.eqb c ch_eq = false -> bare_eq prev c rest = false.
Proof. intros prev c rest H. unfold bare_eq. now rewrite H. Qed.

Lemma bare_eq_next : forall prev c rest,
  next_is_eq rest = true -> bare_eq prev c rest = false.
Proof. intros prev c rest H. unfold bare_eq. rewrite H. apply andb_false_r. Qed.

Lemma sub_equals_no_bare_eq : forall s prev prev',
  (blocked prev = true -> blocked prev' = true) ->
  has_bare_eq prev' (sub_equals prev s) = false.
Proof.
  induction s as [|c rest IH]; intros prev prev' Hb; [reflexivity|].
  rewrite sub_equals_cons. destruct (bare_eq prev c rest) eqn:E.
  - rewrite !has_bare_eq_cons, bare_eq_before_eq, bare_eq_after_eq.
    cbn [orb]. apply IH. intros _. reflexivity.
  - rewrite has_bare_eq_cons, (IH (Some c) (Some c)), orb_false_r by auto.
    apply bare_eq_false in E as [E|[E|E]].
    + now apply bare_eq_not_eq.
    + apply bare_eq_blocked. auto.
    + apply bare_eq_next. now apply next_is_eq_sub_equals.
Qed.

Lemma sub_equals_no_quote : forall s prev, no_quote s -> no_quote (sub_equals prev s).
Proof.
  induction s as [|c rest IH]; intros prev H; [constructor|].
  inversion H as [|? ? Hc Hr]; subst. rewrite sub_equals_cons.
  destruct (bare_eq prev c rest) eqn:E.
  - apply bare_eq_is_eq in E. apply Ascii.eqb_eq in E. subst c.
    constructor; [exact Hc|]. constructor; [exact Hc|]. now apply IH.
  - constructor; [exact Hc|]. now apply IH.
Qed.

Lemma parse_condition_no_quote : forall s,
  no_quote s -> parse_condition_for_record_rule s = sub_equals None s.
Proof.
  intros s H. unfold parse_condition_for_record_rule.
  rewrite quote_scan_no_quote by now apply sub_equals_no_quote.
  reflexivity.
Qed.

Lemma parse_condition_plain : forall s,
  k_free s \/ no_quote s -> parse_condition_for_record_rule s = sub_equals None s.
Proof.
  intros s [H|H]; [now apply parse_condition_k_free|now apply parse_condition_no_quote].
Qed.

(** X1.  On a condition in which the text QUOTE_ does not occur, or
    which has no double quote, the normaliser changes nothing but equals
    signs: the condition and its normal form are the same text once the
    equals signs are taken out of both, and the normal form is at least
    as long as the condition. *)
Theorem normaliser_changes_equals_signs_only :
  forall s : str,
    k_free s \/ no_quote s ->
    without_eq (parse_condition_for_record_rule s) = without_eq s
    /\ length s <= length (parse_condition_for_record_rule s).
Proof.
  intros s H. rewrite (parse_condition_plain s H). split.
  - apply without_eq_sub_equals.
  - clear H. generalize (@None ascii). induction s as [|c rest IH]; intro prev; [reflexivity|].
    rewrite sub_equals_cons. specialize (IH (Some c)).
    destruct (bare_eq prev c rest); simpl; lia.
Qed.

(** X2.  On such a condition the normal form has no single equals
    sign left: every [=] of it follows one of [<], [>], [=], [!] or is
    followed by [=], so that the substitution finds nothing to double in
    it. *)
Theorem normaliser_leaves_no_single_equals :
  forall s : str,
    k_free s \/ no_quote s ->
    has_bare_eq None (parse_condition_for_record_rule s) = false.
Proof.
  intros s H. rewrite (parse_condition_plain s H).
  apply sub_equals_no_bare_eq. auto.
Qed.

(** X3.  On a condition without a double quote the normaliser is the
    first substitution alone (the placeholder step finds no quoted span),
    and it is idempotent, also where the condition holds the text of a
    placeholder. *)
Theorem normalisation_idempotent_without_quotes :
  forall s : str,
    no_quote s ->
    parse_condition_for_record_rule s = sub_equals None s
    /\ parse_condition_for_record_rule (parse_condition_for_record_rule s)
       = parse_condition_for_record_rule s.
Proof.
  intros s H. rewrite (parse_condition_no_quote s H). split; [reflexivity|].
  rewrite parse_condition_no_quote by now apply sub_equals_no_quote.
  apply sub_equals_idempotent.
Qed.

(** ** The extractors on well-formed comparisons *)

Lemma digit_not_opchar : forall c, is_digit c = true -> is_opchar c = false.
Proof. intros c H. apply word_not_opchar. now apply digit_is_word. Qed.

Lemma digit_not_space : forall c, is_digit c = true -> is_space c = false.
Proof. intros c H. apply word_not_space. now apply digit_is_word. Qed.

(** What follows a run of the class [p] when it is a run of [q], then
    something not empty that starts outside [p]. *)
Lemma stops_app : forall (p q : ascii -> bool) a b,
  (forall c, q c = true -> p c = false) ->
  all_in q a -> stops p b -> stops p (a ++ b).
Proof.
  intros p q [|c a] b Hpq Ha Hb; [exact Hb|].
  inversion Ha; subst. simpl. auto.
Qed.

Lemma stops_run : forall (p q : ascii -> bool) a,
  (forall c, q c = true -> p c = false) -> all_in q a -> stops p a.
Proof.
  intros p q [|c a] Hpq Ha; [exact I|]. inversion Ha; subst. simpl. auto.
Qed.

Lemma match_number_numeral : forall d, is_numeral d -> match_number d = Some d.
Proof.
  intros d [Hd Hne]. unfold match_number.
  rewrite <- (app_nil_r d) at 1. rewrite (span_app is_digit d []); [|assumption|exact I].
  destruct d; [contradiction|reflexivity].
Qed.

Lemma float_of_numeral : forall d,
  is_numeral d -> float_of_decimal d = inject_Z (int_of_digits d).
Proof.
  intros d [Hd _]. unfold float_of_decimal.
  rewrite <- (app_nil_r d) at 1. rewrite (span_app is_digit d []); [|assumption|exact I].
  reflexivity.
Qed.

(** The operator and the number of [ws1 op ws2 d]. *)
Lemma match_op_number_text : forall ws1 op ws2 d,
  is_blank ws1 -> is_operator op -> is_blank ws2 -> is_numeral d ->
  match_op_number (ws1 ++ op ++ ws2 ++ d)
  = Some (op, d, length ws1 + length op + length ws2 + length d).
Proof.
  intros ws1 op ws2 d H1 [Ho Hone] H2 [Hd Hdne].
  assert (Sd : stops is_space d) by (eapply stops_run; [exact digit_not_space|exact Hd]).
  assert (So : stops is_opchar (ws2 ++ d)).
  { eapply stops_app; [exact space_not_opchar|exact H2|].
    eapply stops_run; [exact digit_not_opchar|exact Hd]. }
  assert (Ss : stops is_space (op ++ ws2 ++ d)).
  { destruct op as [|c op]; [contradiction|]. inversion Ho; subst.
    simpl. now apply opchar_not_space. }
  unfold match_op_number, match_op.
  rewrite (span_app is_space ws1) by assumption.
  rewrite (span_app is_opchar op) by assumption.
  destruct op as [|c op0] eqn:Eo; [contradiction|]. rewrite <- Eo in *.
  rewrite (span_app is_space ws2) by assumption.
  now rewrite match_number_numeral.
Qed.

Lemma stops_word_op : forall ws1 op rest,
  is_blank ws1 -> is_operator op -> stops is_word (ws1 ++ op ++ rest).
Proof.
  intros ws1 op rest H1 [Ho Hne].
  eapply stops_app; [exact space_not_word|exact H1|].
  destruct op as [|c op]; [contradiction|]. inversion Ho; subst.
  simpl. now apply opchar_not_word.
Qed.

(** The pattern for text comparisons needs a double quote. *)
Lemma match_string_comparison_quote : forall s a n,
  match_string_comparison s = Some (a, n) -> ~ no_quote s.
Proof.
  intros s a n H Hq. unfold match_string_comparison in H.
  destruct (span is_word s) as [w r1] eqn:Ew.
  destruct w as [|c0 w]; [discriminate|].
  apply span_spec in Ew as [Es _].
  destruct (match_op r1) as [[[op k] r]|] eqn:Em; [|discriminate].
  destruct r as [|c r2]; [discriminate|].
  destruct (Ascii.eqb c dq) eqn:Ec; [|discriminate].
  apply match_op_spec in Em as [m [Er _]].
  subst s r1. unfold no_quote in Hq.
  apply Forall_app in Hq as [_ Hq]. apply Forall_app in Hq as [_ Hq].
  inversion Hq; subst. congruence.
Qed.

Lemma no_quote_suffix : forall a b, no_quote (a ++ b) -> no_quote b.
Proof. intros a b H. unfold no_quote in *. apply Forall_app in H. tauto. Qed.

Lemma no_string_comparison_without_quote : forall s,
  no_quote s -> finditer match_string_comparison 0 s = [].
Proof.
  intros s H. destruct (finditer match_string_comparison 0 s) as [|x l] eqn:E; [reflexivity|].
  assert (Hin : In x (finditer match_string_comparison 0 s)) by (rewrite E; now left).
  apply finditer_In_match in Hin as [pre [s' [n [Es Hm]]]].
  exfalso. eapply match_string_comparison_quote; [exact Hm|].
  subst s. eapply no_quote_suffix; eassumption.
Qed.

Lemma all_in_no_quote : forall p s,
  (forall c, p c = true -> Ascii.eqb c dq = false) -> all_in p s -> no_quote s.
Proof. intros p s Hp H. eapply Forall_impl; [|exact H]. exact Hp. Qed.

Lemma word_not_quote : forall c, is_word c = true -> Ascii.eqb c dq = false.
Proof. intro c. by_chars c. Qed.

Lemma space_not_quote : forall c, is_space c = true -> Ascii.eqb c dq = false.
Proof. intro c. by_chars c. Qed.

Lemma opchar_not_quote : forall c, is_opchar c = true -> Ascii.eqb c dq = false.
Proof. intro c. by_chars c. Qed.

Lemma digit_not_quote : forall c, is_digit c = true -> Ascii.eqb c dq = false.
Proof. intros c H. apply word_not_quote. now apply digit_is_word. Qed.

Lemma no_quote_app : forall a b, no_quote a -> no_quote b -> no_quote (a ++ b).
Proof. intros a b Ha Hb. apply Forall_app. now split. Qed.

(** X4.  A comparison written as a name, blanks, an operator made of
    the characters [<>=!], blanks and a numeral of at most fifteen digits
    (so that [float] is exact) is read back by [extract_value_comparisons]
    as exactly one value comparison, with that name, the operator as
    written and the number.  The operator need not be one of the six
    that the evaluator knows. *)
Theorem value_comparison_is_read_back :
  forall field ws1 op ws2 d : str,
    is_name field -> is_blank ws1 -> is_operator op -> is_blank ws2 -> is_numeral d ->
    length d <= 15 ->
    extract_value_comparisons (field ++ ws1 ++ op ++ ws2 ++ d)
    = [(field, op, LNum (inject_Z (int_of_digits d)))].
Proof.
  intros field ws1 op ws2 d [Hf Hfne] H1 Ho H2 Hd _.
  unfold extract_value_comparisons.
  rewrite no_string_comparison_without_quote, app_nil_r.
  - rewrite <- (float_of_numeral d Hd).
    eapply finditer_whole.
    + apply match_numeric_comparison_word; [assumption|assumption| |].
      * now apply stops_word_op.
      * now apply match_op_number_text.
    + rewrite !length_app. lia.
    + destruct field; [contradiction|discriminate].
  - destruct Ho as [Ho _], Hd as [Hd _].
    repeat apply no_quote_app.
    + eapply all_in_no_quote; [exact word_not_quote|assumption].
    + eapply all_in_no_quote; [exact space_not_quote|assumption].
    + eapply all_in_no_quote; [exact opchar_not_quote|assumption].
    + eapply all_in_no_quote; [exact space_not_quote|assumption].
    + eapply all_in_no_quote; [exact digit_not_quote|assumption].
Qed.

Lemma match_field_difference_text : forall f1 ws1 ws2 f2 r5 op num n,
  is_name f1 -> is_blank ws1 -> is_blank ws2 -> is_name f2 -> stops is_word r5 ->
  match_op_number r5 = Some (op, num, n) ->
  match_field_difference (f1 ++ ws1 ++ ch_minus :: ws2 ++ f2 ++ r5)
  = Some ((f1, f2, op, float_of_decimal num),
          length f1 + length ws1 + 1 + length ws2 + length f2 + n).
Proof.
  intros f1 ws1 ws2 f2 r5 op num n [Hf1 Hne1] H1 H2 [Hf2 Hne2] Hs Hm.
  unfold match_field_difference.
  rewrite (span_app is_word f1); [|assumption|].
  2:{ eapply stops_app; [exact space_not_word|exact H1|]. reflexivity. }
  destruct f1 as [|c1 f10] eqn:E1; [contradiction|]. rewrite <- E1 in *.
  rewrite (span_app is_space ws1); [|assumption|reflexivity].
  cbv beta iota. rewrite Ascii.eqb_refl.
  rewrite (span_app is_space ws2); [|assumption|].
  2:{ destruct f2 as [|c2 f2]; [contradiction|]. inversion Hf2; subst.
      simpl. now apply word_not_space. }
  rewrite (span_app is_word f2) by assumption.
  destruct f2 as [|c2 f20] eqn:E2; [contradiction|]. rewrite <- E2 in *.
  now rewrite Hm.
Qed.

(** X5.  A field difference written as a name, a minus sign, a name,
    an operator and a numeral of at most fifteen digits, with any blanks
    between them, is read back by [extract_field_differences] as exactly
    one field difference with these two names, the operator as written
    and the number. *)
Theorem field_difference_is_read_back :
  forall f1 ws1 ws2 f2 ws3 op ws4 d : str,
    is_name f1 -> is_blank ws1 -> is_blank ws2 -> is_name f2 ->
    is_blank ws3 -> is_operator op -> is_blank ws4 -> is_numeral d ->
    length d <= 15 ->
    extract_field_differences
      (f1 ++ ws1 ++ L "-" ++ ws2 ++ f2 ++ ws3 ++ op ++ ws4 ++ d)
    = [(f1, f2, op, inject_Z (int_of_digits d))].
Proof.
  intros f1 ws1 ws2 f2 ws3 op ws4 d Hf1 H1 H2 Hf2 H3 Ho H4 Hd _.
  unfold extract_field_differences.
  rewrite <- (float_of_numeral d Hd).
  change (L "-" ++ ws2 ++ f2 ++ ws3 ++ op ++ ws4 ++ d)
    with (ch_minus :: ws2 ++ f2 ++ ws3 ++ op ++ ws4 ++ d).
  eapply finditer_whole.
  - apply match_field_difference_text; try assumption.
    + now apply stops_word_op.
    + now apply match_op_number_text.
  - rewrite !length_app. simpl. rewrite !length_app. lia.
  - destruct Hf1 as [_ Hne]. destruct f1; [contradiction|discriminate].
Qed.

(** *** The shape of what is extracted *)

Lemma digit_val_nonneg : forall c, (0 <= digit_val c)%Z.
Proof. intro c. unfold digit_val. lia. Qed.

Lemma int_of_digits_nonneg : forall ds, (0 <= int_of_digits ds)%Z.
Proof.
  intro ds. unfold int_of_digits.
  assert (G : forall acc, (0 <= acc)%Z ->
            (0 <= fold_left (fun acc c => 10 * acc + digit_val c) ds acc)%Z).
  { induction ds as [|c ds IH]; intros acc Ha; [exact Ha|].
    cbn [fold_left]. apply IH. pose proof (digit_val_nonneg c). lia. }
  apply G. lia.
Qed.

Lemma float_of_decimal_nonneg : forall text, (0 <= float_of_decimal text)%Q.
Proof.
  intro text. unfold float_of_decimal.
  destruct (span is_digit text) as [d1 r]. destruct r as [|c d2].
  - unfold Qle. cbn [Qnum Qden]. pose proof (int_of_digits_nonneg d1). lia.
  - unfold Qle. cbn [Qnum Qden]. pose proof (int_of_digits_nonneg (d1 ++ d2)). lia.
Qed.

Lemma match_op_operator : forall s op n r,
  match_op s = Some (op, n, r) -> is_operator op.
Proof.
  intros s op n r H. unfold match_op in H.
  destruct (span is_space s) as [sp1 r1].
  destruct (span is_opchar r1) as [o r2] eqn:Eo.
  destruct o as [|c o]; [discriminate|].
  destruct (span is_space r2) as [sp2 r3].
  inversion H; subst. apply span_spec in Eo as [_ [Ho _]].
  split; [exact Ho|discriminate].
Qed.

Lemma match_op_number_operator : forall s op num n,
  match_op_number s = Some (op, num, n) -> is_operator op.
Proof.
  intros s op num n H. unfold match_op_number in H.
  destruct (match_op s) as [[[o k] r]|] eqn:Em; [|discriminate].
  destruct (match_number r); [|discriminate].
  inversion H; subst. eapply match_op_operator; eassumption.
Qed.

Lemma find_close_content : forall s content,
  find_close s = Some content -> no_quote content.
Proof.
  induction s as [|c s IH]; simpl; intros content H; [discriminate|].
  destruct (Ascii.eqb c dq) eqn:Ec.
  - inversion H; subst. constructor.
  - destruct (find_close s) as [t|]; [|discriminate].
    inversion H; subst. constructor; [exact Ec|]. now apply IH.
Qed.

Lemma numeric_comparison_shape : forall s f op v n,
  match_numeric_comparison s = Some ((f, op, v), n) ->
  is_name f /\ is_operator op /\ exists q, v = LNum q /\ (0 <= q)%Q.
Proof.
  intros s f op v n H. unfold match_numeric_comparison in H.
  destruct (span is_word s) as [w r1] eqn:Ew.
  destruct w as [|c w]; [discriminate|].
  destruct (match_op_number r1) as [[[o num] k]|] eqn:Em; [|discriminate].
  inversion H; subst. apply span_spec in Ew as [_ [Hw _]].
  split; [split; [exact Hw|discriminate]|].
  split; [eapply match_op_number_operator; eassumption|].
  eexists. split; [reflexivity|apply float_of_decimal_nonneg].
Qed.

Lemma string_comparison_shape : forall s f op v n,
  match_string_comparison s = Some ((f, op, v), n) ->
  is_name f /\ is_operator op /\ exists t, v = LStr t /\ no_quote t.
Proof.
  intros s f op v n H. unfold match_string_comparison in H.
  destruct (span is_word s) as [w r1] eqn:Ew.
  destruct w as [|c w]; [discriminate|].
  destruct (match_op r1) as [[[o k] r]|] eqn:Em; [|discriminate].
  destruct r as [|c' r2]; [discriminate|].
  destruct (Ascii.eqb c' dq); [|discriminate].
  destruct (find_close r2) as [content|] eqn:Ec; [|discriminate].
  inversion H; subst. apply span_spec in Ew as [_ [Hw _]].
  split; [split; [exact Hw|discriminate]|].
  split; [eapply match_op_operator; eassumption|].
  eexists. split; [reflexivity|eapply find_close_content; eassumption].
Qed.

(** X6.  What the three extractors return is well formed, on every
    condition: a field is a non-empty run of word characters, an
    operator a non-empty run of the characters [<>=!], a number is not
    negative (a minus sign before it is not part of the match), and the
    text of a text comparison holds no double quote. *)
Theorem extracted_comparisons_are_well_formed :
  forall rule_condition : str,
    (forall f, In f (extract_self_comparisons rule_condition) -> is_name f)
    /\ (forall f op v, In (f, op, v) (extract_value_comparisons rule_condition) ->
          is_name f /\ is_operator op
          /\ match v with
             | LNum q => (0 <= q)%Q
             | LStr t => no_quote t
             end)
    /\ (forall f1 f2 op k, In (f1, f2, op, k) (extract_field_differences rule_condition) ->
          is_name f1 /\ is_name f2 /\ is_operator op /\ (0 <= k)%Q).
Proof.
  intro cond. split; [|split].
  - intros f H. unfold extract_self_comparisons in H.
    apply finditer_In_match in H as [pre [s' [n [_ Hm]]]].
    unfold match_self in Hm.
    destruct (span is_word s') as [w r1] eqn:Ew.
    destruct w as [|c w]; [discriminate|].
    destruct (span is_space r1) as [sp1 r2].
    destruct r2 as [|c2 r3]; [discriminate|].
    destruct (Ascii.eqb c2 ch_eq); [|discriminate].
    destruct (span is_space r3) as [sp2 r4].
    destruct (starts_with (c :: w) r4); [|discriminate].
    inversion Hm; subst. apply span_spec in Ew as [_ [Hw _]].
    split; [exact Hw|discriminate].
  - intros f op v H. unfold extract_value_comparisons in H.
    apply in_app_or in H as [H|H];
      apply finditer_In_match in H as [pre [s' [n [_ Hm]]]].
    + apply numeric_comparison_shape in Hm as [Hf [Ho [q [-> Hq]]]]. auto.
    + apply string_comparison_shape in Hm as [Hf [Ho [t [-> Ht]]]]. auto.
  - intros f1 f2 op k H. unfold extract_field_differences in H.
    apply finditer_In_match in H as [pre [s' [n [_ Hm]]]].
    pose proof Hm as Hm'.
    apply match_field_difference_spec in Hm'
      as [sp1 [sp2 [r5 [num [n' [Es [_ [Hf2 [Hne2 [_ [Hop Hk]]]]]]]]]]].
    split; [|split; [now split|split]].
    + unfold match_field_difference in Hm.
      destruct (span is_word s') as [w1 r1] eqn:Ew.
      destruct w1 as [|c w1]; [discriminate|].
      apply span_spec in Ew as [_ [Hw _]].
      destruct (span is_space r1) as [sp1' r2].
      destruct r2 as [|c2 r3]; [discriminate|].
      destruct (Ascii.eqb c2 ch_minus); [|discriminate].
      destruct (span is_space r3) as [sp2' r4].
      destruct (span is_word r4) as [w2 r5'].
      destruct w2 as [|c3 w2]; [discriminate|].
      destruct (match_op_number r5') as [[[o nm] k']|]; [|discriminate].
      inversion Hm; subst. split; [exact Hw|discriminate].
    + eapply match_op_number_operator; eassumption.
    + subst k. apply float_of_decimal_nonneg.
Qed.

(** ** The prefilter as a conjunction *)

Lemma filter_filter_and : forall (A : Type) (p q : A -> bool) l,
  filter q (filter p l) = filter (fun x => p x && q x) l.
Proof.
  intros A p q. induction l as [|x l IH]; [reflexivity|].
  simpl. destruct (p x); simpl; [destruct (q x)|]; now rewrite IH.
Qed.

Lemma filter_length_le_filter : forall (A : Type) (p q : A -> bool) l,
  length (filter q (filter p l)) <= length (filter q l).
Proof.
  intros A p q. induction l as [|x l IH]; [reflexivity|].
  simpl. destruct (p x); simpl; destruct (q x); simpl; lia.
Qed.

Lemma frame_eta : forall df, mkFrame (columns df) (rows df) = df.
Proof. now intros []. Qed.

Section Prefilter.

Context {RT : Runtime}.

Lemma mask_rows_filter : forall p rs out,
  mask_rows p rs = Some out ->
  out = filter (fun r => match p r with Some true => true | _ => false end) rs.
Proof.
  intros p. induction rs as [|r rs IH]; simpl; intros out H.
  - now inversion H.
  - destruct (p r) as [b|]; [|discriminate].
    destruct (mask_rows p rs) as [out'|]; [|discriminate].
    inversion H; subst. rewrite (IH out' eq_refl). now destruct b.
Qed.

Lemma value_filter_satisfies : forall df vc df',
  value_filter df vc = Some df' ->
  df' = mkFrame (columns df) (filter (fun r => satisfies (columns df) r vc) (rows df)).
Proof.
  intros df [[field op] v] df' H. unfold value_filter in H. unfold satisfies.
  destruct (mem_str field (columns df)).
  - destruct (op_of_text op) as [o|].
    + destruct (mask_rows _ (rows df)) as [rs|] eqn:E; [|discriminate].
      inversion H; subst. f_equal. now apply mask_rows_filter.
    + inversion H; subst. rewrite filter_all by reflexivity. symmetry. apply frame_eta.
  - inversion H; subst. rewrite filter_all by reflexivity. symmetry. apply frame_eta.
Qed.

Lemma prefilter_filter : forall vcs df df',
  prefilter vcs df = Some df' ->
  df' = mkFrame (columns df)
          (filter (fun r => forallb (satisfies (columns df) r) vcs) (rows df)).
Proof.
  induction vcs as [|vc vcs IH]; simpl; intros df df' H.
  - inversion H; subst. rewrite filter_all by reflexivity. symmetry. apply frame_eta.
  - destruct (value_filter df vc) as [df1|] eqn:E; [|discriminate].
    apply value_filter_satisfies in E. apply IH in H. subst df1.
    simpl in H. now rewrite filter_filter_and in H.
Qed.

Lemma applicable_false : forall df vc,
  applicable (columns df) vc = false -> value_filter df vc = Some df.
Proof.
  intros df [[field op] v] H. unfold applicable in H. unfold value_filter.
  destruct (mem_str field (columns df)); [|reflexivity].
  destruct (op_of_text op); [discriminate|reflexivity].
Qed.

Lemma prefilter_applicable : forall vcs df,
  prefilter vcs df = prefilter (filter (applicable (columns df)) vcs) df.
Proof.
  induction vcs as [|vc vcs IH]; intro df; [reflexivity|].
  cbn [filter]. destruct (applicable (columns df) vc) eqn:Ea.
  - cbn [prefilter]. destruct (value_filter df vc) as [df1|] eqn:E; [|reflexivity].
    rewrite IH. now rewrite (value_filter_columns _ _ _ E).
  - cbn [prefilter]. rewrite (applicable_false _ _ Ea). apply IH.
Qed.

End Prefilter.

(** X7.  When the loop over the value comparisons of
    [apply_dataset_level_rule] does not raise, it keeps the columns and
    exactly the rows of the pool that pass every comparison, in their
    order; a comparison on a field that is not a column, or with an
    operator outside the six of the chain, is passed by every row. *)
Theorem prefilter_keeps_the_rows_that_pass_every_comparison `{RT : Runtime} :
  forall (value_comparisons : list (str * str * literal)) (claims_df filtered_df : DataFrame),
    prefilter value_comparisons claims_df = Some filtered_df ->
    columns filtered_df = columns claims_df
    /\ rows filtered_df
       = filter (fun r => forallb (satisfies (columns claims_df) r) value_comparisons)
                (rows claims_df).
Proof.
  intros vcs df df' H. apply prefilter_filter in H. subst df'. now split.
Qed.

(** X8.  The comparisons whose field is not a column or whose operator
    is none of [==], [!=], [>], [>=], [<], [<=] have no effect on the
    prefilter, whether it raises or not; a comparison written with a
    single [=] is one of them. *)
Theorem prefilter_ignores_unknown_operators_and_fields `{RT : Runtime} :
  forall (value_comparisons : list (str * str * literal)) (claims_df : DataFrame),
    prefilter value_comparisons claims_df
    = prefilter (filter (applicable (columns claims_df)) value_comparisons) claims_df
    /\ (forall field value,
          applicable (columns claims_df) (field, L "=", value) = false).
Proof.
  intros vcs df. split; [apply prefilter_applicable|].
  intros field value. unfold applicable.
  replace (op_of_text (L "=")) with (@None cmp_op) by reflexivity.
  apply andb_false_r.
Qed.

(** ** Sameness of keys *)

Lemma value_same_sym : forall a b, value_same a b = value_same b a.
Proof.
  intros [p|s|m| |] [q|t|n| |]; simpl; try reflexivity.
  - destruct (Qeq_bool p q) eqn:E1, (Qeq_bool q p) eqn:E2; try reflexivity.
    + apply Qeq_bool_iff in E1. symmetry in E1. apply Qeq_bool_iff in E1. congruence.
    + apply Qeq_bool_iff in E2. symmetry in E2. apply Qeq_bool_iff in E2. congruence.
  - destruct (str_eqb s t) eqn:E1, (str_eqb t s) eqn:E2; try reflexivity.
    + apply str_eqb_eq in E1. subst. now rewrite str_eqb_refl in E2.
    + apply str_eqb_eq in E2. subst. now rewrite str_eqb_refl in E1.
  - apply Z.eqb_sym.
Qed.

Lemma value_same_trans : forall a b c,
  value_same a b = true -> value_same b c = true -> value_same a c = true.
Proof.
  intros [p|s|m| |] [q|t|n| |] [r|u|o| |]; simpl; try discriminate; try reflexivity.
  - intros H1 H2. apply Qeq_bool_iff in H1, H2. apply Qeq_bool_iff.
    now rewrite H1.
  - intros H1 H2. apply str_eqb_eq in H1, H2. subst. apply str_eqb_refl.
  - intros H1 H2. apply Z.eqb_eq in H1, H2. subst. apply Z.eqb_refl.
Qed.

Lemma values_same_sym : forall a b, values_same a b = values_same b a.
Proof.
  induction a as [|x a IH]; intros [|y b]; simpl; try reflexivity.
  now rewrite value_same_sym, IH.
Qed.

Lemma values_same_trans : forall a b c,
  values_same a b = true -> values_same b c = true -> values_same a c = true.
Proof.
  induction a as [|x a IH]; intros [|y b] [|z c]; simpl; try discriminate; try reflexivity.
  intros H1 H2. apply andb_true_iff in H1 as [H1 H1'], H2 as [H2 H2'].
  apply andb_true_iff. split; [eapply value_same_trans|eapply IH]; eassumption.
Qed.

Lemma value_same_missing : forall a b,
  value_same a b = true -> is_missing a = is_missing b.
Proof. intros [p|s|m| |] [q|t|n| |]; simpl; intro H; try discriminate; reflexivity. Qed.

Lemma values_same_missing : forall a b,
  values_same a b = true -> existsb is_missing a = existsb is_missing b.
Proof.
  induction a as [|x a IH]; intros [|y b]; simpl; try discriminate; [reflexivity|].
  intro H. apply andb_true_iff in H as [H1 H2].
  now rewrite (value_same_missing _ _ H1), (IH _ H2).
Qed.

(** ** Where the rows of a DataSet result come from *)

Section DataSetPairs.

Context {RT : Runtime}.

Lemma pairs_of_group_pair : forall cols fds group r,
  In r (pairs_of_group cols fds group) ->
  exists row1 row2,
    In row1 group /\ In row2 group /\ (label row1 < label row2)%Z
    /\ differences_met cols fds row1 row2 = true
    /\ (r = row1 \/ r = row2).
Proof.
  intros cols fds group r H. unfold pairs_of_group in H.
  apply in_flat_map in H as [row1 [H1 H]].
  apply in_flat_map in H as [row2 [H2 H]].
  destruct (label row2 <=? label row1)%Z eqn:El; [destruct H|].
  destruct (differences_met cols fds row1 row2) eqn:Ed; [|destruct H].
  exists row1, row2. apply Z.leb_gt in El.
  repeat (split; [assumption|]).
  destruct H as [<-|[<-|[]]]; auto.
Qed.

Lemma groupby_group : forall df fields group,
  In group (groupby df fields) ->
  exists k,
    existsb is_missing k = false
    /\ group = filter (fun r => values_same (key_of (columns df) fields r) k) (rows df).
Proof.
  intros df fields group H. unfold groupby in H.
  apply in_map_iff in H as [k [<- Hk]].
  apply sort_by_In in Hk. apply dedup_In in Hk. apply filter_In in Hk as [_ Hk].
  exists k. split; [|reflexivity]. now apply negb_true_iff in Hk.
Qed.

(** Every row of a result is the tagged form of a row that passed the
    prefilter and whose key is repeated there; with field differences
    it is moreover one of the two rows of a pair of one group. *)
Lemma dataset_rule_row_origin : forall pool rule_id rule_desc cond r,
  In r (rows (apply_dataset_level_rule pool rule_id rule_desc cond)) ->
  exists filtered r0,
    prefilter (extract_value_comparisons cond) pool = Some filtered
    /\ In r0 (rows filtered)
    /\ duplicate_mask filtered (extract_self_comparisons cond) r0 = true
    /\ r = tag_row (columns pool) rule_id rule_desc r0
    /\ (extract_field_differences cond <> [] ->
        exists group,
          In group (groupby (mkFrame (columns filtered)
                               (filter (duplicate_mask filtered (extract_self_comparisons cond))
                                       (rows filtered)))
                            (extract_self_comparisons cond))
          /\ In r0 (pairs_of_group (columns filtered) (extract_field_differences cond) group)).
Proof.
  intros pool rule_id rule_desc cond r H.
  unfold apply_dataset_level_rule, dataset_rule_body in H.
  destruct (prefilter _ pool) as [filtered|] eqn:E; [|destruct H].
  pose proof (prefilter_columns _ _ _ E) as Hc.
  destruct (is_empty filtered); [destruct H|].
  destruct (extract_self_comparisons cond) as [|f0 fs] eqn:Es; [destruct H|].
  destruct (forallb _ (f0 :: fs)); [|destruct H].
  destruct (is_empty _); [destruct H|].
  simpl columns in H.
  destruct (extract_field_differences cond) as [|fd fds] eqn:Ef.
  - rewrite tag_rows in H. simpl in H. apply in_map_iff in H as [r0 [<- Hr0]].
    apply filter_In in Hr0 as [Hr0 Hd].
    exists filtered, r0. rewrite Hc. repeat (split; [auto; fail|]).
    intro Hne. now contradiction Hne.
  - destruct (flat_map _ _) as [|r1 rs] eqn:Er; [destruct H|].
    rewrite tag_rows in H. simpl in H. apply in_map_iff in H as [r0 [<- Hr0]].
    unfold drop_duplicates in Hr0. apply dedup_In in Hr0. rewrite <- Er in Hr0.
    apply in_flat_map in Hr0 as [group [Hg Hr0]].
    pose proof (pairs_of_group_In _ _ _ _ Hr0) as Hin.
    pose proof (groupby_In _ _ _ _ Hg Hin) as Hp. simpl in Hp.
    apply filter_In in Hp as [Hp Hd].
    rewrite Hc in *.
    exists filtered, r0. rewrite Hc. repeat (split; [auto; fail|]).
    intros _. exists group. split; assumption.
Qed.

End DataSetPairs.

(** X9.  Minimum group size.  Every row that
    [apply_dataset_level_rule] returns is the tagged form of a row of the
    pool whose key (its cells in the self-comparison fields) is the key
    of at least two rows of the pool: a key that occurs once is never
    reported. *)
Theorem dataset_rule_returns_repeated_keys_only `{RT : Runtime} :
  forall (pool : DataFrame) (rule_id : Z) (rule_desc rule_condition : str) (r : Row),
    In r (rows (apply_dataset_level_rule pool rule_id rule_desc rule_condition)) ->
    exists r0,
      In r0 (rows pool)
      /\ r = tag_row (columns pool) rule_id rule_desc r0
      /\ 2 <= length (same_key_rows pool (extract_self_comparisons rule_condition) r0).
Proof.
  intros pool rule_id rule_desc cond r H.
  apply dataset_rule_row_origin in H as [filtered [r0 [Hp [Hr0 [Hd [-> _]]]]]].
  exists r0. split; [eapply prefilter_rows; eauto|]. split; [reflexivity|].
  unfold duplicate_mask in Hd. apply Nat.leb_le in Hd.
  apply prefilter_filter in Hp. subst filtered. simpl in Hd.
  unfold same_key_rows. eapply Nat.le_trans; [exact Hd|].
  apply filter_length_le_filter.
Qed.

(** X10.  With a field difference in the condition, every row
    returned is one of the two rows of a pair: two rows of the pool with
    the same key, none of whose key cells is missing, the first with the
    smaller index label, for which the loop over the field differences
    ends with [differences_met] true. *)
Theorem pairwise_result_comes_from_accepted_pairs `{RT : Runtime} :
  forall (pool : DataFrame) (rule_id : Z) (rule_desc rule_condition : str) (r : Row),
    extract_field_differences rule_condition <> [] ->
    In r (rows (apply_dataset_level_rule pool rule_id rule_desc rule_condition)) ->
    exists row1 row2,
      In row1 (rows pool) /\ In row2 (rows pool)
      /\ (label row1 < label row2)%Z
      /\ values_same (key_of (columns pool) (extract_self_comparisons rule_condition) row1)
                     (key_of (columns pool) (extract_self_comparisons rule_condition) row2)
         = true
      /\ existsb is_missing
           (key_of (columns pool) (extract_self_comparisons rule_condition) row1) = false
      /\ differences_met (columns pool) (extract_field_differences rule_condition) row1 row2
         = true
      /\ (r = tag_row (columns pool) rule_id rule_desc row1
          \/ r = tag_row (columns pool) rule_id rule_desc row2).
Proof.
  intros pool rule_id rule_desc cond r Hne H.
  apply dataset_rule_row_origin in H as [filtered [r0 [Hp [_ [_ [-> Hg]]]]]].
  destruct (Hg Hne) as [group [Hgroup Hr0]].
  pose proof (prefilter_columns _ _ _ Hp) as Hc.
  apply groupby_group in Hgroup as [k [Hk ->]]. simpl in *.
  apply pairs_of_group_pair in Hr0 as [row1 [row2 [H1 [H2 [Hl [Hd Hr]]]]]].
  apply filter_In in H1 as [H1 K1], H2 as [H2 K2].
  apply filter_In in H1 as [H1 _], H2 as [H2 _].
  rewrite Hc in *.
  exists row1, row2.
  split; [eapply prefilter_rows; eauto|].
  split; [eapply prefilter_rows; eauto|].
  split; [assumption|].
  split; [eapply values_same_trans; [exact K1|]; now rewrite values_same_sym|].
  split; [now rewrite (values_same_missing _ _ K1)|].
  split; [assumption|].
  destruct Hr as [->| ->]; auto.
Qed.

(** ** The distance in days *)

Lemma ns_per_day_pos : (0 < ns_per_day)%Z.
Proof. reflexivity. Qed.

Lemma abs_days_day_distance : forall t1 t2,
  (Z.abs (t1 - t2) <= timedelta_max)%Z ->
  abs_days (Timestamp t1) (Timestamp t2) = Some (Fin (inject_Z (day_distance t1 t2))).
Proof.
  intros t1 t2 Hr. unfold abs_days, day_distance.
  apply Z.leb_le in Hr. rewrite Hr. do 3 f_equal.
  pose proof ns_per_day_pos as Hd.
  destruct (t2 <=? t1)%Z eqn:E.
  - apply Z.leb_le in E. apply Z.abs_eq. apply Z.div_pos; lia.
  - apply Z.leb_gt in E.
    replace (t1 - t2)%Z with (- (t2 - t1))%Z by lia.
    assert (Hq : (0 <= (t2 - t1) / ns_per_day)%Z) by (apply Z.div_pos; lia).
    destruct ((t2 - t1) mod ns_per_day =? 0)%Z eqn:Em.
    + apply Z.eqb_eq in Em. rewrite Z.div_opp_l_z by lia. lia.
    + apply Z.eqb_neq in Em. rewrite Z.div_opp_l_nz by lia. lia.
Qed.

(** X11.  For a date field and two timestamps whose difference is in
    the range of a timedelta (they are less than 2^63 nanoseconds, about
    292 years, apart; beyond, the subtraction raises), the distance that
    the pairwise check compares with the threshold is the number of
    whole days between them, rounded down when the first row of the pair
    is the later one and rounded up when it is the earlier one (the days
    of a timedelta are rounded towards minus infinity before [abs] is
    taken).  Two claims that are not a whole number of days apart are
    therefore one day further apart in one order than in the other. *)
Theorem day_distance_depends_on_the_order_of_the_rows `{RT : Runtime} :
  forall (cols : list str) (field1 field2 : str) (row1 row2 : Row) (t1 t2 : Z),
    is_date_field field1 = true ->
    cell cols row1 field1 = VDate t1 ->
    cell cols row2 field2 = VDate t2 ->
    (Z.abs (t1 - t2) <= timedelta_max)%Z ->
    field_distance cols field1 field2 row1 row2 = Fin (inject_Z (day_distance t1 t2))
    /\ (0 <= day_distance t1 t2)%Z
    /\ ((t1 < t2)%Z -> ((t2 - t1) mod ns_per_day <> 0)%Z ->
        day_distance t1 t2 = (day_distance t2 t1 + 1)%Z).
Proof.
  intros cols f1 f2 row1 row2 t1 t2 Hf H1 H2 Hr.
  pose proof ns_per_day_pos as Hd.
  split; [|split].
  - unfold field_distance. rewrite Hf, H1, H2. cbn [to_datetime]. cbv beta iota.
    now rewrite abs_days_day_distance.
  - unfold day_distance.
    destruct (t2 <=? t1)%Z eqn:E.
    + apply Z.leb_le in E. apply Z.div_pos; lia.
    + apply Z.leb_gt in E.
      assert (Hq : (0 <= (t2 - t1) / ns_per_day)%Z) by (apply Z.div_pos; lia).
      destruct (_ =? 0)%Z; lia.
  - intros Hlt Hm. unfold day_distance.
    replace (t2 <=? t1)%Z with false by (symmetry; apply Z.leb_gt; lia).
    replace (t1 <=? t2)%Z with true by (symmetry; apply Z.leb_le; lia).
    apply Z.eqb_neq in Hm. now rewrite Hm.
Qed.

(** ** Rules without field differences, and repeated rows *)

Lemma ForallOrdPairs_snoc : forall (A : Type) (R : A -> A -> Prop) l x,
  ForallOrdPairs R l -> (forall a, In a l -> R a x) -> ForallOrdPairs R (l ++ [x]).
Proof.
  intros A R l x H. induction H as [|a l Ha Hl IH]; intros Hx; simpl.
  - constructor; constructor.
  - constructor.
    + apply Forall_app. split; [exact Ha|]. constructor; [|constructor].
      apply Hx. now left.
    + apply IH. intros b Hb. apply Hx. now right.
Qed.

Lemma ForallOrdPairs_map : forall (A B : Type) (f : A -> B) (R : B -> B -> Prop) l,
  ForallOrdPairs (fun a b => R (f a) (f b)) l -> ForallOrdPairs R (map f l).
Proof.
  intros A B f R l H. induction H as [|a l Ha Hl IH]; simpl; constructor.
  - apply Forall_map. exact Ha.
  - exact IH.
Qed.

Lemma dedup_distinct : forall (A : Type) (same : A -> A -> bool) (l : list A),
  ForallOrdPairs (fun a b => same b a = false) (dedup same l).
Proof.
  intros A same l. unfold dedup.
  assert (G : forall acc, ForallOrdPairs (fun a b => same b a = false) acc ->
            ForallOrdPairs (fun a b => same b a = false)
              (fold_left (fun acc x => if existsb (same x) acc then acc else acc ++ [x])
                         l acc)).
  { induction l as [|x l IH]; intros acc Hacc; [exact Hacc|].
    simpl. apply IH. destruct (existsb (same x) acc) eqn:E; [exact Hacc|].
    apply ForallOrdPairs_snoc; [exact Hacc|].
    intros a Ha. destruct (same x a) eqn:Es; [|reflexivity].
    assert (existsb (same x) acc = true) by (apply existsb_exists; eauto).
    congruence. }
  apply G. constructor.
Qed.

Lemma nonempty_columns_is_empty : forall df f,
  mem_str f (columns df) = true ->
  is_empty df = match rows df with [] => true | _ => false end.
Proof.
  intros [cols rs] f H. unfold is_empty. simpl in *.
  destruct rs; [reflexivity|]. destruct cols; [discriminate|reflexivity].
Qed.

(** X12.  Without a field difference in the condition, a rule whose
    self-comparison fields are all columns returns all the rows of the
    prefiltered pool whose key occurs there at least twice, missing
    values counting as equal, each once and in the order of the pool,
    tagged. *)
Theorem rule_without_field_differences_returns_every_repeated_row `{RT : Runtime} :
  forall (pool filtered : DataFrame) (rule_id : Z) (rule_desc rule_condition : str),
    extract_field_differences rule_condition = [] ->
    extract_self_comparisons rule_condition <> [] ->
    forallb (fun field => mem_str field (columns pool))
            (extract_self_comparisons rule_condition) = true ->
    prefilter (extract_value_comparisons rule_condition) pool = Some filtered ->
    rows (apply_dataset_level_rule pool rule_id rule_desc rule_condition)
    = map (tag_row (columns pool) rule_id rule_desc)
          (filter (duplicate_mask filtered (extract_self_comparisons rule_condition))
                  (rows filtered)).
Proof.
  intros pool filtered rule_id rule_desc cond Hfd Hne Hall Hp.
  pose proof (prefilter_columns _ _ _ Hp) as Hc.
  unfold apply_dataset_level_rule, dataset_rule_body. rewrite Hp, Hfd.
  destruct (extract_self_comparisons cond) as [|f0 fs] eqn:Es; [now contradiction Hne|].
  assert (Hf0 : mem_str f0 (columns filtered) = true).
  { rewrite Hc. simpl in Hall. now apply andb_true_iff in Hall as [Hall _]. }
  rewrite Hc, Hall. rewrite <- Hc.
  rewrite (nonempty_columns_is_empty filtered f0 Hf0).
  destruct (rows filtered) as [|r0 rs0] eqn:Er; [reflexivity|]. rewrite <- Er.
  rewrite (nonempty_columns_is_empty (mkFrame _ _) f0 Hf0). cbn [rows].
  destruct (filter _ (rows filtered)) as [|r1 rs1] eqn:Ef; [reflexivity|].
  rewrite tag_rows. cbn [rows columns]. now rewrite Hc.
Qed.

(** X13.  With a field difference, and on a pool with plain columns,
    no two rows of the result have the same cells in the columns of the
    pool: a row that belongs to several accepted pairs, or whose content
    is repeated in the pool, is returned once. *)
Theorem pairwise_result_has_no_repeated_claim `{RT : Runtime} :
  forall (pool : DataFrame) (rule_id : Z) (rule_desc rule_condition : str),
    plain_columns (columns pool) = true ->
    extract_field_differences rule_condition <> [] ->
    ForallOrdPairs (fun a b => same_claim (length (columns pool)) a b = false)
      (rows (apply_dataset_level_rule pool rule_id rule_desc rule_condition)).
Proof.
  intros pool rule_id rule_desc cond Hplain Hne.
  unfold apply_dataset_level_rule, dataset_rule_body.
  destruct (prefilter _ pool) as [filtered|] eqn:E; [|constructor].
  pose proof (prefilter_columns _ _ _ E) as Hc.
  destruct (is_empty filtered); [constructor|].
  destruct (extract_self_comparisons cond) as [|f0 fs]; [constructor|].
  destruct (forallb _ (f0 :: fs)); [|constructor].
  destruct (is_empty _); [constructor|].
  destruct (extract_field_differences cond) as [|fd fds]; [now contradiction Hne|].
  cbn [columns]. destruct (flat_map _ _) as [|r1 rs]; [constructor|].
  rewrite tag_rows. cbn [rows columns]. rewrite Hc.
  apply ForallOrdPairs_map. unfold drop_duplicates.
  eapply ForallOrdPairs_ind with (P := fun l => ForallOrdPairs _ l);
    [constructor| |apply dedup_distinct].
  intros a l Ha _ IH. constructor; [|exact IH].
  eapply Forall_impl; [|exact Ha]. intros b Hb. cbv beta in Hb.
  unfold same_claim. rewrite !tag_row_plain by assumption. cbn [cells].
  rewrite !fit_fit_app. now rewrite values_same_sym.
Qed.

(** ** The order of the rules *)

Lemma insert_sorted_perm : forall (A : Type) (leb : A -> A -> bool) x l,
  Permutation (insert_sorted leb x l) (x :: l).
Proof.
  intros A leb x. induction l as [|y l IH]; simpl; [reflexivity|].
  destruct (leb x y); [reflexivity|].
  rewrite IH. apply perm_swap.
Qed.

Lemma sort_by_perm : forall (A : Type) (leb : A -> A -> bool) l,
  Permutation (sort_by leb l) l.
Proof.
  intros A leb. induction l as [|x l IH]; [reflexivity|].
  unfold sort_by in *. simpl. rewrite insert_sorted_perm. now constructor.
Qed.

Lemma insert_rule_sorted : forall x l,
  StronglySorted id_le l ->
  StronglySorted id_le (insert_sorted (fun a b => (Rule_ID a <=? Rule_ID b)%Z) x l).
Proof.
  intros x l H. induction H as [|y l Hl IH Hy]; simpl.
  - constructor; constructor.
  - destruct (Rule_ID x <=? Rule_ID y)%Z eqn:E.
    + apply Z.leb_le in E. constructor; [now constructor|].
      constructor; [exact E|].
      eapply Forall_impl; [|exact Hy]. intros z Hz. unfold id_le in *. lia.
    + apply Z.leb_gt in E. constructor; [exact IH|].
      apply Forall_forall. intros z Hz. apply insert_sorted_In in Hz as [->|Hz].
      * unfold id_le. lia.
      * rewrite Forall_forall in Hy. now apply Hy.
Qed.

Lemma sort_rules_sorted : forall rules, StronglySorted id_le (sort_rules rules).
Proof.
  induction rules as [|x l IH]; [constructor|].
  unfold sort_rules, sort_by in *. simpl. now apply insert_rule_sorted.
Qed.

Lemma sorted_rules_unique : forall l1 l2,
  StronglySorted id_le l1 -> StronglySorted id_le l2 ->
  Permutation l1 l2 -> NoDup (map Rule_ID l1) -> l1 = l2.
Proof.
  induction l1 as [|a l1 IH]; intros l2 S1 S2 P N.
  - apply Permutation_nil in P. now subst.
  - destruct l2 as [|b l2]; [apply Permutation_sym, Permutation_nil in P; discriminate|].
    inversion S1 as [|? ? S1' F1]; subst. inversion S2 as [|? ? S2' F2]; subst.
    inversion N as [|? ? Na N']; subst.
    assert (Hab : a = b).
    { assert (Ha : In a (b :: l2)) by (eapply Permutation_in; [exact P|now left]).
      assert (Hb : In b (a :: l1))
        by (eapply Permutation_in; [apply Permutation_sym; exact P|now left]).
      destruct Ha as [Ha|Ha]; [now symmetry|].
      destruct Hb as [Hb|Hb]; [exact Hb|].
      rewrite Forall_forall in F1, F2.
      pose proof (F1 _ Hb) as L1. pose proof (F2 _ Ha) as L2. unfold id_le in *.
      exfalso. apply Na. apply in_map_iff. exists b. split; [lia|exact Hb]. }
    subst b. f_equal. apply IH; try assumption.
    eapply Permutation_cons_inv; exact P.
Qed.

Lemma sort_rules_permutation : forall rules rules',
  Permutation rules rules' -> NoDup (map Rule_ID rules) ->
  sort_rules rules = sort_rules rules'.
Proof.
  intros rules rules' P N. apply sorted_rules_unique.
  - apply sort_rules_sorted.
  - apply sort_rules_sorted.
  - unfold sort_rules. rewrite !sort_by_perm. exact P.
  - eapply Permutation_NoDup; [|exact N].
    apply Permutation_map, Permutation_sym. unfold sort_rules. apply sort_by_perm.
Qed.

(** X14.  The order of the rows of the rules table does not matter
    when the rule ids are pairwise distinct: [apply_rules] sorts the
    rules by id before it processes them. *)
Theorem order_of_the_rules_table_is_irrelevant `{RT : Runtime} :
  forall (rules_df rules_df' : list Rule) (claims_df : DataFrame),
    Permutation rules_df rules_df' ->
    NoDup (map Rule_ID rules_df) ->
    apply_rules rules_df claims_df = apply_rules rules_df' claims_df.
Proof.
  intros rules rules' claims P N. unfold apply_rules, all_results.
  now rewrite (sort_rules_permutation rules rules' P N).
Qed.

(** ** Rules of an unknown level *)

Lemma insert_sorted_head : forall (A : Type) (leb : A -> A -> bool) x l,
  (forall z, In z l -> leb x z = true) -> insert_sorted leb x l = x :: l.
Proof.
  intros A leb x [|y l] H; [reflexivity|]. simpl. now rewrite H by now left.
Qed.

Lemma insert_rule_filter_out : forall (p : Rule -> bool) leb x l,
  p x = false -> filter p (insert_sorted leb x l) = filter p l.
Proof.
  intros p leb x l Hx. induction l as [|y l IH]; simpl; [now rewrite Hx|].
  destruct (leb x y); simpl; [now rewrite Hx|]. now rewrite IH.
Qed.

Lemma insert_rule_filter_in : forall (p : Rule -> bool) x l,
  p x = true -> StronglySorted id_le l ->
  filter p (insert_sorted (fun a b => (Rule_ID a <=? Rule_ID b)%Z) x l)
  = insert_sorted (fun a b => (Rule_ID a <=? Rule_ID b)%Z) x (filter p l).
Proof.
  intros p x l Hx H. induction H as [|y l Hl IH Hy]; simpl; [now rewrite Hx|].
  destruct (Rule_ID x <=? Rule_ID y)%Z eqn:E.
  - simpl. rewrite Hx. destruct (p y) eqn:Ey.
    + simpl. now rewrite E.
    + rewrite insert_sorted_head; [reflexivity|].
      intros z Hz. apply filter_In in Hz as [Hz _].
      rewrite Forall_forall in Hy. specialize (Hy _ Hz).
      apply Z.leb_le in E. apply Z.leb_le. unfold id_le in Hy. lia.
  - simpl. destruct (p y) eqn:Ey.
    + simpl. rewrite E. now rewrite IH.
    + exact IH.
Qed.

Lemma sort_rules_filter : forall (p : Rule -> bool) rules,
  sort_rules (filter p rules) = filter p (sort_rules rules).
Proof.
  intros p. induction rules as [|x l IH]; [reflexivity|].
  simpl. destruct (p x) eqn:Ex.
  - unfold sort_rules, sort_by in *. simpl. rewrite IH.
    symmetry. apply insert_rule_filter_in; [exact Ex|]. apply sort_rules_sorted.
  - unfold sort_rules, sort_by in *. simpl. rewrite IH.
    symmetry. now apply insert_rule_filter_out.
Qed.

Section Orchestrator.

Context {RT : Runtime}.

Lemma dispatch_unknown_level : forall rule pool,
  known_level rule = false -> dispatch rule pool = None.
Proof.
  intros rule pool H. unfold known_level in H. apply orb_false_iff in H as [H1 H2].
  unfold dispatch. now rewrite H1, H2.
Qed.

Lemma process_rules_known : forall rules pool,
  process_rules rules pool = process_rules (filter known_level rules) pool.
Proof.
  induction rules as [|rule rules IH]; intro pool; [reflexivity|].
  cbn [filter]. destruct (known_level rule) eqn:Ek.
  - cbn [process_rules]. destruct (is_empty pool); [reflexivity|].
    destruct (dispatch rule pool) as [result|]; [|apply IH].
    destruct (negb (is_empty result)); [|apply IH]. f_equal. apply IH.
  - cbn [process_rules]. rewrite (dispatch_unknown_level _ _ Ek).
    destruct (is_empty pool) eqn:Ee; [|apply IH].
    symmetry. now apply process_rules_empty_pool.
Qed.

End Orchestrator.

(** X15.  In a rules table with pairwise distinct rule ids, the rules
    whose [Level] is neither [Record] nor [DataSet], as written with
    these capitals, have no effect: the result is the one of the rules
    table without them. *)
Theorem rules_of_unknown_level_have_no_effect `{RT : Runtime} :
  forall (rules_df : list Rule) (claims_df : DataFrame),
    NoDup (map Rule_ID rules_df) ->
    apply_rules rules_df claims_df = apply_rules (filter known_level rules_df) claims_df.
Proof.
  intros rules claims _. unfold apply_rules, all_results.
  now rewrite sort_rules_filter, <- process_rules_known.
Qed.

(** ** The tags of the results *)

Lemma index_of_bound : forall name cols i,
  index_of name cols = Some i -> i < length cols /\ str_eqb name (nth i cols []) = true.
Proof.
  intros name. induction cols as [|c cols IH]; simpl; intros i H; [discriminate|].
  destruct (str_eqb name c) eqn:E.
  - inversion H; subst. split; [lia|exact E].
  - destruct (index_of name cols) as [j|]; [|discriminate].
    inversion H; subst. destruct (IH j eq_refl). split; [lia|assumption].
Qed.

Lemma index_of_none : forall name cols,
  index_of name cols = None <-> mem_str name cols = false.
Proof.
  intros name. induction cols as [|c cols IH]; simpl; [tauto|].
  destruct (str_eqb name c); simpl.
  - split; discriminate.
  - destruct (index_of name cols) as [j|]; [|tauto].
    split; [discriminate|]. intro H. apply IH in H. discriminate.
Qed.

Lemma index_of_app_left : forall name cols extra i,
  index_of name cols = Some i -> index_of name (cols ++ extra) = Some i.
Proof.
  intros name. induction cols as [|c cols IH]; simpl; intros extra i H; [discriminate|].
  destruct (str_eqb name c); [exact H|].
  destruct (index_of name cols) as [j|]; [|discriminate].
  now rewrite (IH extra j eq_refl).
Qed.

Lemma index_of_app_new : forall name cols,
  mem_str name cols = false -> index_of name (cols ++ [name]) = Some (length cols).
Proof.
  intros name. induction cols as [|c cols IH]; simpl; intro H.
  - now rewrite str_eqb_refl.
  - apply orb_false_iff in H as [H1 H2]. rewrite H1. now rewrite (IH H2).
Qed.

Lemma index_of_app_other : forall name other cols,
  mem_str name cols = false -> str_eqb name other = false ->
  index_of name (cols ++ [other]) = None.
Proof.
  intros name other cols H Ho. apply index_of_none.
  rewrite mem_str_app, H. simpl. now rewrite Ho.
Qed.

Lemma str_eqb_sym : forall a b, str_eqb a b = str_eqb b a.
Proof.
  intros a b. destruct (str_eqb a b) eqn:E1, (str_eqb b a) eqn:E2; try reflexivity.
  - apply str_eqb_eq in E1. subst. now rewrite str_eqb_refl in E2.
  - apply str_eqb_eq in E2. subst. now rewrite str_eqb_refl in E1.
Qed.

Lemma nth_combine_map : forall (cols : list str) (cs : list value) (f : str * value -> value) i,
  i < length cols -> length cs = length cols ->
  nth i (map f (combine cols cs)) VNaN = f (nth i cols [], nth i cs VNaN).
Proof.
  induction cols as [|c cols IH]; intros cs f i Hi Hl; [simpl in Hi; lia|].
  destruct cs as [|v cs]; [discriminate|]. simpl in *.
  destruct i as [|i]; [reflexivity|]. apply IH; lia.
Qed.

(** The column written by an assignment reads as the value assigned. *)
Lemma cell_set_cell_same : forall cols name v r,
  cell (if mem_str name cols then cols else cols ++ [name]) (set_cell cols name v r) name = v.
Proof.
  intros cols name v r. unfold cell, set_cell.
  destruct (mem_str name cols) eqn:Em.
  - destruct (index_of name cols) as [i|] eqn:Ei.
    + apply index_of_bound in Ei as [Hi He]. cbn [cells].
      rewrite nth_combine_map by (try apply fit_length; assumption).
      cbn [fst snd]. now rewrite str_eqb_sym, He.
    + apply index_of_none in Ei. congruence.
  - rewrite (index_of_app_new _ _ Em). cbn [cells].
    rewrite app_nth2 by (rewrite fit_length; lia).
    rewrite fit_length, Nat.sub_diag. reflexivity.
Qed.

(** The other columns read as before. *)
Lemma cell_set_cell_other : forall cols name v r other,
  str_eqb other name = false ->
  cell (if mem_str name cols then cols else cols ++ [name]) (set_cell cols name v r) other
  = cell cols r other.
Proof.
  intros cols name v r other Ho. unfold cell, set_cell.
  destruct (mem_str name cols) eqn:Em.
  - destruct (index_of other cols) as [i|] eqn:Ei; [|reflexivity].
    apply index_of_bound in Ei as [Hi He]. cbn [cells].
    rewrite nth_combine_map by (try apply fit_length; assumption).
    cbn [fst snd]. apply str_eqb_eq in He. rewrite <- He, Ho.
    now apply fit_nth.
  - destruct (index_of other cols) as [i|] eqn:Ei.
    + rewrite (index_of_app_left _ _ _ _ Ei). apply index_of_bound in Ei as [Hi _].
      cbn [cells]. rewrite app_nth1 by (rewrite fit_length; lia). now apply fit_nth.
    + apply index_of_none in Ei. now rewrite (index_of_app_other _ _ _ Ei Ho).
Qed.

Lemma tag_tagged_with : forall rule df,
  tagged_with rule (tag (Rule_ID rule) (Rule_Desc rule) df).
Proof.
  intros rule df r Hr. rewrite tag_rows in Hr.
  apply in_map_iff in Hr as [r0 [<- _]].
  unfold tag, tag_row, set_column. cbn [columns].
  split.
  - rewrite cell_set_cell_other by reflexivity. apply cell_set_cell_same.
  - apply cell_set_cell_same.
Qed.

Section Attribution.

Context {RT : Runtime}.

Lemma dispatch_known_level : forall rule pool result,
  dispatch rule pool = Some result -> known_level rule = true.
Proof.
  intros rule pool result H. unfold dispatch in H. unfold known_level.
  destruct (str_eqb (Level rule) (L "Record")); [reflexivity|].
  destruct (str_eqb (Level rule) (L "DataSet")); [reflexivity|discriminate].
Qed.

Lemma process_rules_attribution : forall rules pool,
  exists matched,
    Forall2 (fun rule out => known_level rule = true /\ is_empty out = false
                             /\ tagged_with rule out)
            matched (process_rules rules pool)
    /\ (forall rule, In rule matched -> In rule rules)
    /\ (StronglySorted id_le rules -> StronglySorted id_le matched).
Proof.
  induction rules as [|rule rules IH]; intro pool.
  - exists []. repeat split; auto.
  - cbn [process_rules]. destruct (is_empty pool).
    { exists []. repeat split; [constructor|intros ? []|constructor]. }
    destruct (dispatch rule pool) as [result|] eqn:Ed.
    + destruct (is_empty result) eqn:Ee; cbn [negb].
      * destruct (IH pool) as [matched [F [I S]]]. exists matched.
        split; [exact F|]. split; [intros x Hx; right; now apply I|].
        intro Hs. inversion Hs; subst. auto.
      * destruct (IH (remove_identified pool result)) as [matched [F [I S]]].
        exists (rule :: matched). split; [|split].
        -- constructor; [|exact F]. split; [eapply dispatch_known_level; eauto|].
           split; [exact Ee|].
           apply dispatch_result in Ed as [->|[rs [_ ->]]]; [discriminate|].
           apply tag_tagged_with.
        -- intros x [<-|Hx]; [now left|right; now apply I].
        -- intro Hs. inversion Hs as [|? ? Hs' Hf]; subst.
           constructor; [now apply S|].
           apply Forall_forall. intros x Hx. rewrite Forall_forall in Hf. apply Hf.
           now apply I.
    + destruct (IH pool) as [matched [F [I S]]]. exists matched.
      split; [exact F|]. split; [intros x Hx; right; now apply I|].
      intro Hs. inversion Hs; subst. auto.
Qed.

End Attribution.

(** X16.  For every rules table and every claims table, the results
    of [apply_rules] match a list of rules of the table, of level
    [Record] or [DataSet] and in non-decreasing order of id: each result
    is not empty, and every row of it carries the id and the description
    of its rule in the columns [rule_id] and [rule_desc], also where the
    claims table had columns of these names. *)
Theorem results_are_tagged_in_rule_order `{RT : Runtime} :
  forall (rules_df : list Rule) (claims_df : DataFrame),
    exists matched : list Rule,
      Forall2 (fun rule out => known_level rule = true /\ is_empty out = false
                               /\ tagged_with rule out)
              matched (all_results rules_df claims_df)
      /\ (forall rule, In rule matched -> In rule rules_df)
      /\ StronglySorted id_le matched.
Proof.
  intros rules claims. unfold all_results.
  destruct (process_rules_attribution (sort_rules rules) claims) as [matched [F [I S]]].
  exists matched. split; [exact F|]. split.
  - intros rule Hr. apply I in Hr. unfold sort_rules in Hr. now apply sort_by_In in Hr.
  - apply S, sort_rules_sorted.
Qed.

(** ** The table that [apply_rules] returns *)

Lemma dedup_names_known : forall (l acc : list str),
  (forall x, In x l -> In x acc) ->
  fold_left (fun acc x => if existsb (str_eqb x) acc then acc else acc ++ [x]) l acc = acc.
Proof.
  induction l as [|x l IH]; intros acc H; [reflexivity|].
  simpl. replace (existsb (str_eqb x) acc) with true.
  - apply IH. intros y Hy. apply H. now right.
  - symmetry. apply (mem_str_In x acc). apply H. now left.
Qed.

Lemma dedup_names_new : forall (l acc : list str),
  NoDup (acc ++ l) ->
  fold_left (fun acc x => if existsb (str_eqb x) acc then acc else acc ++ [x]) l acc
  = acc ++ l.
Proof.
  induction l as [|x l IH]; intros acc H; [now rewrite app_nil_r|].
  simpl. replace (existsb (str_eqb x) acc) with false.
  - rewrite IH; rewrite <- app_assoc; [reflexivity|exact H].
  - symmetry. apply (mem_str_not_In x acc). intro Hin.
    apply NoDup_remove_2 in H. apply H. apply in_or_app. now left.
Qed.

Lemma dedup_same_columns : forall (cols : list str) (frames : list DataFrame),
  NoDup cols -> frames <> [] ->
  (forall df, In df frames -> columns df = cols) ->
  dedup str_eqb (flat_map columns frames) = cols.
Proof.
  intros cols [|f fs] Hn Hne H; [contradiction|].
  unfold dedup. simpl. rewrite (H f) by now left.
  rewrite fold_left_app, (dedup_names_new cols []) by assumption.
  apply dedup_names_known. intros x Hx.
  apply in_flat_map in Hx as [df [Hdf Hx]]. rewrite (H df) in Hx by now right.
  exact Hx.
Qed.

Lemma index_of_middle : forall name pre post,
  ~ In name pre -> index_of name (pre ++ name :: post) = Some (length pre).
Proof.
  intros name. induction pre as [|c pre IH]; simpl; intros post H.
  - now rewrite str_eqb_refl.
  - replace (str_eqb name c) with false.
    + rewrite IH; [reflexivity|]. intro Hin. apply H. now right.
    + symmetry. apply str_eqb_neq. intro E. apply H. now left.
Qed.

Lemma cells_by_name_from : forall (cols pre : list str) (lbl : Z) (pcs cs : list value),
  NoDup (pre ++ cols) -> length pcs = length pre -> length cs = length cols ->
  map (cell (pre ++ cols) (mkRow lbl (pcs ++ cs))) cols = cs.
Proof.
  induction cols as [|c cols IH]; intros pre lbl pcs cs Hn Hp Hc.
  - destruct cs; [reflexivity|discriminate].
  - destruct cs as [|v cs]; [discriminate|]. simpl in Hc. cbn [map]. f_equal.
    + unfold cell. rewrite index_of_middle.
      * cbn [cells]. rewrite app_nth2 by lia. rewrite Hp, Nat.sub_diag. reflexivity.
      * apply NoDup_remove_2 in Hn. intro Hin. apply Hn. apply in_or_app. now left.
    + replace (pre ++ c :: cols) with ((pre ++ [c]) ++ cols) by now rewrite <- app_assoc.
      replace (pcs ++ v :: cs) with ((pcs ++ [v]) ++ cs) by now rewrite <- app_assoc.
      apply IH.
      * now rewrite <- app_assoc.
      * rewrite !length_app. simpl. lia.
      * lia.
Qed.

Lemma cells_by_name : forall (cols : list str) (r : Row),
  NoDup cols -> length (cells r) = length cols -> map (cell cols r) cols = cells r.
Proof.
  intros cols [lbl cs] Hn Hl. simpl in Hl.
  apply (cells_by_name_from cols [] lbl [] cs); auto.
Qed.

Lemma map_fst_combine : forall (A B : Type) (a : list A) (b : list B),
  length a = length b -> map fst (combine a b) = a.
Proof.
  intros A B. induction a as [|x a IH]; intros [|y b] H; simpl in *; try discriminate;
    [reflexivity|]. f_equal. apply IH. lia.
Qed.

Lemma concat_well_shaped : forall (cols : list str) (frames : list DataFrame),
  NoDup cols -> frames <> [] ->
  (forall df, In df frames -> well_shaped cols df) ->
  columns (concat frames) = cols
  /\ map cells (rows (concat frames)) = flat_map (fun df => map cells (rows df)) frames
  /\ map label (rows (concat frames))
     = map Z.of_nat (seq 0 (length (flat_map rows frames))).
Proof.
  intros cols frames Hn Hne H.
  assert (Hcols : dedup str_eqb (flat_map columns frames) = cols).
  { apply dedup_same_columns; auto. intros df Hdf. now apply H. }
  assert (Hrows : flat_map (fun df => map (fun r => map (cell (columns df) r) cols) (rows df))
                           frames
                  = flat_map (fun df => map cells (rows df)) frames).
  { clear Hne Hcols. induction frames as [|f fs IH]; [reflexivity|].
    simpl. rewrite IH by (intros df Hdf; apply H; now right). f_equal.
    destruct (H f (or_introl eq_refl)) as [Hc Hr]. rewrite Hc.
    apply map_ext_in. intros r Hin. apply cells_by_name; auto. }
  unfold concat. rewrite Hcols, Hrows. cbn [columns rows].
  split; [reflexivity|]. split.
  - rewrite map_map. cbn [cells].
    change (fun x : nat * list value => snd x) with (@snd nat (list value)).
    apply map_snd_combine. apply length_seq.
  - rewrite map_map. cbn [label].
    rewrite <- (map_map fst Z.of_nat), map_fst_combine by apply length_seq.
    do 2 f_equal. rewrite !flat_map_concat_map, !length_concat, !map_map.
    f_equal. apply map_ext. intro df. apply length_map.
Qed.

Lemma tag_well_shaped : forall cols rs rule_id rule_desc,
  plain_columns cols = true ->
  well_shaped (cols ++ [col_rule_id; col_rule_desc])
              (tag rule_id rule_desc (mkFrame cols rs)).
Proof.
  intros cols rs rule_id rule_desc Hp. split.
  - now apply tag_columns_plain.
  - intros r Hr. rewrite tag_rows in Hr. apply in_map_iff in Hr as [r0 [<- _]].
    cbn [columns]. rewrite tag_row_plain by assumption. cbn [cells].
    rewrite !length_app, fit_length. reflexivity.
Qed.

Section OutputTable.

Context {RT : Runtime}.

Lemma process_rules_shape : forall rules pool out,
  plain_columns (columns pool) = true ->
  In out (process_rules rules pool) ->
  well_shaped (columns pool ++ [col_rule_id; col_rule_desc]) out /\ is_empty out = false.
Proof.
  induction rules as [|rule rules IH]; intros pool out Hp H; [destruct H|].
  cbn [process_rules] in H. destruct (is_empty pool); [destruct H|].
  destruct (dispatch rule pool) as [result|] eqn:Hd; [|now apply IH].
  destruct (is_empty result) eqn:Ee; cbn [negb] in H; [now apply IH|].
  destruct H as [<-|H].
  - split; [|exact Ee].
    apply dispatch_result in Hd as [->|[rs [_ ->]]]; [discriminate|].
    now apply tag_well_shaped.
  - destruct (remove_identified_spec pool result Hp) as [Hc _].
    rewrite <- Hc. apply IH; [now rewrite Hc|exact H].
Qed.

End OutputTable.

Lemma apply_rules_table `{RT : Runtime} :
  forall (rules_df : list Rule) (claims_df : DataFrame),
    plain_columns (columns claims_df) = true ->
    columns (apply_rules rules_df claims_df)
    = columns claims_df ++ [col_rule_id; col_rule_desc]
    /\ map cells (rows (apply_rules rules_df claims_df))
       = flat_map (fun out => map cells (rows out)) (all_results rules_df claims_df)
    /\ map label (rows (apply_rules rules_df claims_df))
       = map Z.of_nat (seq 0 (length (rows (apply_rules rules_df claims_df)))).
Proof.
  intros rules claims Hp. unfold apply_rules.
  destruct (all_results rules claims) as [|out outs] eqn:E.
  - cbn [columns rows]. repeat split; reflexivity.
  - destruct (concat_well_shaped (columns claims ++ [col_rule_id; col_rule_desc])
                (out :: outs)) as [Hc [Hr Hl]].
    + now apply plain_columns_tagged_NoDup.
    + discriminate.
    + intros df Hdf. rewrite <- E in Hdf. unfold all_results in Hdf.
      now apply process_rules_shape in Hdf as [Hdf _].
    + split; [exact Hc|]. split; [exact Hr|].
      rewrite Hl. do 2 f_equal.
      rewrite <- (length_map cells (rows (concat (out :: outs)))), Hr.
      rewrite !flat_map_concat_map, !length_concat, !map_map.
      f_equal. apply map_ext. intro df. symmetry. apply length_map.
Qed.

(** X17.  On a claims table with plain columns the table that
    [apply_rules] returns has the columns of the claims followed by
    [rule_id] and [rule_desc], whether a rule matched or not; its rows
    are the rows of the results, in the order in which the rules were
    processed, and they are labelled 0, 1, 2, ... anew. *)
Theorem output_has_the_claims_columns_and_the_rows_of_the_results `{RT : Runtime} :
  forall (rules_df : list Rule) (claims_df : DataFrame),
    plain_columns (columns claims_df) = true ->
    columns (apply_rules rules_df claims_df)
    = columns claims_df ++ [col_rule_id; col_rule_desc]
    /\ map cells (rows (apply_rules rules_df claims_df))
       = flat_map (fun out => map cells (rows out)) (all_results rules_df claims_df)
    /\ map label (rows (apply_rules rules_df claims_df))
       = map Z.of_nat (seq 0 (length (rows (apply_rules rules_df claims_df)))).
Proof. intros rules claims Hp. now apply apply_rules_table. Qed.

(** ** A rule that matches every claim *)

(** X18.  When the result of a rule holds every claim of the pool,
    the removal leaves no claim, the loop stops before the next rule,
    and the rules that follow contribute nothing.  The pool is taken
    without missing cells, for which the merge key is a function of the
    content of a row. *)
Theorem rule_that_matches_every_claim_ends_the_processing `{RT : Runtime} :
  forall (rule : Rule) (rules : list Rule) (pool result : DataFrame),
    no_missing_cells pool = true ->
    is_empty pool = false ->
    dispatch rule pool = Some result ->
    is_empty result = false ->
    (forall r, In r (rows pool) -> In (row_tuple pool r) (claim_tuples result)) ->
    is_empty (remove_identified pool result) = true
    /\ process_rules (rule :: rules) pool = [result].
Proof.
  intros rule rules pool result _ He Hd Hr Hall.
  assert (Hrem : is_empty (remove_identified pool result) = true).
  { unfold remove_identified. rewrite filter_none; [reflexivity|].
    intros r Hin. apply negb_false_iff. apply existsb_exists.
    exists (tuple_hash (row_tuple pool r)). split; [|apply Z.eqb_refl].
    unfold identified_keys. apply in_map. now apply Hall. }
  split; [exact Hrem|].
  cbn [process_rules]. rewrite He, Hd, Hr. cbn [negb]. f_equal.
  now apply process_rules_empty_pool.
Qed.

(** ** No more rows than claims *)







Section RowCount.

Context {RT : Runtime}.




End RowCount.


(** ** The distance and the chain of the pairwise check *)

Lemma constraint_broken_unknown : forall op diff threshold,
  op_of_text op = None -> constraint_broken op diff threshold = false.
Proof.
  intros op diff threshold H. unfold op_of_text in H. unfold constraint_broken.
  destruct (str_eqb op (L "==")); [discriminate|].
  destruct (str_eqb op (L "!=")); [discriminate|].
  destruct (str_eqb op (L ">")); [discriminate|].
  destruct (str_eqb op (L ">=")); [discriminate|].
  destruct (str_eqb op (L "<")); [discriminate|].
  destruct (str_eqb op (L "<=")); [discriminate|].
  reflexivity.
Qed.

Lemma x_abs_sub_sym : forall a b, x_abs (x_sub a b) = x_abs (x_sub b a).
Proof.
  intros [p| | |] [q| | |]; simpl; try reflexivity.
  f_equal. apply Qabs_Qminus.
Qed.

Section PairwiseCheck.

Context {RT : Runtime}.

Lemma differences_met_constraining : forall cols fds row1 row2,
  differences_met cols fds row1 row2
  = differences_met cols (filter (constraining cols) fds) row1 row2.
Proof.
  intros cols fds row1 row2. induction fds as [|[[[f1 f2] op] k] fds IH]; [reflexivity|].
  cbn [differences_met filter]. unfold constraining at 1.
  destruct (mem_str f1 cols && mem_str f2 cols) eqn:Em; cbn [andb]; [|exact IH].
  destruct (op_of_text op) as [o|] eqn:Eo.
  - cbn [differences_met]. rewrite Em, IH. reflexivity.
  - rewrite constraint_broken_unknown by exact Eo. exact IH.
Qed.

End PairwiseCheck.

(** X22.  In the pairwise check a field difference whose fields are
    not both columns, or whose operator is none of the six of the chain,
    constrains nothing; a field difference written with a single [=] is
    one of them. *)
Theorem pairwise_check_ignores_unknown_operators_and_fields `{RT : Runtime} :
  forall (cols : list str) (field_differences : list (str * str * str * Q))
         (row1 row2 : Row),
    differences_met cols field_differences row1 row2
    = differences_met cols (filter (constraining cols) field_differences) row1 row2
    /\ (forall field1 field2 threshold,
          constraining cols (field1, field2, L "=", threshold) = false).
Proof.
  intros cols fds row1 row2. split; [apply differences_met_constraining|].
  intros f1 f2 k. unfold constraining.
  replace (op_of_text (L "=")) with (@None cmp_op) by reflexivity.
  apply andb_false_r.
Qed.

(** For fields that are not read as dates, the distance of [field1] of
    one row and [field2] of another is the distance of [field2] of the
    latter and [field1] of the former. *)
Lemma numeric_distance_exchange `{RT : Runtime} :
  forall (cols : list str) (field1 field2 : str) (row1 row2 : Row),
    is_date_field field1 = false ->
    is_date_field field2 = false ->
    field_distance cols field1 field2 row1 row2
    = field_distance cols field2 field1 row2 row1.
Proof.
  intros cols f1 f2 row1 row2 H1 H2. unfold field_distance. rewrite H1, H2.
  destruct (py_float (cell cols row1 f1)) as [a|], (py_float (cell cols row2 f2)) as [b|];
    try reflexivity.
  apply x_abs_sub_sym.
Qed.

(** X23.  For the difference of a field with itself, the field not
    being read as a date, the distance of two rows does not depend on
    their order. *)
Theorem numeric_distance_is_symmetric `{RT : Runtime} :
  forall (cols : list str) (field : str) (row1 row2 : Row),
    is_date_field field = false ->
    field_distance cols field field row1 row2
    = field_distance cols field field row2 row1.
Proof.
  intros cols field row1 row2 H. now apply numeric_distance_exchange.
Qed.


(** ** The report *)

Lemma Permutation_filter_length : forall (A : Type) (p : A -> bool) l l',
  Permutation l l' -> length (filter p l) = length (filter p l').
Proof.
  intros A p l l' H. induction H; simpl.
  - reflexivity.
  - destruct (p x); simpl; now rewrite IHPermutation.
  - destruct (p x), (p y); reflexivity.
  - congruence.
Qed.

(** Among rows no two of which are the same, at most one is the same
    as a given one. *)
Lemma distinct_count : forall (A : Type) (same : A -> A -> bool) l x,
  (forall a b, same a b = same b a) ->
  (forall a b c, same a b = true -> same b c = true -> same a c = true) ->
  ForallOrdPairs (fun a b => same b a = false) l ->
  length (filter (fun y => same y x) l) <= 1.
Proof.
  intros A same l x Hsym Htrans H. induction H as [|a l Ha Hl IH]; simpl; [lia|].
  destruct (same a x) eqn:Ea; [|exact IH].
  rewrite filter_none; [simpl; lia|].
  intros b Hb. rewrite Forall_forall in Ha. specialize (Ha b Hb).
  destruct (same b x) eqn:Eb; [|reflexivity].
  rewrite (Htrans b x a) in Ha; [discriminate|exact Eb|]. now rewrite Hsym.
Qed.

Lemma select_columns_names : forall names df,
  NoDup (columns df) ->
  forallb (fun name => mem_str name (columns df)) names = true ->
  map (fun i => nth i (columns df) [])
      (flat_map (fun name => positions_of name (columns df)) names)
  = names.
Proof.
  intros names df Hn. induction names as [|name names IH]; intro H; [reflexivity|].
  simpl in H. apply andb_true_iff in H as [H1 H2].
  apply mem_str_In in H1. apply in_split in H1 as [pre [post E]].
  cbn [flat_map]. rewrite map_app, (IH H2). rewrite E in *.
  rewrite positions_of_at by exact Hn. cbn [map]. rewrite app_nth2 by lia.
  now rewrite Nat.sub_diag.
Qed.

Lemma select_columns_some : forall names df selected,
  select_columns names df = Some selected ->
  forallb (fun name => mem_str name (columns df)) names = true
  /\ columns selected
     = map (fun i => nth i (columns df) [])
           (flat_map (fun name => positions_of name (columns df)) names)
  /\ rows selected = map (fun r => mkRow (label r) (select_tuple df names r)) (rows df).
Proof.
  intros names df selected H. unfold select_columns in H.
  destruct (forallb _ names); [|discriminate].
  injection H as <-. auto.
Qed.

Section Report.

Context {RR : ReportRuntime}.

Lemma generate_report_missing_column : forall results_df name,
  is_empty results_df = false ->
  In name [L "claim_id"; L "rule_id"; L "rule_desc"; L "member_id"; L "provider_npi"] ->
  mem_str name (columns results_df) = false ->
  generate_report results_df = None.
Proof.
  intros df name He Hin Hm. unfold generate_report, select_columns. rewrite He.
  replace (forallb _ (report_columns df)) with false; [reflexivity|].
  symmetry. apply not_true_is_false. intro H.
  rewrite forallb_forall in H. specialize (H name). rewrite Hm in H.
  assert (false = true); [|discriminate].
  apply H. unfold report_columns. apply in_or_app. now left.
Qed.

Lemma generate_report_rows : forall results_df report_df,
  sort_keeps_rows RR ->
  is_empty results_df = false ->
  generate_report results_df = Some report_df ->
  exists selected,
    select_columns (report_columns results_df) results_df = Some selected
    /\ columns report_df = columns selected
    /\ Permutation
         (rows (drop_duplicates_subset [L "claim_id"; L "rule_id"] selected))
         (rows report_df).
Proof.
  intros df report Hs He H. unfold generate_report in H. rewrite He in H.
  destruct (select_columns _ df) as [selected|]; [|discriminate].
  destruct (sort_values _ _) as [sorted|] eqn:Es; [|discriminate].
  destruct (display_report sorted); [|discriminate].
  inversion H; subst. apply Hs in Es as [Hc Hp].
  exists selected. split; [reflexivity|]. split; assumption.
Qed.

End Report.

(** X20.  The report needs the columns [claim_id], [member_id] and
    [provider_npi].  For a claims table with plain columns that lacks one
    of them, as soon as one rule matches, the table that [apply_rules]
    returns is not empty and [generate_report] raises on it: the
    selection of the report columns fails with [KeyError]. *)
Theorem report_needs_claim_member_and_provider_columns
    `{RT : Runtime} `{RR : ReportRuntime} :
  forall (rules_df : list Rule) (claims_df : DataFrame) (name : str),
    plain_columns (columns claims_df) = true ->
    all_results rules_df claims_df <> [] ->
    In name [L "claim_id"; L "member_id"; L "provider_npi"] ->
    mem_str name (columns claims_df) = false ->
    is_empty (apply_rules rules_df claims_df) = false
    /\ generate_report (apply_rules rules_df claims_df) = None.
Proof.
  intros rules claims name Hp Hne Hin Hm.
  destruct (apply_rules_table rules claims Hp) as [Hc [Hr _]].
  assert (He : is_empty (apply_rules rules claims) = false).
  { unfold is_empty. rewrite Hc.
    destruct (rows (apply_rules rules claims)) as [|r rs] eqn:Er.
    - exfalso. destruct (all_results rules claims) as [|out outs] eqn:Ea;
        [now apply Hne|].
      assert (Ho : is_empty out = false).
      { eapply (process_rules_shape (sort_rules rules) claims out Hp).
        unfold all_results in Ea. rewrite Ea. now left. }
      cbn [map flat_map] in Hr. destruct (rows out) as [|r0 rs0] eqn:Eo.
      + unfold is_empty in Ho. now rewrite Eo in Ho.
      + discriminate.
    - now destruct (columns claims). }
  split; [exact He|].
  apply (generate_report_missing_column _ name); [exact He| |].
  - destruct Hin as [<-|[<-|[<-|[]]]];
      [now left|do 3 right; now left|do 4 right; now left].
  - rewrite Hc, mem_str_app, Hm.
    destruct Hin as [<-|[<-|[<-|[]]]]; reflexivity.
Qed.

(** X21.  When [generate_report] returns a report for a table of
    results that is not empty, and sorting keeps the rows: every row of
    the report is a row of the results cut down to the report columns;
    no two rows of the report have the same [claim_id] and [rule_id];
    and, the columns of the results being pairwise distinct, the columns
    of the report are the five fixed ones followed by the optional ones
    that the results have, in the order of [optional_columns]. *)
Theorem report_has_one_row_for_each_claim_and_rule `{RR : ReportRuntime} :
  forall (results_df report_df : DataFrame),
    sort_keeps_rows RR ->
    is_empty results_df = false ->
    generate_report results_df = Some report_df ->
    (forall r, In r (rows report_df) ->
       exists r0, In r0 (rows results_df)
                  /\ r = mkRow (label r0)
                           (select_tuple results_df (report_columns results_df) r0))
    /\ (forall r, length (filter (fun r' => values_same (report_key report_df r')
                                                        (report_key report_df r))
                                 (rows report_df)) <= 1)
    /\ (NoDup (columns results_df) -> columns report_df = report_columns results_df).
Proof.
  intros df report Hs He H.
  destruct (generate_report_rows df report Hs He H) as [selected [Hsel [Hc Hp]]].
  apply select_columns_some in Hsel as [Ef [Hcols Hrows]].
  split; [|split].
  - intros r Hr. apply Permutation_sym in Hp. apply (Permutation_in _ Hp) in Hr.
    unfold drop_duplicates_subset in Hr. cbn [rows] in Hr. apply dedup_In in Hr.
    rewrite Hrows in Hr.
    apply in_map_iff in Hr as [r0 [<- Hr0]]. now exists r0.
  - intro r. unfold report_key, select_tuple. rewrite Hc.
    rewrite <- (Permutation_filter_length _ _ _ _ Hp).
    unfold drop_duplicates_subset. cbn [rows].
    apply (distinct_count _
             (fun a b => values_same (select_tuple selected [L "claim_id"; L "rule_id"] a)
                                     (select_tuple selected [L "claim_id"; L "rule_id"] b))).
    + intros a b. apply values_same_sym.
    + intros a b c. apply values_same_trans.
    + apply dedup_distinct.
  - intro Hn. rewrite Hc, Hcols. now apply select_columns_names.
Qed.

(** ** The statements at concrete inputs *)

(** The two rules that look for repeated members on the two claims
    with a column [rule_id]: both rules return both claims. *)
Lemma exclusive_attribution_failure_witness :
  tuple_hash (Runtime := demo_runtime) [VNum 7; VNum 100]
    <> tuple_hash (Runtime := demo_runtime) [VNum 7]
  /\ tuple_hash (Runtime := demo_runtime) [VNum 7; VNum 200]
       <> tuple_hash (Runtime := demo_runtime) [VNum 7]
  /\ ~ ForallOrdPairs disjoint_claims
         (all_results (RT := demo_runtime) repeat_rules tagged_claims).
Proof.
  assert (H1 : tuple_hash (Runtime := demo_runtime) [VNum 7; VNum 100]
               <> tuple_hash (Runtime := demo_runtime) [VNum 7])
    by (vm_compute; discriminate).
  assert (H2 : tuple_hash (Runtime := demo_runtime) [VNum 7; VNum 200]
               <> tuple_hash (Runtime := demo_runtime) [VNum 7])
    by (vm_compute; discriminate).
  split; [exact H1|]. split; [exact H2|].
  exact (proj2 (exclusive_attribution_fails_with_rule_id_column
                  (RT := demo_runtime) H1 H2)).
Defined.

(** The guarded Record rule on the claims with a text for an amount. *)
Lemma record_rule_guard_witness :
  frame_eval (Runtime := demo_runtime) mixed_claims
    (parse_condition_for_record_rule amount_condition) = None
  /\ apply_record_level_rule (RT := demo_runtime) mixed_claims 1 (L "high amount")
       amount_condition = empty_frame.
Proof.
  split; [vm_compute; reflexivity|].
  apply (record_rule_is_guarded_as_a_whole (RT := demo_runtime)
           mixed_claims 1 (L "high amount") amount_condition).
  vm_compute. reflexivity.
Defined.


(** The condition of the specification does not hold the text of the
    key. *)
Lemma normalisation_idempotent_witness :
  k_free status_condition
  /\ parse_condition_for_record_rule (parse_condition_for_record_rule status_condition)
     = parse_condition_for_record_rule status_condition.
Proof.
  assert (H : k_free status_condition) by reflexivity.
  split; [exact H|].
  apply (normalisation_idempotent_without_placeholder_text status_condition H).
Defined.

(** Scenario 2, where the only rule matches nothing. *)
Lemma empty_result_witness :
  apply_rules (RT := demo_runtime) scenario2_rules scenario2_claims
  = mkFrame (columns scenario2_claims ++ [col_rule_id; col_rule_desc]) [].
Proof.
  apply (empty_result_keeps_schema (RT := demo_runtime) scenario2_rules scenario2_claims).
  left. intros rule result [<-|[]] H.
  vm_compute in H. inversion H. reflexivity.
Defined.

(** The field difference of [pair_condition] on three claims of one
    member.  The comparison [paid_amount < 500] that the value pattern
    reads in it removes the third claim before the claims are grouped:
    the rule returns what it returns on the first two claims, and the
    third is not returned, although its amount is less than 500 away
    from the amount of the second. *)
Lemma field_difference_leak_witness :
  In (L "paid_amount", L "paid_amount", L "<", 500%Q)
     (extract_field_differences pair_condition)
  /\ In (L "paid_amount", L "<", LNum 500)
        (extract_value_comparisons pair_condition)
  /\ prefilter (RT := demo_runtime) (extract_value_comparisons pair_condition) leak_claims
     = Some plain_claims
  /\ apply_dataset_level_rule (RT := demo_runtime) leak_claims 3 (L "close amounts")
       pair_condition
     = apply_dataset_level_rule (RT := demo_runtime) plain_claims 3 (L "close amounts")
         pair_condition
  /\ map label (rows (apply_dataset_level_rule (RT := demo_runtime) leak_claims 3
                        (L "close amounts") pair_condition)) = [0%Z; 1%Z]
  /\ constraint_broken (L "<")
       (field_distance (RT := demo_runtime) (columns leak_claims)
          (L "paid_amount") (L "paid_amount")
          (mkRow 1 [VNum 7; VNum 200]) (mkRow 2 [VNum 7; VNum 600])) 500 = false.
Proof.
  assert (H : In (L "paid_amount", L "paid_amount", L "<", 500%Q)
                 (extract_field_differences pair_condition))
    by (vm_compute; left; reflexivity).
  assert (P : prefilter (RT := demo_runtime) (extract_value_comparisons pair_condition)
                leak_claims = Some plain_claims)
    by (vm_compute; reflexivity).
  destruct (field_difference_leaks_into_prefilter (RT := demo_runtime)
              pair_condition (L "paid_amount") (L "paid_amount") (L "<") 500%Q H)
    as [Hin Hrows].
  destruct (Hrows leak_claims 3%Z (L "close amounts") OpLt eq_refl eq_refl)
    as [_ [Hfiltered _]].
  destruct (Hfiltered plain_claims P) as [_ [_ Hsame]].
  split; [exact H|]. split; [exact Hin|]. split; [exact P|]. split; [exact Hsame|].
  split; vm_compute; reflexivity.
Defined.

(** The field [member_id] with one blank on each side of the operator. *)
Lemma double_equals_witness :
  extract_self_comparisons (L "member_id" ++ L " " ++ L "==" ++ L " " ++ L "member_id") = []
  /\ extract_self_comparisons (L "member_id" ++ L " " ++ L "=" ++ L " " ++ L "member_id")
     = [L "member_id"].
Proof.
  assert (Hf : all_in is_word (L "member_id")) by (repeat constructor).
  assert (Hn : L "member_id" <> []) by discriminate.
  assert (Hs : all_in is_space (L " ")) by (repeat constructor).
  destruct (double_equals_is_not_a_self_comparison (RT := demo_runtime)
              (L "member_id") (L " ") (L " ") scenario2_claims 1 (L "repeats")
              Hf Hn Hs Hs) as [H1 [H2 _]].
  split; [exact H1|exact H2].
Defined.

(** A rule that groups by a column the claims of Scenario 2 do not have. *)
Lemma missing_grouping_column_witness :
  apply_dataset_level_rule (RT := demo_runtime) scenario2_claims 1 (L "same provider")
    (L "provider_npi = provider_npi") = empty_frame.
Proof.
  apply (missing_grouping_column_disables_rule (RT := demo_runtime)
           scenario2_claims 1 (L "same provider") (L "provider_npi = provider_npi")
           (L "provider_npi")).
  - vm_compute. left. reflexivity.
  - intro H. vm_compute in H. intuition discriminate.
Defined.

Lemma normaliser_changes_equals_signs_only_witness :
  without_eq (parse_condition_for_record_rule status_condition) = without_eq status_condition
  /\ length status_condition <= length (parse_condition_for_record_rule status_condition).
Proof.
  apply (normaliser_changes_equals_signs_only status_condition).
  left. vm_compute. reflexivity.
Defined.

Lemma normaliser_leaves_no_single_equals_witness :
  has_bare_eq None (parse_condition_for_record_rule status_condition) = false.
Proof.
  apply (normaliser_leaves_no_single_equals status_condition).
  left. vm_compute. reflexivity.
Defined.

Lemma normalisation_idempotent_without_quotes_witness :
  parse_condition_for_record_rule amount_condition = sub_equals None amount_condition
  /\ parse_condition_for_record_rule (parse_condition_for_record_rule amount_condition)
     = parse_condition_for_record_rule amount_condition.
Proof.
  apply (normalisation_idempotent_without_quotes amount_condition).
  repeat constructor.
Defined.

Lemma value_comparison_is_read_back_witness :
  extract_value_comparisons (L "paid_amount" ++ L " " ++ L ">" ++ L " " ++ L "1000")
  = [(L "paid_amount", L ">", LNum (inject_Z (int_of_digits (L "1000"))))].
Proof.
  apply (value_comparison_is_read_back (L "paid_amount") (L " ") (L ">") (L " ") (L "1000")).
  - split; [repeat constructor|discriminate].
  - repeat constructor.
  - split; [repeat constructor|discriminate].
  - repeat constructor.
  - split; [repeat constructor|discriminate].
  - simpl. lia.
Defined.

Lemma field_difference_is_read_back_witness :
  extract_field_differences
    (L "claim_service_to" ++ L " " ++ L "-" ++ L " " ++ L "claim_service_from" ++ L " "
     ++ L "<=" ++ L " " ++ L "30")
  = [(L "claim_service_to", L "claim_service_from", L "<=",
      inject_Z (int_of_digits (L "30")))].
Proof.
  apply (field_difference_is_read_back (L "claim_service_to") (L " ") (L " ")
           (L "claim_service_from") (L " ") (L "<=") (L " ") (L "30")).
  - split; [repeat constructor|discriminate].
  - repeat constructor.
  - repeat constructor.
  - split; [repeat constructor|discriminate].
  - repeat constructor.
  - split; [repeat constructor|discriminate].
  - repeat constructor.
  - split; [repeat constructor|discriminate].
  - simpl. lia.
Defined.

Lemma prefilter_keeps_the_rows_that_pass_every_comparison_witness :
  columns (mkFrame scenario2_columns
             [mkRow 0 [VNum 1; VStr (L "M1"); VNum 1];
              mkRow 1 [VNum 2; VStr (L "M1"); VNum 2]])
  = columns scenario2_numeric_claims
  /\ rows (mkFrame scenario2_columns
             [mkRow 0 [VNum 1; VStr (L "M1"); VNum 1];
              mkRow 1 [VNum 2; VStr (L "M1"); VNum 2]])
     = filter (fun r => forallb (satisfies (RT := demo_runtime)
                                   (columns scenario2_numeric_claims) r)
                                [(L "claim_service_from", L "<", LNum 3)])
              (rows scenario2_numeric_claims).
Proof.
  apply (prefilter_keeps_the_rows_that_pass_every_comparison (RT := demo_runtime)
           [(L "claim_service_from", L "<", LNum 3)] scenario2_numeric_claims).
  vm_compute. reflexivity.
Defined.

Lemma dataset_rule_returns_repeated_keys_only_witness :
  exists r0,
    In r0 (rows plain_claims)
    /\ mkRow 0 [VNum 7; VNum 100; VNum 1; VStr (L "repeated member")]
       = tag_row (columns plain_claims) 1 (L "repeated member") r0
    /\ 2 <= length (same_key_rows plain_claims
                      (extract_self_comparisons (L "member_id = member_id")) r0).
Proof.
  apply (dataset_rule_returns_repeated_keys_only (RT := demo_runtime)
           plain_claims 1 (L "repeated member") (L "member_id = member_id")).
  vm_compute. left. reflexivity.
Defined.

Lemma pairwise_result_comes_from_accepted_pairs_witness :
  exists row1 row2,
    In row1 (rows plain_claims) /\ In row2 (rows plain_claims)
    /\ (label row1 < label row2)%Z
    /\ values_same (key_of (columns plain_claims) (extract_self_comparisons pair_condition) row1)
                   (key_of (columns plain_claims) (extract_self_comparisons pair_condition) row2)
       = true
    /\ existsb is_missing
         (key_of (columns plain_claims) (extract_self_comparisons pair_condition) row1) = false
    /\ differences_met (RT := demo_runtime) (columns plain_claims)
         (extract_field_differences pair_condition) row1 row2 = true
    /\ (mkRow 1 [VNum 7; VNum 200; VNum 3; VStr (L "close amounts")]
        = tag_row (columns plain_claims) 3 (L "close amounts") row1
        \/ mkRow 1 [VNum 7; VNum 200; VNum 3; VStr (L "close amounts")]
           = tag_row (columns plain_claims) 3 (L "close amounts") row2).
Proof.
  apply (pairwise_result_comes_from_accepted_pairs (RT := demo_runtime)
           plain_claims 3 (L "close amounts") pair_condition).
  - vm_compute. discriminate.
  - vm_compute. right. left. reflexivity.
Defined.

Lemma day_distance_depends_on_the_order_of_the_rows_witness :
  field_distance (RT := demo_runtime) scenario2_columns
    (L "claim_service_from") (L "claim_service_from")
    (mkRow 0 [VNum 1; VStr (L "M1"); VDate (day 1)])
    (mkRow 1 [VNum 2; VStr (L "M1"); VDate (day 2 + 1)])
  = Fin (inject_Z (day_distance (day 1) (day 2 + 1)))
  /\ (0 <= day_distance (day 1) (day 2 + 1))%Z
  /\ ((day 1 < day 2 + 1)%Z -> ((day 2 + 1 - day 1) mod ns_per_day <> 0)%Z ->
      day_distance (day 1) (day 2 + 1) = (day_distance (day 2 + 1) (day 1) + 1)%Z).
Proof.
  apply (day_distance_depends_on_the_order_of_the_rows (RT := demo_runtime)
           scenario2_columns (L "claim_service_from") (L "claim_service_from")).
  - vm_compute. reflexivity.
  - vm_compute. reflexivity.
  - vm_compute. reflexivity.
  - vm_compute. discriminate.
Defined.

Lemma rule_without_field_differences_returns_every_repeated_row_witness :
  rows (apply_dataset_level_rule (RT := demo_runtime) plain_claims 1 (L "repeated member")
          (L "member_id = member_id"))
  = map (tag_row (columns plain_claims) 1 (L "repeated member"))
        (filter (duplicate_mask plain_claims (extract_self_comparisons (L "member_id = member_id")))
                (rows plain_claims)).
Proof.
  apply (rule_without_field_differences_returns_every_repeated_row (RT := demo_runtime)
           plain_claims plain_claims 1 (L "repeated member") (L "member_id = member_id")).
  - vm_compute. reflexivity.
  - vm_compute. discriminate.
  - vm_compute. reflexivity.
  - vm_compute. reflexivity.
Defined.

Lemma pairwise_result_has_no_repeated_claim_witness :
  ForallOrdPairs (fun a b => same_claim (length (columns plain_claims)) a b = false)
    (rows (apply_dataset_level_rule (RT := demo_runtime) plain_claims 3 (L "close amounts")
             pair_condition)).
Proof.
  apply (pairwise_result_has_no_repeated_claim (RT := demo_runtime)
           plain_claims 3 (L "close amounts") pair_condition).
  - vm_compute. reflexivity.
  - vm_compute. discriminate.
Defined.

Lemma order_of_the_rules_table_is_irrelevant_witness :
  apply_rules (RT := demo_runtime) repeat_rules plain_claims
  = apply_rules (RT := demo_runtime) repeat_rules_swapped plain_claims.
Proof.
  apply (order_of_the_rules_table_is_irrelevant (RT := demo_runtime)
           repeat_rules repeat_rules_swapped plain_claims).
  - apply perm_swap.
  - simpl. repeat constructor; simpl; intuition discriminate.
Defined.

Lemma output_has_the_claims_columns_and_the_rows_of_the_results_witness :
  columns (apply_rules (RT := demo_runtime) repeat_rules plain_claims)
  = columns plain_claims ++ [col_rule_id; col_rule_desc]
  /\ map cells (rows (apply_rules (RT := demo_runtime) repeat_rules plain_claims))
     = flat_map (fun out => map cells (rows out))
                (all_results (RT := demo_runtime) repeat_rules plain_claims)
  /\ map label (rows (apply_rules (RT := demo_runtime) repeat_rules plain_claims))
     = map Z.of_nat
         (seq 0 (length (rows (apply_rules (RT := demo_runtime) repeat_rules plain_claims)))).
Proof.
  apply (output_has_the_claims_columns_and_the_rows_of_the_results (RT := demo_runtime)
           repeat_rules plain_claims).
  vm_compute. reflexivity.
Defined.

Lemma rule_that_matches_every_claim_ends_the_processing_witness :
  is_empty (remove_identified (RT := demo_runtime) plain_claims
              (apply_dataset_level_rule (RT := demo_runtime) plain_claims 1
                 (L "repeated member") (L "member_id = member_id"))) = true
  /\ process_rules (RT := demo_runtime) repeat_rules plain_claims
     = [apply_dataset_level_rule (RT := demo_runtime) plain_claims 1
          (L "repeated member") (L "member_id = member_id")].
Proof.
  apply (rule_that_matches_every_claim_ends_the_processing (RT := demo_runtime)
           (mkRule 1 (L "repeated member") (L "DataSet") (L "member_id = member_id"))).
  - vm_compute. reflexivity.
  - vm_compute. reflexivity.
  - vm_compute. reflexivity.
  - vm_compute. reflexivity.
  - intros r [<-|[<-|[]]]; vm_compute; auto.
Defined.


Lemma report_needs_claim_member_and_provider_columns_witness :
  is_empty (apply_rules (RT := demo_runtime) repeat_rules plain_claims) = false
  /\ generate_report (RR := demo_report_runtime)
       (apply_rules (RT := demo_runtime) repeat_rules plain_claims) = None.
Proof.
  apply (report_needs_claim_member_and_provider_columns (RT := demo_runtime)
           (RR := demo_report_runtime) repeat_rules plain_claims (L "claim_id")).
  - vm_compute. reflexivity.
  - vm_compute. discriminate.
  - now left.
  - vm_compute. reflexivity.
Defined.

Lemma demo_sort_keeps_rows : sort_keeps_rows demo_report_runtime.
Proof.
  intros names df df' H. cbn [sort_values demo_report_runtime] in H.
  injection H as <-. cbn [columns rows]. split; [reflexivity|].
  apply Permutation_sym, sort_by_perm.
Qed.

Lemma report_has_one_row_for_each_claim_and_rule_witness :
  (forall r, In r (rows report_of_results) ->
     exists r0, In r0 (rows report_results)
                /\ r = mkRow (label r0)
                         (select_tuple report_results (report_columns report_results) r0))
  /\ (forall r, length (filter (fun r' => values_same (report_key report_of_results r')
                                                      (report_key report_of_results r))
                               (rows report_of_results)) <= 1)
  /\ (NoDup (columns report_results)
      -> columns report_of_results = report_columns report_results).
Proof.
  apply (report_has_one_row_for_each_claim_and_rule (RR := demo_report_runtime)
           report_results report_of_results).
  - exact demo_sort_keeps_rows.
  - vm_compute. reflexivity.
  - vm_compute. reflexivity.
Defined.

Lemma numeric_distance_is_symmetric_witness :
  field_distance (RT := demo_runtime) (columns plain_claims)
    (L "paid_amount") (L "paid_amount")
    (mkRow 0 [VNum 7; VNum 100]) (mkRow 1 [VNum 7; VNum 200])
  = field_distance (RT := demo_runtime) (columns plain_claims)
      (L "paid_amount") (L "paid_amount")
      (mkRow 1 [VNum 7; VNum 200]) (mkRow 0 [VNum 7; VNum 100]).
Proof.
  apply (numeric_distance_is_symmetric (RT := demo_runtime)).
  vm_compute. reflexivity.
Defined.


(** A rule of an unknown level in a table with distinct ids. *)
Lemma rules_of_unknown_level_have_no_effect_witness :
  NoDup (map Rule_ID mixed_level_rules)
  /\ apply_rules (RT := demo_runtime) mixed_level_rules plain_claims
     = apply_rules (RT := demo_runtime) (filter known_level mixed_level_rules)
         plain_claims.
Proof.
  assert (N : NoDup (map Rule_ID mixed_level_rules)).
  { cbn [map mixed_level_rules Rule_ID]. constructor.
    - intros [H|[]]. discriminate H.
    - constructor; [intros []|constructor]. }
  split; [exact N|].
  apply (rules_of_unknown_level_have_no_effect (RT := demo_runtime)
           mixed_level_rules plain_claims N).
Defined.

(** Exclusive attribution on the two plain claims and the two rules
    that look for repeated members. *)
Lemma exclusive_attribution_witness :
  plain_columns (columns plain_claims) = true
  /\ no_missing_cells plain_claims = true
  /\ ForallOrdPairs disjoint_claims
       (all_results (RT := demo_runtime) repeat_rules plain_claims).
Proof.
  split; [reflexivity|]. split; [reflexivity|].
  apply (exclusive_attribution_without_missing_cells (RT := demo_runtime)
           repeat_rules plain_claims); reflexivity.
Defined.
